(** * TopoSem graph analyzer: a shallow embedding of the path search and the
      path scoring of [4-GraphAnalyzer/src], with its properties.

    The Python sources are [extract_dot_nodes.py] (DOT text to the node and
    edge records), [SearchPath.py] (class [DirectedGraphPathFinder]: reverse
    search from a target, forest building, splitting at OR nodes, conversion
    to nested lists) and [CalculateScore.py] (hop extraction and the cost,
    stealth, length and criticality of a path).

    Conventions of the embedding:
    - a Python [str] is a [string]; a node id is a [string];
    - a Python [dict] is an association list in insertion order, written
      through [dict_set] (an existing key keeps its place and takes the new
      value) and read through [dict_get];
    - an [int] is a [Z]; a [float] is the rational it denotes, a [Q], and
      the operations that produce one ([/] on two [int], [round]) round to
      the nearest binary64 value or raise ([to_double]);
    - [None] in an optional field is [None] of [option];
    - a list that a function extends in place ([all_backward_paths], [hops])
      is threaded through the function as an argument and a result;
    - the recursion depth of [_find_paths_recursive] is an explicit [nat]. *)

From Stdlib Require Import List String Ascii Bool Arith ZArith QArith Qabs Lia.
From Stdlib Require Import Permutation.
Import ListNotations.

Set Warnings "-register-all".

Open Scope string_scope.
Open Scope nat_scope.
Open Scope list_scope.

(* ================================================================== *)
(** * Python dictionaries                                              *)
(* ================================================================== *)

Module PyDict.
Section Dict.
Context {K V : Type}.
Variable keq : K -> K -> bool.

Definition pydict : Type := list (K * V).

(** [d.get(k)] *)
Fixpoint dict_get (d : pydict) (k : K) : option V :=
match d with
| [] => None
| (k', v) :: d' => if keq k' k then Some v else dict_get d' k
end.

(** [d.get(k, default)] *)
Definition dict_get_default (d : pydict) (k : K) (default : V) : V :=
match dict_get d k with
| Some v => v
| None => default
end.

(** [k in d] *)
Definition dict_mem (d : pydict) (k : K) : bool :=
match dict_get d k with
| Some _ => true
| None => false
end.

(** [d[k] = v]: a key already present keeps its position. *)
Fixpoint dict_set (d : pydict) (k : K) (v : V) : pydict :=
match d with
| [] => [(k, v)]
| (k', v') :: d' =>
    if keq k' k then (k', v) :: d' else (k', v') :: dict_set d' k v
end.

Definition dict_keys (d : pydict) : list K := map fst d.
Definition dict_values (d : pydict) : list V := map snd d.
End Dict.
End PyDict.
Import PyDict.

(** [x in l] for a list of strings. *)
Fixpoint str_in (x : string) (l : list string) : bool :=
  match l with
  | [] => false
  | y :: l' => String.eqb y x || str_in x l'
  end.

(** Keys of [edge_dict]: ordered pairs of ids. *)
Definition pair_eqb (a b : string * string) : bool :=
  String.eqb (fst a) (fst b) && String.eqb (snd a) (snd b).

(* ================================================================== *)
(** * The graph document (the JSON written by [extract_dot_nodes.py])  *)
(* ================================================================== *)

Module GraphInfo.

Record node : Type := mk_node {
  ID : string;
  Label : string;
  Type' : string;
  Target : list string;
  Source : list string;
  centrality : option Q
}.

(** [cost] and [stealth] are the integers that [parse_dot] writes, or
    [None]. *)
Record edge : Type := mk_edge {
  source : string;
  target : string;
  type : string;
  cost : option Z;
  stealth : option Z
}.

Record graph_info : Type := mk_graph_info {
  nodes : list node;
  edges : list edge
}.

End GraphInfo.
Import GraphInfo.

(* ================================================================== *)
(** * SearchPath.py                                                    *)
(* ================================================================== *)

Module SearchPath.

(** The tree dictionaries [{'id': ..., 'children': [...]}]. *)
Inductive tree : Type :=
| Tree (id : string) (children : list tree).

Definition tree_id (t : tree) : string :=
  match t with Tree i _ => i end.
Definition tree_children (t : tree) : list tree :=
  match t with Tree _ c => c end.

(** The multi-dimensional lists of [get_paths_as_lists]: an item is a node
    id or again a list. *)
Inductive nested : Type :=
| Atom (s : string)
| NList (l : list nested).

Record DirectedGraphPathFinder : Type := mk_finder {
  self_nodes : list node;
  self_edges : list edge;
  nodes_info : pydict (K := string) (V := node);
  predecessors_map : pydict (K := string) (V := list string)
}.

(** [pred_map[target].append(source)] on a [defaultdict(list)]. *)
Definition pred_map_append (pred_map : pydict) (tgt src : string)
  : pydict (K := string) (V := list string) :=
  dict_set String.eqb pred_map tgt
           (dict_get_default String.eqb pred_map tgt [] ++ [src]).

(** A string is falsy when it is empty. *)
Definition truthy (s : string) : bool :=
  match s with EmptyString => false | _ => true end.

Definition _build_predecessor_map (es : list edge)
  : pydict (K := string) (V := list string) :=
  fold_left
    (fun pred_map e =>
       if truthy (source e) && truthy (target e)
       then pred_map_append pred_map (target e) (source e)
       else pred_map)
    es [].

(** [__init__], from the loaded document. *)
Definition init (data : graph_info) : DirectedGraphPathFinder :=
  {| self_nodes := nodes data;
     self_edges := edges data;
     nodes_info :=
       fold_left (fun d n => dict_set String.eqb d (ID n) n) (nodes data) [];
     predecessors_map := _build_predecessor_map (edges data) |}.

Section Finder.
Variable self : DirectedGraphPathFinder.

(** [self.nodes_info.get(node_id, {}).get('Type') == 'AND'] *)
Definition type_is_AND (node_id : string) : bool :=
  match dict_get String.eqb (nodes_info self) node_id with
  | Some n => String.eqb (Type' n) "AND"
  | None => false
  end.

Definition predecessors_of (node_id : string) : list string :=
  dict_get_default String.eqb (predecessors_map self) node_id [].

(** A [for] loop whose body may exhaust the recursion depth. *)
Definition for_each {A S : Type} (l : list A) (body : A -> S -> option S)
           (s : S) : option S :=
  fold_left (fun st x => match st with
                         | Some s' => body x s'
                         | None => None
                         end) l (Some s).

(** [depth] is the number of nested calls still allowed; [None] is a
    search cut short for lack of depth. The result is the list
    [all_backward_paths] after the call. *)
Fixpoint _find_paths_recursive (depth : nat) (current_node_id : string)
         (path_from_target : list string)
         (all_backward_paths : list (list string))
  : option (list (list string)) :=
  match depth with
  | O => None
  | S depth' =>
    if str_in current_node_id path_from_target
    then Some (all_backward_paths ++ [path_from_target])
    else
      let new_path_from_target := current_node_id :: path_from_target in
      let predecessors := predecessors_of current_node_id in
      match predecessors with
      | [] => Some (all_backward_paths ++ [new_path_from_target])
      | pred0 :: _ =>
        let is_and_case :=
            (List.length predecessors =? 1) && type_is_AND pred0 in
        if is_and_case then
          let and_node_id := pred0 in
          let path_with_and_node := and_node_id :: new_path_from_target in
          let and_inputs := predecessors_of and_node_id in
          match and_inputs with
          | [] => Some (all_backward_paths ++ [path_with_and_node])
          | _ =>
            for_each and_inputs
              (fun input_id acc =>
                 _find_paths_recursive depth' input_id
                                       path_with_and_node acc)
              all_backward_paths
          end
        else
          for_each predecessors
            (fun pred_id acc =>
               _find_paths_recursive depth' pred_id
                                     new_path_from_target acc)
            all_backward_paths
      end
  end.

(** The distinct node ids of the graph: declared nodes and edge ends. *)
Definition graph_ids : list string :=
  nodup string_dec
        (map ID (self_nodes self)
         ++ map source (self_edges self)
         ++ map target (self_edges self)).

(** A depth that every search fits in: one more than the number of ids. *)
Definition depth_bound : nat := S (List.length graph_ids).

Definition find_all_paths_to_target (target_node_id : string)
  : list (list string) :=
  if negb (dict_mem String.eqb (nodes_info self) target_node_id)
  then []
  else
    (* The search returns within [depth_bound], so the second branch is
       never taken (lemma [find_all_paths_to_target_search]). *)
    match _find_paths_recursive depth_bound target_node_id [] [] with
    | Some backward_paths => map (@rev string) backward_paths
    | None => []
    end.

(** Insert the ids [path] below a list of sibling trees: an existing
    child with the same id is reused, otherwise a child is appended. *)
Fixpoint insert_path (path : list string) (siblings : list tree)
  : list tree :=
  match path with
  | [] => siblings
  | node_id :: rest =>
    (fix walk (cs : list tree) : list tree :=
       match cs with
       | [] => [Tree node_id (insert_path rest [])]
       | c :: cs' =>
         if String.eqb (tree_id c) node_id
         then Tree (tree_id c) (insert_path rest (tree_children c)) :: cs'
         else c :: walk cs'
       end) siblings
  end.

(** [root_map] holds the very roots of [forest], one per start id, so
    looking a start id up in it is finding the root with that id. *)
Definition _build_forest_from_paths (paths : list (list string))
  : list tree :=
  fold_left (fun forest path =>
               match path with
               | [] => forest
               | _ :: _ => insert_path path forest
               end) paths [].

Fixpoint _split_tree_at_or_nodes (node : tree) : list tree :=
  match node with
  | Tree id children =>
    match children with
    | [] => [node]
    | _ :: _ =>
      if type_is_AND id
      then [Tree id (flat_map _split_tree_at_or_nodes children)]
      else map (fun sub_tree => Tree id [sub_tree])
               (flat_map _split_tree_at_or_nodes children)
    end
  end.

(** The result is always a Python list; its items are returned. *)
Fixpoint _convert_tree_to_list (node : tree) : list nested :=
  match node with
  | Tree node_id children =>
    match children with
    | [] => [Atom node_id]
    | child0 :: _ =>
      if type_is_AND node_id
      then [Atom node_id;
            NList (map (fun child => NList (_convert_tree_to_list child))
                       children)]
      else Atom node_id :: _convert_tree_to_list child0
    end
  end.

(** [[reverse_nested_list(item) for item in reversed(lst)]]: mapping
    over the reversed list is reversing the mapped list. *)
Fixpoint reverse_nested_list (lst : nested) : nested :=
  match lst with
  | NList l => NList (rev (map reverse_nested_list l))
  | Atom s => Atom s
  end.

Definition get_paths_as_lists (target_id : string) : list nested :=
  let all_linear_paths := find_all_paths_to_target target_id in
  match all_linear_paths with
  | [] => []
  | _ :: _ =>
    let merged_forest := _build_forest_from_paths all_linear_paths in
    let final_trees := flat_map _split_tree_at_or_nodes merged_forest in
    map (fun tree_root =>
           reverse_nested_list (NList (_convert_tree_to_list tree_root)))
        final_trees
  end.

Definition get_edge_info (source_id target_id : string) : option edge :=
  find (fun e => String.eqb (source e) source_id
                 && String.eqb (target e) target_id)
       (self_edges self).
End Finder.

End SearchPath.
Import SearchPath.

(* ================================================================== *)
(** * CalculateScore.py                                                *)
(* ================================================================== *)

Module CalculateScore.

(** A call returns its value or raises: [TypeError] (a list used as part
    of a dictionary key: [unhashable type: 'list']), [OverflowError] (an
    integer quotient, or a rounded value, beyond the largest float) or
    [ZeroDivisionError]. *)
Inductive result (A : Type) : Type :=
| Ok (a : A)
| TypeError
| OverflowError
| ZeroDivisionError.
Arguments Ok {A} a.
Arguments TypeError {A}.
Arguments OverflowError {A}.
Arguments ZeroDivisionError {A}.

Definition bind {A B : Type} (r : result A) (k : A -> result B) : result B :=
  match r with
  | Ok a => k a
  | TypeError => TypeError
  | OverflowError => OverflowError
  | ZeroDivisionError => ZeroDivisionError
  end.

Notation "x <- r ;; k" := (bind r (fun x => k))
  (at level 61, r at next level, right associativity).

Definition node_dict_t : Type := pydict (K := string) (V := node).
Definition edge_dict_t : Type := pydict (K := string * string) (V := edge).

Definition load_graph_info (data : graph_info) : node_dict_t * edge_dict_t :=
  (fold_left (fun d n => dict_set String.eqb d (ID n) n) (nodes data) [],
   fold_left (fun d e => dict_set pair_eqb d (source e, target e) e)
             (edges data) []).

(** [isinstance(x, list)] *)
Definition is_list (x : nested) : bool :=
  match x with
  | NList _ => true
  | Atom _ => false
  end.

(** [==] on items of a nested list. *)
Fixpoint nested_eqb (a b : nested) : bool :=
  match a, b with
  | Atom s, Atom t => String.eqb s t
  | NList l, NList m =>
    (fix all2 (l m : list nested) : bool :=
       match l, m with
       | [], [] => true
       | x :: l', y :: m' => nested_eqb x y && all2 l' m'
       | _, _ => false
       end) l m
  | _, _ => false
  end.

Fixpoint get_first_nodes (path : nested) : list string :=
  match path with
  | NList l =>
    if forallb is_list l
    then flat_map get_first_nodes l
    else match l with
         | [] => []
         | node :: _ =>
           match node with
           | NList _ => get_first_nodes node
           | Atom s => [s]
           end
         end
  | Atom s => [s]
  end.

(** What [extract_hops] returns: one node, or a flat list of nodes. *)
Inductive ends : Type :=
| End1 (n : string)
| Ends (l : list string).

(** [branch_ends if isinstance(branch_ends, list) else [branch_ends]] *)
Definition ends_list (e : ends) : list string :=
  match e with
  | End1 n => [n]
  | Ends l => l
  end.

(** A hop [(src, dst)]. The source can be the list that the loop of
    [extract_hops] keeps in [prev] after a branch item. *)
Definition hop : Type := nested * string.

(** The hops that a branch item contributes: [bridge_in] from [prev] to
    the first nodes of the branch, [bridge_out] from the branch ends to
    the item after it. *)
Definition bridge_in (prev : option nested) (branch_firsts : list string)
  : list hop :=
  match prev with
  | Some p => map (fun b => (p, b)) branch_firsts
  | None => []
  end.

Definition bridge_out (branch_ends : ends) (next_node : option nested)
  : list hop :=
  match next_node with
  | Some nn =>
    flat_map (fun e =>
                match nn with
                | NList _ => map (fun b => (Atom e, b)) (get_first_nodes nn)
                | Atom s => [(Atom e, s)]
                end) (ends_list branch_ends)
  | None => []
  end.

Definition step_hop (prev : option nested) (node : nested) (s : string)
  : list hop :=
  match prev with
  | Some p => if nested_eqb p node then [] else [(p, s)]
  | None => []
  end.

(** The [while] loop of [extract_hops] over the items of a list that has a
    node among its items; [rec] is the recursive call
    [extract_hops(node, parent=None, hops=hops)]. The result pairs the ends
    that the function returns after the loop with the hops appended.
    The ends of a list whose last item is a list are those of that item:
    the source computes them by a second call on [path[-1]] with a fresh
    [hops], which returns what the call made in the loop returned. *)
Definition hops_loop (rec : nested -> ends * list hop)
  : list nested -> option nested -> ends * list hop :=
  fix loop (items : list nested) (prev : option nested) : ends * list hop :=
    match items with
    | [] => (Ends [], [])
    | node :: rest =>
      let next_node := hd_error rest in
      match node with
      | NList _ =>
        let branch_firsts := get_first_nodes node in
        let '(branch_ends, inner) := rec node in
        let here := bridge_in prev branch_firsts ++ inner
                    ++ bridge_out branch_ends next_node in
        match rest with
        | [] => (branch_ends, here)
        | _ :: _ =>
          let '(e, later) := loop rest next_node in (e, here ++ later)
        end
      | Atom s =>
        let here := step_hop prev node s in
        match rest with
        | [] => (End1 s, here)
        | _ :: _ =>
          let '(e, later) := loop rest (Some node) in (e, here ++ later)
        end
      end
    end.

(** The result pairs the returned ends with the hops appended to [hops]. *)
Fixpoint extract_hops (path : nested) (parent : option nested)
  : ends * list hop :=
  match path with
  | Atom s => (End1 s, [])
  | NList l =>
    if forallb is_list l
    then
      let branch_results := map (fun branch => extract_hops branch None) l in
      (Ends (flat_map (fun r => ends_list (fst r)) branch_results),
       flat_map snd branch_results)
    else hops_loop (fun node => extract_hops node None) l parent
  end.

(** [edge_dict.get((src, dst), None)] *)
Definition edge_dict_get (edge_dict : edge_dict_t) (h : hop)
  : result (option edge) :=
  match fst h with
  | Atom src => Ok (dict_get pair_eqb edge_dict (src, snd h))
  | NList _ => TypeError
  end.

Definition calc_path_cost (path : nested) (node_dict : node_dict_t)
           (edge_dict : edge_dict_t) (parent : option nested) : result Z :=
  let hops := snd (extract_hops path None) in
  fold_left
    (fun acc h =>
       total_cost <- acc ;;
       e <- edge_dict_get edge_dict h ;;
       match e with
       | Some edge =>
         match cost edge with
         | Some c => Ok (total_cost + c)%Z
         | None => Ok total_cost
         end
       | None => Ok total_cost
       end)
    hops (Ok 0%Z).

(** ** Floats

    A finite [float] (IEEE 754 binary64) is the rational it denotes: a
    number [m * 2^u] with [|m| <= 2^53] and [-1074 <= u <= 971]. The two
    zeros are one value; infinities and NaN do not arise, the operations
    below raise instead. *)

(** To the nearest integer, a tie to the even one. *)
Definition round_half_even (q : Q) : Z :=
  let n := Qnum q in
  let d := Zpos (Qden q) in
  let fl := (n / d)%Z in
  let r := (n mod d)%Z in
  if (2 * r <? d)%Z then fl
  else if (d <? 2 * r)%Z then (fl + 1)%Z
  else if Z.even fl then fl else (fl + 1)%Z.

(** [2^e] for [0 <= e], 1 below. *)
Definition pow2 (e : Z) : Z := (2 ^ Z.max 0 e)%Z.

(** [q / 2^u] *)
Definition scaled (q : Q) (u : Z) : Q :=
  (Qnum q * pow2 (- u)) # (Qden q * Z.to_pos (pow2 u)).

(** The [e] with [2^e <= |q| < 2^(e+1)], for [q] other than 0. *)
Definition floor_log2 (q : Q) : Z :=
  let a := Z.abs (Qnum q) in
  let d := Zpos (Qden q) in
  let e0 := (Z.log2 a - Z.log2 d)%Z in
  if (a * pow2 (- e0) <? d * pow2 e0)%Z then (e0 - 1)%Z else e0.

(** The float nearest to [q], a tie to the even significand: 53 bits of
    [q] are kept, fewer below [2^-1022]; there is none when the rounded
    value reaches [2^1024]. *)
Definition to_double (q : Q) : option Q :=
  if (Qnum q =? 0)%Z then Some 0%Q
  else
    let u := Z.max (floor_log2 q - 52) (-1074) in
    let m := round_half_even (scaled q u) in
    if (0 <=? u)%Z && (2 ^ 1024 <=? Z.abs m * pow2 u)%Z then None
    else Some (Qred ((m * pow2 u) # Z.to_pos (pow2 (- u)))).

(** [a / b] on two [int]: the float nearest to the quotient. *)
Definition true_div (a b : Z) : result Q :=
  if (b =? 0)%Z then ZeroDivisionError
  else
    match to_double ((a * Z.sgn b) # Z.to_pos (Z.abs b)) with
    | Some x => Ok x
    | None => OverflowError
    end.

(** [round(x, 3)] on a float: the decimal with three places nearest to
    [x], a tie to the even one, and then the float nearest to that
    decimal. *)
Definition py_round3 (x : Q) : result Q :=
  match to_double (round_half_even (x * 1000) # 1000) with
  | Some r => Ok r
  | None => OverflowError
  end.

(** [sum(values)] *)
Definition py_sum (values : list Z) : Z := fold_left Z.add values 0%Z.

Definition calc_path_stealth (path : nested) (node_dict : node_dict_t)
           (edge_dict : edge_dict_t) (parent : option nested)
  : result (option Q) :=
  let hops := snd (extract_hops path None) in
  stealth_values <-
    fold_left
      (fun acc h =>
         values <- acc ;;
         e <- edge_dict_get edge_dict h ;;
         match e with
         | Some edge =>
           match stealth edge with
           | Some st => Ok (values ++ [st])
           | None => Ok values
           end
         | None => Ok values
         end)
      hops (Ok []) ;;
  match stealth_values with
  | [] => Ok None
  | _ :: _ =>
    quotient <- true_div (py_sum stealth_values)
                         (Z.of_nat (List.length stealth_values)) ;;
    rounded <- py_round3 quotient ;;
    Ok (Some rounded)
  end.

(** [max(xs, default=0)] *)
Definition max_default0 (xs : list Z) : Z :=
  match xs with
  | [] => 0%Z
  | x :: xs' => fold_left Z.max xs' x
  end.

Fixpoint _count_nodes (p : nested) : Z :=
  match p with
  | NList l =>
    if forallb is_list l
    then max_default0 (map _count_nodes l)
    else fold_left Z.add (map _count_nodes l) 0%Z
  | Atom _ => 1%Z
  end.

Fixpoint _count_logic_nodes (p : nested) : Z :=
  match p with
  | NList l => fold_left Z.add (map _count_logic_nodes l) 0%Z
  | Atom s => if String.prefix "LOGIC_" s then 1%Z else 0%Z
  end.

Definition calc_path_length (path : nested) (node_dict : node_dict_t)
           (edge_dict : edge_dict_t) (parent : option nested) : Z :=
  let total_nodes := _count_nodes path in
  let logic_nodes := _count_logic_nodes path in
  (total_nodes - logic_nodes - 1)%Z.

Fixpoint extract_all_nodes_and_centrality (path : nested)
         (node_dict : node_dict_t) : list (string * option Q) :=
  match path with
  | NList l =>
    flat_map (fun item => extract_all_nodes_and_centrality item node_dict) l
  | Atom p =>
    [(p, match dict_get String.eqb node_dict p with
         | Some n => centrality n
         | None => None
         end)]
  end.

(** [max] keeps the first of the greatest values. *)
Definition py_max (x : Q) (xs : list Q) : Q :=
  fold_left (fun best y => if Qle_bool y best then best else y) xs x.

Definition calc_path_centrality (path : nested) (node_dict : node_dict_t)
           (edge_dict : edge_dict_t) (parent : option nested) : option Q :=
  let nodes_with_centrality :=
      extract_all_nodes_and_centrality path node_dict in
  let centrality_values :=
      flat_map (fun nc => match snd nc with
                          | Some c => [c]
                          | None => []
                          end) nodes_with_centrality in
  match centrality_values with
  | [] => None
  | c :: cs => Some (py_max c cs)
  end.

(** The first component stands for [str(path)], the printed path. *)
Definition analyze_path (path : nested) (node_dict : node_dict_t)
           (edge_dict : edge_dict_t) (parent : option nested)
  : result (nested * Z * option Q * Z * option Q) :=
  total_cost <- calc_path_cost path node_dict edge_dict parent ;;
  avg_stealth <- calc_path_stealth path node_dict edge_dict parent ;;
  let path_length := calc_path_length path node_dict edge_dict parent in
  let path_centrality :=
      calc_path_centrality path node_dict edge_dict parent in
  Ok (path, total_cost, avg_stealth, path_length, path_centrality).

(** Steps 1 to 3 of [main]: every path to the target with its metrics. *)
Definition score_paths (data : graph_info) (target_id : string)
  : list (result (nested * Z * option Q * Z * option Q)) :=
  let '(node_dict, edge_dict) := load_graph_info data in
  let finder := init data in
  let all_paths := get_paths_as_lists finder target_id in
  map (fun path => analyze_path path node_dict edge_dict None) all_paths.

End CalculateScore.
Import CalculateScore.

(* ================================================================== *)
(** * extract_dot_nodes.py                                             *)
(* ================================================================== *)

Module ExtractDotNodes.

Definition code (c : ascii) : nat := nat_of_ascii c.

Definition between (lo hi n : nat) : bool := (lo <=? n) && (n <=? hi).

(** White space of [str.strip] and of [\s]: tab to carriage return, the
    separators 28 to 31, the space, and in Latin-1 NEL and NBSP. *)
Definition is_space (c : ascii) : bool :=
  let n := code c in
  between 9 13 n || between 28 31 n || (n =? 32) || (n =? 133) || (n =? 160).

(** The class [[A-Za-z0-9_]]. *)
Definition is_id_char (c : ascii) : bool :=
  let n := code c in
  between 65 90 n || between 97 122 n || between 48 57 n || (n =? 95).

(** The double quote. *)
Definition dquote : ascii := ascii_of_nat 34.
Definition is_dquote (c : ascii) : bool := code c =? 34.

Fixpoint lstrip (s : string) : string :=
  match s with
  | EmptyString => EmptyString
  | String c s' => if is_space c then lstrip s' else s
  end.

Fixpoint rstrip (s : string) : string :=
  match s with
  | EmptyString => EmptyString
  | String c s' =>
    match rstrip s' with
    | EmptyString => if is_space c then EmptyString else String c EmptyString
    | r => String c r
    end
  end.

Definition strip (s : string) : string := rstrip (lstrip s).

Definition startswith (s p : string) : bool := String.prefix p s.

(** [sub in s] *)
Fixpoint contains (sub s : string) : bool :=
  String.prefix sub s
  || match s with
     | EmptyString => false
     | String _ s' => contains sub s'
     end.

(** The longest prefix of characters of a class, and the rest. *)
Fixpoint span (p : ascii -> bool) (s : string) : string * string :=
  match s with
  | EmptyString => (EmptyString, EmptyString)
  | String c s' =>
    if p c
    then let '(a, b) := span p s' in (String c a, b)
    else (EmptyString, s)
  end.

(** [s] without the prefix [p], when it starts with it. *)
Fixpoint drop_prefix (p s : string) : option string :=
  match p with
  | EmptyString => Some s
  | String a p' =>
    match s with
    | EmptyString => None
    | String b s' => if Ascii.eqb a b then drop_prefix p' s' else None
    end
  end.

Definition nonempty (s : string) : bool :=
  match s with EmptyString => false | _ => true end.

(** [^\s*([A-Za-z0-9_]+)\s*->\s*([A-Za-z0-9_]+)]: the classes that meet
    are disjoint, so the greedy match is the only one. *)
Definition edge_pattern (line : string) : option (string * string) :=
  let '(src, r1) := span is_id_char (lstrip line) in
  if nonempty src then
    match drop_prefix "->" (lstrip r1) with
    | Some r2 =>
      let '(tgt, _) := span is_id_char (lstrip r2) in
      if nonempty tgt then Some (src, tgt) else None
    | None => None
    end
  else None.

(** The text [[label=] that follows the id and optional white space. *)
Definition after_label (r : string) : option string :=
  drop_prefix "[label=" (lstrip r).

(** The patterns of the channel, action and trigger lines: the prefix
    [pfx] and one or more id characters (the id), optional white space,
    the text [[label=], a double quote, one or more characters other than
    a double quote (the label), a double quote. *)
Definition quoted_pattern (pfx line : string) : option (string * string) :=
  match drop_prefix pfx line with
  | Some r0 =>
    let '(name, r1) := span is_id_char r0 in
    if nonempty name then
      match after_label r1 with
      | Some (String q r2) =>
        if is_dquote q then
          let '(label, r3) := span (fun c => negb (is_dquote c)) r2 in
          match r3 with
          | String _ _ => if nonempty label
                          then Some ((pfx ++ name)%string, label) else None
          | EmptyString => None
          end
        else None
      | _ => None
      end
    else None
  | None => None
  end.

Definition ch_pattern : string -> option (string * string) :=
  quoted_pattern "CH_".
Definition a_pattern : string -> option (string * string) :=
  quoted_pattern "A_".
Definition t_pattern : string -> option (string * string) :=
  quoted_pattern "T_".

(** The class of the label of a logic line: any character but the double
    quote, the closing bracket and the space. *)
Definition is_logic_label_char (c : ascii) : bool :=
  negb (is_dquote c || (code c =? 93) || (code c =? 32)).

(** The pattern of the logic lines: [LOGIC_] and one or more id characters
    (the id), optional white space, the text [[label=], an optional double
    quote, one or more label characters (the label); the optional closing
    quote of the pattern always matches. When the optional opening quote
    is present the label cannot start at it, so taking it is the only
    match. *)
Definition logic_pattern (line : string) : option (string * string) :=
  match drop_prefix "LOGIC_" line with
  | Some r0 =>
    let '(name, r1) := span is_id_char r0 in
    if nonempty name then
      match after_label r1 with
      | Some r2 =>
        let r3 := match r2 with
                  | String q r => if is_dquote q then r else r2
                  | EmptyString => r2
                  end in
        let '(label, _) := span is_logic_label_char r3 in
        if nonempty label
        then Some (("LOGIC_" ++ name)%string, label) else None
      | None => None
      end
    else None
  | None => None
  end.

Definition nodes_t : Type := pydict (K := string) (V := node).

(** The type of a declared node, the empty string for any other id. *)
Definition type_of (nodes : nodes_t) (id : string) : string :=
  match dict_get String.eqb nodes id with
  | Some n => Type' n
  | None => EmptyString
  end.

(** The edge record of an edge line, from the nodes declared so far. *)
Definition make_edge (nodes : nodes_t) (src tgt : string) : edge :=
  if startswith src "LOGIC_"
  then mk_edge src tgt "explicit" (Some 1%Z) (Some 1%Z)
  else if startswith tgt "LOGIC_"
  then mk_edge src tgt "explicit" None None
  else
    let src_type := type_of nodes src in
    let tgt_type := type_of nodes tgt in
    if String.eqb "physical_channel" src_type
       || String.eqb "physical_channel" tgt_type
    then mk_edge src tgt "physical_implicit" (Some 5%Z) (Some 3%Z)
    else if String.eqb "system_channel" src_type
            || String.eqb "system_channel" tgt_type
    then mk_edge src tgt "system_implicit" (Some 3%Z) (Some 2%Z)
    else mk_edge src tgt "explicit" (Some 1%Z) (Some 1%Z).

(** The id, label and type of a node line. *)
Definition match_node (line : string) : option (string * string * string) :=
  if startswith line "CH_" then
    match ch_pattern line with
    | Some (node_id, label) =>
      Some (node_id, label,
            if contains "[Physical]" label then "physical_channel"
            else if contains "[System]" label then "system_channel"
            else "channel")
    | None => None
    end
  else if startswith line "A_" then
    match a_pattern line with
    | Some (node_id, label) => Some (node_id, label, "action")
    | None => None
    end
  else if startswith line "T_" then
    match t_pattern line with
    | Some (node_id, label) => Some (node_id, label, "trigger")
    | None => None
    end
  else if startswith line "LOGIC_" then
    match logic_pattern line with
    | Some (node_id, label) =>
      Some (node_id, label,
            if contains "AND" node_id then "AND"
            else if contains "OR" node_id then "OR"
            else "logic")
    | None => None
    end
  else None.

(** One turn of the loop over the lines. *)
Definition read_line (st : nodes_t * list edge) (raw : string)
  : nodes_t * list edge :=
  let '(nodes, edges) := st in
  let line := strip raw in
  if negb (startswith line "CH_" || startswith line "A_"
           || startswith line "T_" || startswith line "LOGIC_"
           || contains "->" line)
  then st
  else if contains "->" line then
    match edge_pattern line with
    | Some (src, tgt) => (nodes, edges ++ [make_edge nodes src tgt])
    | None => st
    end
  else
    match match_node line with
    | Some (node_id, label, node_type) =>
      (dict_set String.eqb nodes node_id
                (mk_node node_id label node_type [] [] (Some 0%Q)),
       edges)
    | None => st
    end.

(** [nodes[k][...]] changed in place, for a key known to be present. *)
Fixpoint dict_update (d : nodes_t) (k : string) (f : node -> node)
  : nodes_t :=
  match d with
  | [] => []
  | (k', v) :: d' =>
    if String.eqb k' k then (k', f v) :: d' else (k', v) :: dict_update d' k f
  end.

Definition append_Target (tgt : string) (n : node) : node :=
  mk_node (ID n) (Label n) (Type' n) (Target n ++ [tgt]) (Source n)
          (centrality n).
Definition append_Source (src : string) (n : node) : node :=
  mk_node (ID n) (Label n) (Type' n) (Target n) (Source n ++ [src])
          (centrality n).
Definition set_centrality (c : Q) (n : node) : node :=
  mk_node (ID n) (Label n) (Type' n) (Target n) (Source n) (Some c).

Definition link_nodes (nodes : nodes_t) (edges : list edge) : nodes_t :=
  fold_left
    (fun nodes e =>
       let nodes1 :=
           if dict_mem String.eqb nodes (source e)
           then dict_update nodes (source e) (append_Target (target e))
           else nodes in
       if dict_mem String.eqb nodes1 (target e)
       then dict_update nodes1 (target e) (append_Source (source e))
       else nodes1)
    edges nodes.

Definition is_channel_type (t : string) : bool :=
  String.eqb t "physical_channel" || String.eqb t "system_channel"
  || String.eqb t "channel".

Definition pair_dec (a b : string * string) : {a = b} + {a <> b}.
Proof. decide equality; apply string_dec. Defined.

Section Centrality.
(** [networkx.betweenness_centrality(_, normalized=True)], on the nodes
    and the edges of a directed graph: a value per node. *)
Variable betweenness_centrality :
  list string -> list (string * string) -> pydict (K := string) (V := Q).

(** [G.subgraph(non_and_nodes)] and its centrality. *)
Definition subgraph_centrality (nodes : nodes_t) (edges : list edge)
  : pydict (K := string) (V := Q) :=
  let non_and_nodes :=
      map fst (filter (fun kv => negb (String.eqb (Type' (snd kv)) "AND"))
                      nodes) in
  let kept :=
      filter (fun st => str_in (fst st) non_and_nodes
                        && str_in (snd st) non_and_nodes)
             (map (fun e => (source e, target e)) edges) in
  betweenness_centrality non_and_nodes (nodup pair_dec kept).

Definition assign_centrality (centrality : pydict (K := string) (V := Q))
           (kv : string * node) : string * node :=
  let '(node_id, n) := kv in
  if negb (String.eqb (Type' n) "AND") && negb (is_channel_type (Type' n))
  then (node_id,
        set_centrality (dict_get_default String.eqb centrality node_id 0%Q)
                       n)
  else (node_id, set_centrality 0%Q n).

(** [lines] are the lines of the DOT file. *)
Definition parse_dot (lines : list string) : graph_info :=
  let '(nodes0, edges) := fold_left read_line lines ([], []) in
  let nodes1 := link_nodes nodes0 edges in
  let centrality := subgraph_centrality nodes1 edges in
  let nodes2 := map (assign_centrality centrality) nodes1 in
  {| nodes := dict_values nodes2; edges := edges |}.
End Centrality.

End ExtractDotNodes.
Import ExtractDotNodes.


(* ================================================================== *)
(** * Notions of the specification and sample graphs                   *)
(* ================================================================== *)

(** No two list items follow each other. *)
Fixpoint no_adjacent_lists (l : list nested) : bool :=
  match l with
  | x :: l' =>
    match l' with
    | y :: _ => negb (is_list x && is_list y) && no_adjacent_lists l'
    | [] => true
    end
  | [] => true
  end.

(** A path structure: a list of branches, or a sequence in which a branch
    group is never directly followed by another branch group. Every list
    that [get_paths_as_lists] builds has this shape. *)
Fixpoint path_structure (p : nested) : bool :=
  match p with
  | Atom _ => true
  | NList l =>
    forallb path_structure l && (forallb is_list l || no_adjacent_lists l)
  end.

(** A tree without OR branch point: every node with two children or more
    has type AND. *)
Fixpoint no_or_branch (self : DirectedGraphPathFinder) (t : tree) : bool :=
  match t with
  | Tree id children =>
    (type_is_AND self id || (List.length children <=? 1))
    && forallb (no_or_branch self) children
  end.

(** The chain A -> B -> T, costs 5 and 3, stealth 3 and 2. *)
Definition chain_graph : graph_info :=
  {| nodes := [mk_node "A" "a" "trigger" ["B"] [] (Some 0%Q);
               mk_node "B" "b" "action" ["T"] ["A"] (Some 0%Q);
               mk_node "T" "t" "action" [] ["B"] (Some 0%Q)];
     edges := [mk_edge "A" "B" "physical_implicit" (Some 5%Z) (Some 3%Z);
               mk_edge "B" "T" "system_implicit" (Some 3%Z) (Some 2%Z)] |}.

(** The target T behind an AND gate [g] fed by P1 and by P2 -> Q. *)
Definition and_graph (g : string) : graph_info :=
  {| nodes := [mk_node "P1" "p1" "trigger" [g] [] (Some 0%Q);
               mk_node "P2" "p2" "trigger" ["Q"] [] (Some 0%Q);
               mk_node "Q" "q" "action" [g] ["P2"] (Some 0%Q);
               mk_node g "AND" "AND" ["T"] ["P1"; "Q"] (Some 0%Q);
               mk_node "T" "t" "action" [] [g] (Some 0%Q)];
     edges := [mk_edge "P1" g "explicit" None None;
               mk_edge "P2" "Q" "explicit" (Some 1%Z) (Some 1%Z);
               mk_edge "Q" g "explicit" None None;
               mk_edge g "T" "explicit" (Some 1%Z) (Some 1%Z)] |}.

(** The ids of [ids] that a path has not visited yet. *)
Definition unvisited (ids path : list string) : list string :=
  filter (fun x => negb (str_in x path)) ids.

(** Where a branch of the search ends inside the sequence [p]: at a node
    without predecessor, or at a node where a cycle was cut (one of its
    predecessors is already in the sequence). *)
Definition search_end (self : DirectedGraphPathFinder) (p : list string)
           (x : string) : Prop :=
  predecessors_of self x = []
  \/ exists y, In y (predecessors_of self x) /\ In y p.

(** A sequence in source-to-target order: it ends at the target and starts
    where a branch of the search ends. *)
Definition source_first (self : DirectedGraphPathFinder) (target_id : string)
           (p : list string) : Prop :=
  (exists front, p = front ++ [target_id])
  /\ exists first rest, p = first :: rest /\ search_end self p first.

(** A sequence in target-to-source order: it starts at the target and ends
    where a branch of the search ends. *)
Definition target_first (self : DirectedGraphPathFinder) (target_id : string)
           (p : list string) : Prop :=
  (exists rest, p = target_id :: rest)
  /\ exists front last, p = front ++ [last] /\ search_end self p last.

(** The hops of a path whose edge can be looked up: both ends are ids. *)
Definition hashable_hops (hops : list hop) : Prop :=
  Forall (fun h => is_list (fst h) = false) hops.

(** The stealth of the edge of a hop, when the edge exists and has one. *)
Definition hop_stealth (edge_dict : edge_dict_t) (h : hop) : option Z :=
  match fst h with
  | Atom src =>
    match dict_get pair_eqb edge_dict (src, snd h) with
    | Some e => stealth e
    | None => None
    end
  | NList _ => None
  end.

(** The stealth values over all hops whose edge has a defined stealth. *)
Definition defined_stealth (edge_dict : edge_dict_t) (hops : list hop)
  : list Z :=
  flat_map (fun h => match hop_stealth edge_dict h with
                     | Some v => [v]
                     | None => []
                     end) hops.

(** The cost of the edge of a hop, when the edge exists and has one. *)
Definition hop_cost (edge_dict : edge_dict_t) (h : hop) : option Z :=
  match fst h with
  | Atom src =>
    match dict_get pair_eqb edge_dict (src, snd h) with
    | Some e => cost e
    | None => None
    end
  | NList _ => None
  end.

(** The costs over all hops whose edge has a defined cost. *)
Definition defined_cost (edge_dict : edge_dict_t) (hops : list hop)
  : list Z :=
  flat_map (fun h => match hop_cost edge_dict h with
                     | Some c => [c]
                     | None => []
                     end) hops.

(** Four nodes in a row, the stealth of the three edges being 1, 1, 2. *)
Definition row_path : nested :=
  NList [Atom "A"; Atom "B"; Atom "C"; Atom "D"].

Definition row_edges : edge_dict_t :=
  snd (load_graph_info
         {| nodes := [];
            edges := [mk_edge "A" "B" "explicit" (Some 1%Z) (Some 1%Z);
                      mk_edge "B" "C" "explicit" (Some 1%Z) (Some 1%Z);
                      mk_edge "C" "D" "system_implicit" (Some 3%Z)
                              (Some 2%Z)] |}).

(** One edge whose stealth is beyond the range of the floats. *)
Definition huge_edges : edge_dict_t :=
  snd (load_graph_info
         {| nodes := [];
            edges := [mk_edge "A" "B" "explicit" (Some 1%Z)
                              (Some (10 ^ 400)%Z)] |}).

(** The arithmetic mean of a list of integers, as a rational. *)
Definition arithmetic_mean (values : list Z) : Q :=
  inject_Z (fold_right Z.add 0%Z values)
  / inject_Z (Z.of_nat (List.length values)).

(** The ordered pair that identifies an edge. *)
Definition edge_pair (e : edge) : string * string := (source e, target e).

(** The node types that [parse_dot] assigns. *)
Definition node_types : list string :=
  ["trigger"; "action"; "AND"; "OR";
   "physical_channel"; "system_channel"; "channel"; "logic"].

(** A DOT text that declares the edge from A_x to A_y twice. *)
Definition twice_declared : list string :=
  ["digraph G {"; "  A_x -> A_y;"; "  A_x -> A_y;"; "}"].

(** A DOT text with a trigger and a physical channel into an AND gate and
    the gate into an action, which feeds the channel. *)
Definition gate_text : list string :=
  let q := String dquote EmptyString in
  ["digraph G {";
   ("  CH_temp [label=" ++ q ++ "[Physical] temperature" ++ q ++ "];")%string;
   ("  A_Rule_1_0 [label=" ++ q ++ "open door" ++ q ++ ", shape=box];")%string;
   ("  T_Rule_1_0 [label=" ++ q ++ "motion" ++ q ++ "];")%string;
   "  LOGIC_AND_1 [label=AND];";
   "  T_Rule_1_0 -> LOGIC_AND_1;";
   "  CH_temp -> LOGIC_AND_1;";
   "  LOGIC_AND_1 -> A_Rule_1_0;";
   "  A_Rule_1_0 -> CH_temp;";
   "}"].

(** A centrality that gives every node of the subgraph the value 1. *)
Definition all_one (ns : list string) (es : list (string * string))
  : pydict (K := string) (V := Q) :=
  map (fun n => (n, 1%Q)) ns.

(** A centrality that gives no node a value. *)
(** The graph of [and_graph] as a DOT text: the target A_t has one
    predecessor, the AND gate LOGIC_AND_1, fed by the branch T_p1 and by
    the branch T_p2 -> A_q. *)
Definition and_gate_text : list string :=
  let q := String dquote EmptyString in
  ["digraph G {";
   ("  T_p1 [label=" ++ q ++ "p1" ++ q ++ "];")%string;
   ("  T_p2 [label=" ++ q ++ "p2" ++ q ++ "];")%string;
   ("  A_q [label=" ++ q ++ "q" ++ q ++ "];")%string;
   "  LOGIC_AND_1 [label=AND];";
   ("  A_t [label=" ++ q ++ "t" ++ q ++ "];")%string;
   "  T_p1 -> LOGIC_AND_1;";
   "  T_p2 -> A_q;";
   "  A_q -> LOGIC_AND_1;";
   "  LOGIC_AND_1 -> A_t;";
   "}"].

Definition no_value (ns : list string) (es : list (string * string))
  : pydict (K := string) (V := Q) := [].

(** The number of distinct node ids of a sequence. *)
Definition distinct (l : list string) : nat :=
  List.length (nodup string_dec l).

(** ** Induction over trees and nested lists *)

Section TreeInduction.
Variable P : tree -> Prop.
Hypothesis step : forall id children, Forall P children -> P (Tree id children).

Fixpoint tree_ind' (t : tree) : P t :=
  match t with
  | Tree id children =>
    step id children
         ((fix all (l : list tree) : Forall P l :=
             match l with
             | [] => Forall_nil P
             | c :: l' => Forall_cons c (tree_ind' c) (all l')
             end) children)
  end.
End TreeInduction.

Section NestedInduction.
Variable P : nested -> Prop.
Hypothesis atom_case : forall s, P (Atom s).
Hypothesis list_case : forall l, Forall P l -> P (NList l).

Fixpoint nested_ind' (p : nested) : P p :=
  match p with
  | Atom s => atom_case s
  | NList l =>
    list_case l
         ((fix all (l : list nested) : Forall P l :=
             match l with
             | [] => Forall_nil P
             | x :: l' => Forall_cons x (nested_ind' x) (all l')
             end) l)
  end.
End NestedInduction.

(** [get_node_info]: the node of an id; [None] stands for the empty
    dictionary returned for an unknown id. *)
Definition get_node_info (self : DirectedGraphPathFinder) (node_id : string)
  : option node :=
  dict_get String.eqb (nodes_info self) node_id.

(** The edges that [_build_predecessor_map] records: both ends non-empty. *)
Definition recorded (e : edge) : bool :=
  truthy (source e) && truthy (target e).

(** Every two neighbours [x], [y] of a list, in this order, satisfy [R]. *)
Fixpoint chain {A : Type} (R : A -> A -> Prop) (l : list A) : Prop :=
  match l with
  | x :: l' =>
    match l' with
    | y :: _ => R x y /\ chain R l'
    | [] => True
    end
  | [] => True
  end.

(** [path] can be followed from one of the [siblings] downwards. *)
Fixpoint has_path (path : list string) (siblings : list tree) : Prop :=
  match path with
  | [] => True
  | x :: rest =>
    exists c, In c siblings /\ tree_id c = x
              /\ has_path rest (tree_children c)
  end.

(** No two children of a node of the tree have the same id. *)
Fixpoint distinct_siblings (t : tree) : Prop :=
  match t with
  | Tree _ children =>
    NoDup (map tree_id children)
    /\ (fix all (l : list tree) : Prop :=
          match l with
          | [] => True
          | c :: l' => distinct_siblings c /\ all l'
          end) children
  end.

(** Every child in the tree is a predecessor of its parent in the graph. *)
Fixpoint children_are_predecessors (self : DirectedGraphPathFinder)
         (t : tree) : Prop :=
  match t with
  | Tree id children =>
    (fix all (l : list tree) : Prop :=
       match l with
       | [] => True
       | c :: l' =>
         In (tree_id c) (predecessors_of self id)
         /\ children_are_predecessors self c /\ all l'
       end) children
  end.

(** The hops of a row of nodes: its neighbours, but for equal ones. *)
Fixpoint adjacent_pairs (l : list string) : list hop :=
  match l with
  | a :: l' =>
    match l' with
    | b :: _ =>
      (if String.eqb a b then [] else [(Atom a, b)]) ++ adjacent_pairs l'
    | [] => []
    end
  | [] => []
  end.

(** The kinds of node records: the type of a node goes with the prefix of
    its id, and among the LOGIC_ nodes with the letters AND and OR in it. *)
Definition node_kind (id ty : string) : Prop :=
  (String.prefix "CH_" id = true
   /\ In ty ["physical_channel"; "system_channel"; "channel"])
  \/ (String.prefix "A_" id = true /\ ty = "action")
  \/ (String.prefix "T_" id = true /\ ty = "trigger")
  \/ (String.prefix "LOGIC_" id = true
      /\ ((ty = "AND" /\ contains "AND" id = true)
          \/ (ty = "OR" /\ contains "AND" id = false
              /\ contains "OR" id = true)
          \/ (ty = "logic" /\ contains "AND" id = false
              /\ contains "OR" id = false))).

(* ================================================================== *)
(** * Properties                                                       *)
(* ================================================================== *)

(** ** Dictionaries *)

Section DictFacts.
Context {K V : Type}.
Variable keq : K -> K -> bool.
Hypothesis keq_spec : forall a b, keq a b = true <-> a = b.

Lemma keq_refl : forall a, keq a a = true.
Proof. intro a. apply keq_spec. reflexivity. Qed.

Lemma dict_get_set (d : pydict (K := K) (V := V)) k v k' :
  dict_get keq (dict_set keq d k v) k' =
  if keq k k' then Some v else dict_get keq d k'.
Proof.
  induction d as [|[k0 v0] d IH]; simpl.
  - reflexivity.
  - destruct (keq k0 k) eqn:E0; simpl.
    + apply keq_spec in E0. subst k0.
      destruct (keq k k'); reflexivity.
    + rewrite IH. destruct (keq k0 k') eqn:E1; [|reflexivity].
      apply keq_spec in E1. subst k0.
      destruct (keq k k') eqn:E2; [|reflexivity].
      apply keq_spec in E2. subst k'. rewrite keq_refl in E0. discriminate.
Qed.

Lemma dict_keys_set (d : pydict (K := K) (V := V)) k v :
  dict_keys (dict_set keq d k v) =
  if dict_mem keq d k then dict_keys d else dict_keys d ++ [k].
Proof.
  unfold dict_mem, dict_keys.
  induction d as [|[k0 v0] d IH]; simpl.
  - reflexivity.
  - destruct (keq k0 k) eqn:E0; simpl.
    + reflexivity.
    + rewrite IH. destruct (dict_get keq d k); reflexivity.
Qed.

Lemma dict_mem_In (d : pydict (K := K) (V := V)) k :
  dict_mem keq d k = true <-> In k (dict_keys d).
Proof.
  unfold dict_mem, dict_keys.
  induction d as [|[k0 v0] d IH]; simpl.
  - split; [discriminate | tauto].
  - destruct (keq k0 k) eqn:E0.
    + apply keq_spec in E0. tauto.
    + split.
      * intro H. right. apply IH, H.
      * intros [H|H]; [|apply IH, H].
        apply keq_spec in H. congruence.
Qed.

(** Writing through [dict_set] keeps the keys pairwise distinct. *)
Lemma dict_set_NoDup (d : pydict (K := K) (V := V)) k v :
  NoDup (dict_keys d) -> NoDup (dict_keys (dict_set keq d k v)).
Proof.
  intro H. rewrite dict_keys_set.
  destruct (dict_mem keq d k) eqn:E; [exact H|].
  apply NoDup_app; [exact H | constructor; [simpl; tauto | constructor] |].
  intros x Hx [Hk|[]]. subst x.
  apply dict_mem_In in Hx. congruence.
Qed.
End DictFacts.

Lemma pair_eqb_spec (a b : string * string) : pair_eqb a b = true <-> a = b.
Proof.
  destruct a as [a1 a2], b as [b1 b2]. unfold pair_eqb. simpl.
  rewrite andb_true_iff, !String.eqb_eq.
  split; [intros [-> ->]; reflexivity | intro H; injection H; auto].
Qed.

(** ** The worked examples *)

(** C1: on the chain A -> B -> T (costs 5 and 3, stealth 3 and 2),
    [get_paths_as_lists] returns one path, its hops are (A,B) and (B,T),
    and its score has total cost 8, average stealth 2.5 and length 2. *)
Theorem chain_one_path_scored :
  get_paths_as_lists (init chain_graph) "T"
  = [NList [Atom "A"; Atom "B"; Atom "T"]]
  /\ map (fun p => snd (extract_hops p None))
         (get_paths_as_lists (init chain_graph) "T")
     = [[(Atom "A", "B"); (Atom "B", "T")]]
  /\ exists printed criticality,
      score_paths chain_graph "T"
      = [Ok (printed, 8%Z, Some (5 # 2), 2%Z, criticality)].
Proof.
  split; [vm_compute; reflexivity|].
  split; [vm_compute; reflexivity|].
  eexists; eexists. vm_compute. reflexivity.
Qed.

(** The target T whose only predecessor is the AND gate, fed by the branch
    P1 and by the branch P2 -> Q. With the gate id G, which no graph read
    from a DOT text has, the one path structure has length 3. *)
Lemma and_gate_length :
  forall node_dict edge_dict parent,
    map (fun p => calc_path_length p node_dict edge_dict parent)
        (get_paths_as_lists (init (and_graph "G")) "T")
    = [3%Z].
Proof. intros. vm_compute. reflexivity. Qed.

(** The same graph with the gate named as [parse_dot] names AND nodes: the
    gate counts as a logic node and the length is 2. *)
Lemma and_gate_length_logic_id :
  forall node_dict edge_dict parent,
    map (fun p => calc_path_length p node_dict edge_dict parent)
        (get_paths_as_lists (init (and_graph "LOGIC_AND_1")) "T")
    = [2%Z].
Proof. intros. vm_compute. reflexivity. Qed.

(** C3 as stated fails on the graph read from a DOT text. The gate is the
    node of type AND, its id starts with [LOGIC_] as the id of every AND
    node of [parse_dot] does, and the length of the one path structure is
    max(1,2) = 2, not 3. *)
Lemma parsed_and_gate_length_two :
  map (fun n => (ID n, Type' n))
      (nodes (parse_dot no_value and_gate_text))
  = [("T_p1", "trigger"); ("T_p2", "trigger"); ("A_q", "action");
     ("LOGIC_AND_1", "AND"); ("A_t", "action")]
  /\ map edge_pair (edges (parse_dot no_value and_gate_text))
     = [("T_p1", "LOGIC_AND_1"); ("T_p2", "A_q"); ("A_q", "LOGIC_AND_1");
        ("LOGIC_AND_1", "A_t")]
  /\ get_paths_as_lists (init (parse_dot no_value and_gate_text)) "A_t"
     = [NList [NList [NList [Atom "T_p2"; Atom "A_q"];
                      NList [Atom "T_p1"]];
               Atom "LOGIC_AND_1"; Atom "A_t"]]
  /\ map (fun p =>
            calc_path_length
              p
              (fst (load_graph_info (parse_dot no_value and_gate_text)))
              (snd (load_graph_info (parse_dot no_value and_gate_text)))
              None)
         (get_paths_as_lists (init (parse_dot no_value and_gate_text))
                             "A_t")
     = [2%Z]
  /\ [2%Z] <> [3%Z].
Proof.
  split; [vm_compute; reflexivity|].
  split; [vm_compute; reflexivity|].
  split; [vm_compute; reflexivity|].
  split; [vm_compute; reflexivity|].
  discriminate.
Qed.

(** ** Unknown target *)

Lemma nodes_info_mem (ns : list node) (d : pydict) (t : string) :
  dict_mem String.eqb
           (fold_left (fun d n => dict_set String.eqb d (ID n) n) ns d) t = true
  <-> dict_mem String.eqb d t = true \/ In t (map ID ns).
Proof.
  revert d. induction ns as [|n ns IH]; intro d; simpl.
  - tauto.
  - rewrite IH. unfold dict_mem at 1.
    rewrite (dict_get_set String.eqb String.eqb_eq).
    destruct (String.eqb (ID n) t) eqn:E.
    + apply String.eqb_eq in E. tauto.
    + apply String.eqb_neq in E. unfold dict_mem. tauto.
Qed.

Lemma unknown_target_no_search (self : DirectedGraphPathFinder) (t : string) :
  dict_mem String.eqb (nodes_info self) t = false ->
  find_all_paths_to_target self t = [] /\ get_paths_as_lists self t = [].
Proof.
  intro H. unfold get_paths_as_lists, find_all_paths_to_target.
  rewrite H. simpl. split; reflexivity.
Qed.

(** C8: for a target id that no node of the graph has,
    [find_all_paths_to_target] and [get_paths_as_lists] return the empty
    list; no step of either can raise. *)
Theorem unknown_target_empty (data : graph_info) (target_id : string) :
  ~ In target_id (map ID (nodes data)) ->
  find_all_paths_to_target (init data) target_id = []
  /\ get_paths_as_lists (init data) target_id = [].
Proof.
  intro H. apply unknown_target_no_search.
  destruct (dict_mem String.eqb (nodes_info (init data)) target_id) eqn:E;
    [|reflexivity].
  exfalso. apply H. unfold init in E. simpl in E.
  apply nodes_info_mem in E. destruct E as [E|E]; [discriminate E | exact E].
Qed.

Lemma unknown_target_empty_witness :
  find_all_paths_to_target (init chain_graph) "X" = []
  /\ get_paths_as_lists (init chain_graph) "X" = [].
Proof.
  apply (unknown_target_empty chain_graph "X").
  simpl. intros [H|[H|[H|[]]]]; discriminate H.
Defined.

(** ** Splitting *)

Lemma flat_map_singletons {A : Type} (f : A -> list A) (l : list A) :
  Forall (fun x => f x = [x]) l -> flat_map f l = l.
Proof.
  induction 1 as [|x l Hx _ IH]; simpl.
  - reflexivity.
  - rewrite Hx, IH. reflexivity.
Qed.

(** C6: a tree in which no node other than an AND node has more than one
    child is split into exactly one tree, the tree itself. *)
Theorem split_without_or_branch (self : DirectedGraphPathFinder) (t : tree) :
  no_or_branch self t = true ->
  _split_tree_at_or_nodes self t = [t].
Proof.
  induction t as [id children IH] using tree_ind'.
  intro H. simpl in H. apply andb_true_iff in H. destruct H as [Hnode Hsub].
  assert (Hflat : flat_map (_split_tree_at_or_nodes self) children = children).
  { apply flat_map_singletons.
    rewrite forallb_forall in Hsub. rewrite Forall_forall in IH |- *.
    intros c Hc. apply IH; auto. }
  destruct children as [|c cs]; [reflexivity|].
  cbn [_split_tree_at_or_nodes]. rewrite Hflat.
  destruct (type_is_AND self id); [reflexivity|].
  simpl in Hnode. destruct cs; [reflexivity | discriminate Hnode].
Qed.

Lemma split_without_or_branch_witness :
  _split_tree_at_or_nodes (init (and_graph "G"))
    (Tree "T" [Tree "G" [Tree "P1" []; Tree "Q" [Tree "P2" []]]])
  = [Tree "T" [Tree "G" [Tree "P1" []; Tree "Q" [Tree "P2" []]]]].
Proof.
  apply (split_without_or_branch (init (and_graph "G"))).
  vm_compute. reflexivity.
Defined.

(** ** Predecessor map *)

Lemma str_in_In (x : string) (l : list string) :
  str_in x l = true <-> In x l.
Proof.
  induction l as [|y l IH]; simpl.
  - split; [discriminate | tauto].
  - rewrite orb_true_iff, String.eqb_eq, IH. tauto.
Qed.

Lemma str_in_false (x : string) (l : list string) :
  str_in x l = false <-> ~ In x l.
Proof.
  rewrite <- str_in_In. destruct (str_in x l); split; congruence.
Qed.

Lemma pred_map_append_get (pm : pydict) (tgt src t : string) :
  dict_get_default String.eqb (pred_map_append pm tgt src) t [] =
  if String.eqb tgt t
  then dict_get_default String.eqb pm tgt [] ++ [src]
  else dict_get_default String.eqb pm t [].
Proof.
  unfold dict_get_default at 1. unfold pred_map_append.
  rewrite (dict_get_set String.eqb String.eqb_eq).
  destruct (String.eqb tgt t); reflexivity.
Qed.

(** Every recorded predecessor comes from an edge. *)
Lemma pred_map_from_edges (es : list edge) :
  forall (pm : pydict) (t s : string),
    In s (dict_get_default String.eqb
            (fold_left
               (fun pred_map e =>
                  if truthy (source e) && truthy (target e)
                  then pred_map_append pred_map (target e) (source e)
                  else pred_map) es pm) t []) ->
    In s (dict_get_default String.eqb pm t [])
    \/ exists e, In e es /\ source e = s /\ target e = t.
Proof.
  induction es as [|e es IH]; intros pm t s H; simpl in H.
  - left. exact H.
  - apply IH in H. destruct H as [H|[e' [He' Hst]]].
    + destruct (truthy (source e) && truthy (target e)).
      * rewrite pred_map_append_get in H.
        destruct (String.eqb (target e) t) eqn:E.
        -- apply String.eqb_eq in E. apply in_app_or in H.
           destruct H as [H|[H|[]]].
           ++ left. subst t. exact H.
           ++ right. exists e. simpl. auto.
        -- left. exact H.
      * left. exact H.
    + right. exists e'. simpl. tauto.
Qed.

Lemma predecessors_are_edges (data : graph_info) (t s : string) :
  In s (predecessors_of (init data) t) ->
  exists e, In e (edges data) /\ source e = s /\ target e = t.
Proof.
  unfold predecessors_of, init, _build_predecessor_map. simpl. intro H.
  apply pred_map_from_edges in H. destruct H as [H|H]; [|exact H].
  destruct H.
Qed.

Lemma predecessor_in_graph_ids (data : graph_info) (t s : string) :
  In s (predecessors_of (init data) t) ->
  In s (graph_ids (init data)) /\ In t (graph_ids (init data)).
Proof.
  intro H. apply predecessors_are_edges in H.
  destruct H as [e [He [Hs Ht]]].
  unfold graph_ids. rewrite !nodup_In. simpl. rewrite !in_app_iff.
  split.
  - right. left. subst s. apply in_map. exact He.
  - right. right. subst t. apply in_map. exact He.
Qed.

(** ** Termination of the reverse search *)

Lemma filter_length_le {A : Type} (f g : A -> bool) (l : list A) :
  (forall x, In x l -> f x = true -> g x = true) ->
  List.length (filter f l) <= List.length (filter g l).
Proof.
  induction l as [|a l IH]; intro H; simpl.
  - lia.
  - assert (IH' := IH (fun x Hx => H x (or_intror Hx))).
    destruct (f a) eqn:Ef.
    + rewrite (H a (or_introl eq_refl) Ef). simpl. lia.
    + destruct (g a); simpl; lia.
Qed.

Lemma filter_length_lt {A : Type} (f g : A -> bool) (l : list A) (x : A) :
  (forall y, In y l -> f y = true -> g y = true) ->
  In x l -> f x = false -> g x = true ->
  List.length (filter f l) < List.length (filter g l).
Proof.
  induction l as [|a l IH]; intros H Hx Hf Hg; simpl.
  - destruct Hx.
  - assert (Hle := filter_length_le f g l (fun y Hy => H y (or_intror Hy))).
    destruct Hx as [Hx|Hx].
    + subst a. rewrite Hf, Hg. simpl. lia.
    + assert (IH' := IH (fun y Hy => H y (or_intror Hy)) Hx Hf Hg).
      destruct (f a) eqn:Ef.
      * rewrite (H a (or_introl eq_refl) Ef). simpl. lia.
      * destruct (g a); simpl; lia.
Qed.

Lemma unvisited_cons_le (ids path : list string) (x : string) :
  List.length (unvisited ids (x :: path)) <= List.length (unvisited ids path).
Proof.
  apply filter_length_le. intros y _ H. simpl in H.
  rewrite negb_true_iff in *. apply orb_false_iff in H. tauto.
Qed.

Lemma unvisited_cons_lt (ids path : list string) (x : string) :
  In x ids -> str_in x path = false ->
  List.length (unvisited ids (x :: path)) < List.length (unvisited ids path).
Proof.
  intros Hx Hp. apply filter_length_lt with (x := x); auto.
  - intros y _ H. simpl in H.
    rewrite negb_true_iff in *. apply orb_false_iff in H. tauto.
  - simpl. rewrite String.eqb_refl. reflexivity.
  - rewrite Hp. reflexivity.
Qed.

Lemma unvisited_le (ids path : list string) :
  List.length (unvisited ids path) <= List.length ids.
Proof.
  unfold unvisited. induction ids as [|x ids IH]; simpl; [lia|].
  destruct (negb (str_in x path)); simpl; lia.
Qed.

Lemma for_each_returns {A S : Type} (l : list A) (body : A -> S -> option S) :
  (forall x s, In x l -> exists s', body x s = Some s') ->
  forall s, exists s', for_each l body s = Some s'.
Proof.
  unfold for_each. induction l as [|x l IH]; intros H s; simpl.
  - exists s. reflexivity.
  - destruct (H x s (or_introl eq_refl)) as [s1 H1]. rewrite H1.
    apply IH. intros y s2 Hy. apply H. right. exact Hy.
Qed.

Lemma for_each_emits {A : Type} (Q : list string -> Prop) (l : list A)
      (body : A -> list (list string) -> option (list (list string))) :
  (forall x s r, In x l -> body x s = Some r ->
                 exists e, r = s ++ e /\ Forall Q e) ->
  forall s r, for_each l body s = Some r ->
              exists e, r = s ++ e /\ Forall Q e.
Proof.
  unfold for_each. induction l as [|x l IH]; intros H s r Hr; simpl in Hr.
  - injection Hr as <-. exists []. rewrite app_nil_r. auto.
  - destruct (body x s) as [s1|] eqn:E.
    + destruct (H x s s1 (or_introl eq_refl) E) as [e1 [-> Q1]].
      apply IH in Hr; [|intros y s2 r2 Hy; apply H; right; exact Hy].
      destruct Hr as [e2 [-> Q2]].
      exists (e1 ++ e2). rewrite app_assoc. split; [reflexivity|].
      apply Forall_app. auto.
    + exfalso. clear -Hr. induction l as [|y l IHl]; simpl in Hr;
        [discriminate | auto].
Qed.

(** A call returns whenever its depth exceeds the number of ids that its
    path has not visited. *)
Lemma find_paths_returns (data : graph_info) :
  forall depth current path acc,
    List.length (unvisited (graph_ids (init data)) path) < depth ->
    exists result,
      _find_paths_recursive (init data) depth current path acc = Some result.
Proof.
  induction depth as [|depth IH]; intros current path acc Hd; [lia|].
  cbn [_find_paths_recursive].
  destruct (str_in current path) eqn:Hin; [eexists; reflexivity|].
  destruct (predecessors_of (init data) current) as [|pred0 preds] eqn:Hp;
    [eexists; reflexivity|].
  assert (Hcur : In current (graph_ids (init data))).
  { apply (predecessor_in_graph_ids data current pred0).
    rewrite Hp. left. reflexivity. }
  assert (Hnew : List.length (unvisited (graph_ids (init data))
                                        (current :: path)) < depth).
  { pose proof (unvisited_cons_lt _ _ _ Hcur Hin). lia. }
  destruct ((List.length (pred0 :: preds) =? 1) && type_is_AND (init data) pred0).
  - destruct (predecessors_of (init data) pred0) as [|i0 inputs] eqn:Hi;
      [eexists; reflexivity|].
    apply for_each_returns. intros x s _. apply IH.
    pose proof (unvisited_cons_le (graph_ids (init data))
                                  (current :: path) pred0). lia.
  - apply for_each_returns. intros x s _. apply IH. exact Hnew.
Qed.

Lemma distinct_cons_le (x : string) (l : list string) :
  distinct l <= distinct (x :: l).
Proof.
  unfold distinct. simpl. destruct (in_dec string_dec x l); simpl; lia.
Qed.

Lemma distinct_cons_new (x : string) (l : list string) :
  str_in x l = false -> distinct (x :: l) = S (distinct l).
Proof.
  intro H. apply str_in_false in H. unfold distinct. simpl.
  destruct (in_dec string_dec x l); [contradiction | reflexivity].
Qed.

Lemma distinct_app_le (pre l : list string) :
  distinct l <= distinct (pre ++ l).
Proof.
  induction pre as [|x pre IH]; simpl; [lia|].
  pose proof (distinct_cons_le x (pre ++ l)). lia.
Qed.

Lemma for_each_None {A S : Type} (l : list A) (body : A -> S -> option S) :
  fold_left (fun st x => match st with
                         | Some s' => body x s'
                         | None => None
                         end) l None = None.
Proof. induction l; simpl; auto. Qed.

(** A loop appends, when each turn appends at least one sequence. *)
Lemma for_each_appends {A : Type} (Q : list string -> Prop)
      (x0 : A) (l : list A)
      (body : A -> list (list string) -> option (list (list string))) :
  (forall x s r, In x (x0 :: l) -> body x s = Some r ->
                 exists p e, r = s ++ p :: e /\ Forall Q (p :: e)) ->
  forall s r, for_each (x0 :: l) body s = Some r ->
              exists p e, r = s ++ p :: e /\ Forall Q (p :: e).
Proof.
  revert x0. unfold for_each.
  induction l as [|x1 l IH]; intros x0 H s r Hr; cbn [fold_left] in Hr.
  - apply (H x0 s r); [left; reflexivity | exact Hr].
  - destruct (body x0 s) as [s1|] eqn:E.
    + destruct (H x0 s s1 (or_introl eq_refl) E) as [p1 [e1 [-> Q1]]].
      apply (IH x1) in Hr; [|intros y s2 r2 Hy; apply H; right; exact Hy].
      destruct Hr as [p2 [e2 [-> Q2]]].
      exists p1, (e1 ++ p2 :: e2). split.
      * rewrite <- app_assoc. reflexivity.
      * change (Forall Q ((p1 :: e1) ++ p2 :: e2)). apply Forall_app. auto.
    + cbn [fold_left] in Hr. rewrite for_each_None in Hr. discriminate Hr.
Qed.

(** A call appends at least one sequence, and the sequences it appends
    extend its accumulated path to the left. *)
Lemma find_paths_extends (self : DirectedGraphPathFinder) :
  forall depth current path acc r,
    _find_paths_recursive self depth current path acc = Some r ->
    exists p e,
      r = acc ++ p :: e
      /\ Forall (fun p' => exists pre, p' = pre ++ path) (p :: e).
Proof.
  induction depth as [|depth IH]; intros current path acc r Hr;
    [discriminate|].
  cbn [_find_paths_recursive] in Hr.
  destruct (str_in current path).
  { injection Hr as <-. exists path, []. split; [reflexivity|].
    constructor; [exists []; reflexivity | constructor]. }
  destruct (predecessors_of self current) as [|pred0 preds].
  { injection Hr as <-. exists (current :: path), []. split; [reflexivity|].
    constructor; [exists [current]; reflexivity | constructor]. }
  destruct ((List.length (pred0 :: preds) =? 1) && type_is_AND self pred0).
  - destruct (predecessors_of self pred0) as [|i0 inputs].
    { injection Hr as <-. exists (pred0 :: current :: path), [].
      split; [reflexivity|].
      constructor; [exists [pred0; current]; reflexivity | constructor]. }
    apply (for_each_appends (fun p' => exists pre, p' = pre ++ path)) in Hr;
      [exact Hr|].
    intros x s r' _ Hcall. apply IH in Hcall.
    destruct Hcall as [p [e [-> He]]]. exists p, e. split; [reflexivity|].
    eapply Forall_impl; [|exact He]. intros p' [pre ->].
    exists (pre ++ [pred0; current]). rewrite <- app_assoc. reflexivity.
  - apply (for_each_appends (fun p' => exists pre, p' = pre ++ path)) in Hr;
      [exact Hr|].
    intros x s r' _ Hcall. apply IH in Hcall.
    destruct Hcall as [p [e [-> He]]]. exists p, e. split; [reflexivity|].
    eapply Forall_impl; [|exact He]. intros p' [pre ->].
    exists (pre ++ [current]). rewrite <- app_assoc. reflexivity.
Qed.

(** A loop gives the same result with another body that agrees with the
    first on every turn whose appended sequences satisfy [Q]. *)
Lemma for_each_transfer {A : Type} (Q : list string -> Prop) (l : list A)
      (body1 body2 : A -> list (list string) -> option (list (list string))) :
  (forall x s r, body1 x s = Some r -> exists e, r = s ++ e) ->
  (forall x s e, body1 x s = Some (s ++ e) -> Forall Q e ->
                 body2 x s = Some (s ++ e)) ->
  forall s em,
    for_each l body1 s = Some (s ++ em) -> Forall Q em ->
    for_each l body2 s = Some (s ++ em).
Proof.
  intros Happ Hagree. unfold for_each.
  induction l as [|x l IH]; intros s em Hr HQ; cbn [fold_left] in *.
  - exact Hr.
  - destruct (body1 x s) as [s1|] eqn:E;
      [|rewrite for_each_None in Hr; discriminate Hr].
    destruct (Happ x s s1 E) as [e1 ->].
    assert (Hrest : exists e2, s ++ em = (s ++ e1) ++ e2).
    { apply (for_each_emits (fun _ => True) l body1) in Hr.
      - destruct Hr as [e2 [H2 _]]. exists e2. exact H2.
      - intros y s2 r2 _ Hy. destruct (Happ y s2 r2 Hy) as [e ->].
        exists e. split; [reflexivity|]. apply Forall_forall. auto. }
    destruct Hrest as [e2 H2]. rewrite <- app_assoc in H2.
    apply app_inv_head in H2. subst em.
    apply Forall_app in HQ. destruct HQ as [Q1 Q2].
    rewrite (Hagree x s e1 E Q1).
    rewrite app_assoc in Hr |- *. apply IH; assumption.
Qed.

(** A search that returns needs no more depth than one plus the number of
    distinct ids that its longest branch adds to the accumulated path. *)
Lemma find_paths_depth_of_branches (self : DirectedGraphPathFinder) :
  forall d D current path acc em,
    _find_paths_recursive self D current path acc = Some (acc ++ em) ->
    Forall (fun p => distinct p < d + distinct path) em ->
    _find_paths_recursive self d current path acc = Some (acc ++ em).
Proof.
  induction d as [|d IH]; intros D current path acc em Hr Hem.
  - exfalso. apply find_paths_extends in Hr.
    destruct Hr as [p [e [Heq Hsuf]]]. apply app_inv_head in Heq. subst em.
    inversion Hem as [|? ? Hp _]; subst.
    inversion Hsuf as [|? ? [pre ->] _]; subst.
    pose proof (distinct_app_le pre path). simpl in Hp. lia.
  - destruct D as [|D]; [discriminate Hr|].
    cbn [_find_paths_recursive] in Hr |- *.
    destruct (str_in current path) eqn:Hin; [exact Hr|].
    destruct (predecessors_of self current) as [|pred0 preds]; [exact Hr|].
    pose proof (distinct_cons_new current path Hin) as Hnew.
    destruct ((List.length (pred0 :: preds) =? 1) && type_is_AND self pred0).
    + destruct (predecessors_of self pred0) as [|i0 inputs]; [exact Hr|].
      pose proof (distinct_cons_le pred0 (current :: path)) as Hgate.
      revert Hr Hem.
      apply (for_each_transfer
               (fun p => distinct p < S d + distinct path)).
      * intros x s r Hcall. apply find_paths_extends in Hcall.
        destruct Hcall as [p [e [-> _]]]. eexists. reflexivity.
      * intros x s e Hcall He. apply (IH D); [exact Hcall|].
        eapply Forall_impl; [|exact He]. cbv beta. intros p Hp. lia.
    + revert Hr Hem.
      apply (for_each_transfer
               (fun p => distinct p < S d + distinct path)).
      * intros x s r Hcall. apply find_paths_extends in Hcall.
        destruct Hcall as [p [e [-> _]]]. eexists. reflexivity.
      * intros x s e Hcall He. apply (IH D); [exact Hcall|].
        eapply Forall_impl; [|exact He]. cbv beta. intros p Hp. lia.
Qed.

(** C7: the reverse search returns on every graph, cyclic or not. Its
    recursion depth is at most the number of distinct node ids of the
    graph plus one, and no more than the number of distinct nodes along
    its longest branch plus one. A call on a node that its accumulated
    path already holds stops at once and emits that path unchanged. *)
Theorem recursion_depth_bounded :
  (forall (data : graph_info) (current : string) (path : list string)
          (acc : list (list string)) (spare : nat),
      exists result,
        _find_paths_recursive (init data)
          (S (List.length (graph_ids (init data))) + spare)
          current path acc = Some result)
  /\ (forall (self : DirectedGraphPathFinder) (D depth : nat)
             (target_id : string) (paths : list (list string)),
         _find_paths_recursive self D target_id [] [] = Some paths ->
         Forall (fun p => distinct p + 1 <= depth) paths ->
         _find_paths_recursive self depth target_id [] [] = Some paths)
  /\ (forall (self : DirectedGraphPathFinder) (depth : nat) (current : string)
             (before after : list string) (acc : list (list string)),
         _find_paths_recursive self (S depth) current
                               (before ++ current :: after) acc
         = Some (acc ++ [before ++ current :: after])).
Proof.
  split; [|split].
  - intros. apply find_paths_returns.
    pose proof (unvisited_le (graph_ids (init data)) path). lia.
  - intros self D depth target_id paths Hr Hp.
    apply (find_paths_depth_of_branches self depth D target_id [] [] paths);
      [exact Hr|].
    eapply Forall_impl; [|exact Hp]. cbv beta. intros p H.
    change (distinct []) with 0. lia.
  - intros. cbn [_find_paths_recursive].
    replace (str_in current (before ++ current :: after)) with true;
      [reflexivity|].
    symmetry. apply str_in_In. apply in_elt.
Qed.

(** On the chain A -> B -> T the longest branch has three nodes and the
    search fits in depth four. *)
Lemma recursion_depth_bounded_witness :
  _find_paths_recursive (init chain_graph) 4 "T" [] []
  = Some [["A"; "B"; "T"]].
Proof.
  apply (proj1 (proj2 recursion_depth_bounded)
               (init chain_graph) (depth_bound (init chain_graph))).
  - vm_compute. reflexivity.
  - constructor; [vm_compute; lia | constructor].
Defined.

(** ** Order of the returned sequences *)

(** What a call appends to [all_backward_paths]: sequences that extend the
    accumulated path to the left and start where a branch ends. *)
Lemma find_paths_emits (self : DirectedGraphPathFinder) :
  forall depth current path acc r,
    (path = []
     \/ exists h rest, path = h :: rest /\ In current (predecessors_of self h)) ->
    _find_paths_recursive self depth current path acc = Some r ->
    exists emitted,
      r = acc ++ emitted
      /\ Forall (fun p =>
                   (exists pre, p = pre ++ (if str_in current path
                                            then path else current :: path))
                   /\ exists h rest, p = h :: rest /\ search_end self p h)
                emitted.
Proof.
  induction depth as [|depth IH]; intros current path acc r Hpre Hr;
    [discriminate|].
  cbn [_find_paths_recursive] in Hr.
  destruct (str_in current path) eqn:Hin.
  { injection Hr as <-. exists [path]. split; [reflexivity|].
    constructor; [|constructor]. split; [exists []; reflexivity|].
    destruct Hpre as [->|[h [rest [-> Hh]]]]; [discriminate Hin|].
    exists h, rest. split; [reflexivity|]. right. exists current.
    split; [exact Hh | apply str_in_In; exact Hin]. }
  destruct (predecessors_of self current) as [|pred0 preds] eqn:Hp.
  { injection Hr as <-. exists [current :: path]. split; [reflexivity|].
    constructor; [|constructor]. split; [exists []; reflexivity|].
    exists current, path. split; [reflexivity|]. left. exact Hp. }
  set (Q := fun p : list string =>
              (exists pre, p = pre ++ current :: path)
              /\ exists h rest, p = h :: rest /\ search_end self p h).
  destruct ((List.length (pred0 :: preds) =? 1) && type_is_AND self pred0).
  - destruct (predecessors_of self pred0) as [|i0 inputs] eqn:Hi.
    { injection Hr as <-. exists [pred0 :: current :: path].
      split; [reflexivity|]. constructor; [|constructor].
      split; [exists [pred0]; reflexivity|].
      exists pred0, (current :: path). split; [reflexivity|]. left. exact Hi. }
    apply (for_each_emits Q) in Hr; [exact Hr|].
    intros x s r' Hx Hcall. apply IH in Hcall.
    + destruct Hcall as [e [-> He]]. exists e. split; [reflexivity|].
      eapply Forall_impl; [|exact He]. intros p [[pre Hsuf] Hend].
      split; [|exact Hend].
      destruct (str_in x (pred0 :: current :: path)).
      * exists (pre ++ [pred0]). rewrite <- app_assoc. exact Hsuf.
      * exists (pre ++ [x; pred0]). rewrite <- app_assoc. exact Hsuf.
    + right. exists pred0, (current :: path). split; [reflexivity|].
      rewrite Hi. exact Hx.
  - apply (for_each_emits Q) in Hr; [exact Hr|].
    intros x s r' Hx Hcall. apply IH in Hcall.
    + destruct Hcall as [e [-> He]]. exists e. split; [reflexivity|].
      eapply Forall_impl; [|exact He]. intros p [[pre Hsuf] Hend].
      split; [|exact Hend].
      destruct (str_in x (current :: path)).
      * exists pre. exact Hsuf.
      * exists (pre ++ [x]). rewrite <- app_assoc. exact Hsuf.
    + right. exists current, path. split; [reflexivity|].
      rewrite Hp. exact Hx.
Qed.

(** For a known target, the result is the reversed output of a search that
    returned. *)
Lemma find_all_paths_to_target_search (data : graph_info) (target_id : string) :
  In target_id (map ID (nodes data)) ->
  exists backward_paths,
    _find_paths_recursive (init data) (depth_bound (init data))
                          target_id [] [] = Some backward_paths
    /\ find_all_paths_to_target (init data) target_id
       = map (@rev string) backward_paths.
Proof.
  intro H. unfold find_all_paths_to_target.
  replace (dict_mem String.eqb (nodes_info (init data)) target_id) with true.
  - destruct (find_paths_returns data (depth_bound (init data))
                                 target_id [] []) as [r Hr].
    + unfold depth_bound.
      pose proof (unvisited_le (graph_ids (init data)) []). lia.
    + exists r. rewrite Hr. simpl. auto.
  - symmetry. unfold init. simpl. apply nodes_info_mem. right. exact H.
Qed.

(** C2, as the code has it: every sequence that
    [find_all_paths_to_target] returns is in target-to-source order; its
    first element is the target, and its last element is a node without
    predecessor or the node where a cycle was cut. *)
Theorem returned_paths_target_first
        (self : DirectedGraphPathFinder) (target_id : string)
        (p : list string) :
  In p (find_all_paths_to_target self target_id) ->
  target_first self target_id p.
Proof.
  unfold find_all_paths_to_target.
  destruct (negb (dict_mem String.eqb (nodes_info self) target_id));
    [intros []|].
  destruct (_find_paths_recursive self (depth_bound self) target_id [] [])
    as [bp|] eqn:E; [|intros []].
  intro Hp. apply in_map_iff in Hp. destruct Hp as [b [<- Hb]].
  apply find_paths_emits in E; [|left; reflexivity].
  destruct E as [emitted [-> Hall]]. simpl in Hb.
  rewrite Forall_forall in Hall.
  destruct (Hall b Hb) as [[pre Hsuf] [h [rest [Hhd Hend]]]].
  simpl in Hsuf. split.
  - exists (rev pre). rewrite Hsuf, rev_app_distr. reflexivity.
  - exists (rev rest), h. split.
    + rewrite Hhd. reflexivity.
    + destruct Hend as [H0|[y [Hy Hin]]]; [left; exact H0|].
      right. exists y. split; [exact Hy|]. apply in_rev in Hin. exact Hin.
Qed.

Lemma returned_paths_target_first_witness :
  target_first (init chain_graph) "T" ["T"; "B"; "A"].
Proof.
  apply (returned_paths_target_first (init chain_graph) "T").
  vm_compute. left. reflexivity.
Defined.

(** C2 as stated fails on the chain A -> B -> T: the sequence returned for
    T is T, B, A, which does not end at the target. *)
Lemma chain_path_not_source_first :
  In ["T"; "B"; "A"] (find_all_paths_to_target (init chain_graph) "T")
  /\ ~ source_first (init chain_graph) "T" ["T"; "B"; "A"].
Proof.
  split.
  - vm_compute. left. reflexivity.
  - intros [[front H] _].
    apply (f_equal (@rev string)) in H. rewrite rev_app_distr in H.
    simpl in H. discriminate H.
Qed.

(** ** Hops of a path structure *)

Lemma hashable_app (a b : list hop) :
  hashable_hops a -> hashable_hops b -> hashable_hops (a ++ b).
Proof. intros Ha Hb. apply Forall_app. auto. Qed.

Lemma flat_map_hashable {A : Type} (f : A -> list hop) (l : list A) :
  Forall (fun x => hashable_hops (f x)) l -> hashable_hops (flat_map f l).
Proof.
  induction 1; simpl; [constructor | apply hashable_app; auto].
Qed.

Lemma bridge_in_hashable (prev : option nested) (firsts : list string) :
  match prev with Some (NList _) => False | _ => True end ->
  hashable_hops (bridge_in prev firsts).
Proof.
  destruct prev as [[s|l]|]; simpl; intro H; try destruct H.
  - induction firsts; simpl; constructor; auto.
  - constructor.
Qed.

Lemma bridge_out_hashable (e : ends) (next_node : option nested) :
  hashable_hops (bridge_out e next_node).
Proof.
  destruct next_node as [nn|]; cbn [bridge_out]; [|constructor].
  apply flat_map_hashable. apply Forall_forall. intros x _.
  destruct nn as [s|m].
  - constructor; [reflexivity | constructor].
  - generalize (get_first_nodes (NList m)). intro firsts.
    induction firsts; simpl; constructor; auto.
Qed.

Lemma step_hop_hashable (prev : option nested) (node : nested) (s : string) :
  match prev with Some (NList _) => False | _ => True end ->
  hashable_hops (step_hop prev node s).
Proof.
  unfold step_hop. destruct prev as [[a|l]|]; intro H; try destruct H.
  - destruct (nested_eqb (Atom a) node); repeat constructor.
  - constructor.
Qed.

Lemma hops_loop_hashable (rec : nested -> ends * list hop) (l : list nested) :
  Forall (fun x => hashable_hops (snd (rec x))) l ->
  no_adjacent_lists l = true ->
  forall prev,
    match prev with Some (NList _) => False | _ => True end ->
    hashable_hops (snd (hops_loop rec l prev)).
Proof.
  induction l as [|node rest IH]; intros Hrec Hadj prev Hprev.
  - constructor.
  - inversion Hrec as [|? ? Hnode Hrest]; subst.
    assert (Hadj' : no_adjacent_lists rest = true).
    { simpl in Hadj. destruct rest; [reflexivity|].
      apply andb_true_iff in Hadj. tauto. }
    destruct node as [s|m]; cbn [hops_loop].
    + destruct rest as [|y rest'].
      * cbn [snd]. apply step_hop_hashable. exact Hprev.
      * specialize (IH Hrest Hadj' (Some (Atom s)) I).
        destruct (hops_loop rec (y :: rest') (Some (Atom s))) as [e later].
        cbn [snd] in *. apply hashable_app; [|exact IH].
        apply step_hop_hashable. exact Hprev.
    + destruct (rec (NList m)) as [be inner] eqn:E. simpl in Hnode.
      assert (Hhere : forall nn,
                 hashable_hops (bridge_in prev (get_first_nodes (NList m))
                                ++ inner ++ bridge_out be nn)).
      { intro nn. apply hashable_app; [apply bridge_in_hashable, Hprev|].
        apply hashable_app; [exact Hnode | apply bridge_out_hashable]. }
      destruct rest as [|y rest'].
      * cbn [snd hd_error]. apply Hhere.
      * assert (Hy : match Some y with Some (NList _) => False | _ => True end).
        { simpl in Hadj. destruct y; [exact I|]. discriminate Hadj. }
        specialize (IH Hrest Hadj' (Some y) Hy).
        cbn [hd_error].
        destruct (hops_loop rec (y :: rest') (Some y)) as [e later].
        cbn [snd] in *. rewrite !app_assoc. apply hashable_app; [|exact IH].
        rewrite <- app_assoc. apply Hhere.
Qed.

(** Every hop of a path structure joins two node ids. *)
Lemma extract_hops_hashable (p : nested) :
  path_structure p = true -> hashable_hops (snd (extract_hops p None)).
Proof.
  induction p as [s|l IH] using nested_ind'; intro H.
  - constructor.
  - cbn [path_structure] in H. apply andb_true_iff in H.
    destruct H as [Hall Hshape]. rewrite forallb_forall in Hall.
    assert (Hsub : Forall (fun x => hashable_hops (snd (extract_hops x None))) l).
    { rewrite Forall_forall in IH |- *. intros x Hx. apply IH; auto. }
    cbn [extract_hops]. destruct (forallb is_list l) eqn:El.
    + cbn [snd]. rewrite flat_map_concat_map, map_map, <- flat_map_concat_map.
      apply flat_map_hashable. exact Hsub.
    + simpl in Hshape. apply hops_loop_hashable; auto.
Qed.


Lemma forallb_rev {A : Type} (f : A -> bool) (l : list A) :
  forallb f (rev l) = forallb f l.
Proof.
  induction l as [|x l IH]; simpl; [reflexivity|].
  rewrite forallb_app, IH. simpl. rewrite andb_true_r. apply andb_comm.
Qed.



(** ** Cost and stealth *)

Lemma cost_loop_without_cost (edge_dict : edge_dict_t) (hops : list hop) :
  hashable_hops hops ->
  (forall h e, In h hops ->
               edge_dict_get edge_dict h = Ok (Some e) -> cost e = None) ->
  forall total,
    fold_left
      (fun acc h =>
         total_cost <- acc ;;
         e <- edge_dict_get edge_dict h ;;
         match e with
         | Some edge =>
           match cost edge with
           | Some c => Ok (total_cost + c)%Z
           | None => Ok total_cost
           end
         | None => Ok total_cost
         end) hops (Ok total) = Ok total.
Proof.
  induction hops as [|h hops IH]; intros Hh Hc total; [reflexivity|].
  inversion Hh as [|? ? Hsrc Hrest]; subst.
  cbn [fold_left bind].
  destruct h as [src dst]. simpl in Hsrc.
  destruct src as [a|m]; [|discriminate Hsrc].
  assert (Hget := Hc (Atom a, dst)). unfold edge_dict_get in Hget |- *.
  cbn [fst snd] in Hget |- *. cbn [bind].
  destruct (dict_get pair_eqb edge_dict (a, dst)) as [e|].
  - rewrite (Hget e (or_introl eq_refl) eq_refl).
    apply IH; [exact Hrest|]. intros h' e' Hin. apply Hc. right. exact Hin.
  - apply IH; [exact Hrest|]. intros h' e' Hin. apply Hc. right. exact Hin.
Qed.

(** The cost of a path structure is the sum of the defined costs of its
    hops. *)
Lemma cost_is_sum_of_defined_costs
      (path : nested) (node_dict : node_dict_t) (edge_dict : edge_dict_t)
      (parent : option nested) :
  path_structure path = true ->
  calc_path_cost path node_dict edge_dict parent
  = Ok (fold_right Z.add 0%Z
                   (defined_cost edge_dict (snd (extract_hops path None)))).
Proof.
  intro Hp. unfold calc_path_cost.
  pose proof (extract_hops_hashable path Hp) as Hh.
  assert (Hloop : forall hops, hashable_hops hops -> forall total,
             fold_left
               (fun acc h =>
                  total_cost <- acc ;;
                  e <- edge_dict_get edge_dict h ;;
                  match e with
                  | Some edge =>
                    match cost edge with
                    | Some c => Ok (total_cost + c)%Z
                    | None => Ok total_cost
                    end
                  | None => Ok total_cost
                  end) hops (Ok total)
             = Ok (total + fold_right Z.add 0 (defined_cost edge_dict hops))%Z).
  { clear. induction hops as [|h hops IH]; intros Hh total.
    - simpl. rewrite Z.add_0_r. reflexivity.
    - inversion Hh as [|? ? Hsrc Hrest]; subst.
      cbn [fold_left bind]. destruct h as [src dst]. simpl in Hsrc.
      destruct src as [a|m]; [|discriminate Hsrc].
      unfold edge_dict_get. cbn [fst snd bind].
      unfold defined_cost. cbn [flat_map]. unfold hop_cost at 1.
      cbn [fst snd].
      destruct (dict_get pair_eqb edge_dict (a, dst)) as [e|].
      + destruct (cost e) as [c|]; rewrite (IH Hrest);
          cbn [app fold_right]; f_equal; fold (defined_cost edge_dict hops);
          lia.
      + rewrite (IH Hrest). reflexivity. }
  rewrite (Hloop _ Hh). rewrite Z.add_0_l. reflexivity.
Qed.

(** C10: on a path structure none of whose hops has an edge with a defined
    cost (none at all, for a structure without hops), [calc_path_cost]
    returns the number 0, never an absent value. *)
Theorem cost_without_defined_cost_is_zero
        (path : nested) (node_dict : node_dict_t) (edge_dict : edge_dict_t)
        (parent : option nested) :
  path_structure path = true ->
  (forall h e, In h (snd (extract_hops path None)) ->
               edge_dict_get edge_dict h = Ok (Some e) -> cost e = None) ->
  calc_path_cost path node_dict edge_dict parent = Ok 0%Z.
Proof.
  intros Hp Hc. unfold calc_path_cost.
  apply cost_loop_without_cost; [|exact Hc].
  apply extract_hops_hashable. exact Hp.
Qed.

Lemma cost_without_defined_cost_is_zero_witness :
  calc_path_cost (NList [NList [NList [Atom "P1"]; NList [Atom "Q"]];
                         Atom "LOGIC_AND_1"])
                 [] (snd (load_graph_info (and_graph "LOGIC_AND_1"))) None
  = Ok 0%Z.
Proof.
  apply cost_without_defined_cost_is_zero.
  - vm_compute. reflexivity.
  - vm_compute. intros h e [<-|[<-|[]]] H; injection H as <-; reflexivity.
Defined.

Lemma stealth_loop_collects (edge_dict : edge_dict_t) (hops : list hop) :
  hashable_hops hops ->
  forall values,
    fold_left
      (fun acc h =>
         values <- acc ;;
         e <- edge_dict_get edge_dict h ;;
         match e with
         | Some edge =>
           match stealth edge with
           | Some st => Ok (values ++ [st])
           | None => Ok values
           end
         | None => Ok values
         end) hops (Ok values)
    = Ok (values ++ defined_stealth edge_dict hops).
Proof.
  induction hops as [|h hops IH]; intros Hh values.
  - simpl. rewrite app_nil_r. reflexivity.
  - inversion Hh as [|? ? Hsrc Hrest]; subst.
    cbn [fold_left bind]. destruct h as [src dst]. simpl in Hsrc.
    destruct src as [a|m]; [|discriminate Hsrc].
    unfold edge_dict_get. cbn [fst snd bind].
    unfold defined_stealth. cbn [flat_map]. unfold hop_stealth at 1.
    cbn [fst snd].
    destruct (dict_get pair_eqb edge_dict (a, dst)) as [e|].
    + destruct (stealth e) as [st|].
      * rewrite (IH Hrest). rewrite <- app_assoc. reflexivity.
      * rewrite (IH Hrest). reflexivity.
    + rewrite (IH Hrest). reflexivity.
Qed.

Lemma fold_left_add_right (values : list Z) (a : Z) :
  fold_left Z.add values a = (a + fold_right Z.add 0 values)%Z.
Proof.
  revert a. induction values as [|v values IH]; intro a; simpl.
  - lia.
  - rewrite IH. lia.
Qed.

(** ** Floats *)

Section FloatFacts.
Local Open Scope Z_scope.

(** Rounding to an integer moves a rational by a half at most. *)
Lemma round_half_even_close (n : Z) (d : positive) :
  (- Zpos d <= 2 * (round_half_even (n # d) * Zpos d - n) <= Zpos d)%Z.
Proof.
  unfold round_half_even. cbn [Qnum Qden].
  pose proof (Z.div_mod n (Zpos d) ltac:(lia)) as Hdm.
  pose proof (Z.mod_pos_bound n (Zpos d) ltac:(lia)) as Hr.
  set (fl := (n / Zpos d)%Z) in *. set (r := (n mod Zpos d)%Z) in *.
  destruct (Z.ltb_spec (2 * r) (Zpos d)); [nia|].
  destruct (Z.ltb_spec (Zpos d) (2 * r)); [nia|].
  destruct (Z.even fl); nia.
Qed.

Lemma pow2_pos (e : Z) : (0 < pow2 e)%Z.
Proof. unfold pow2. apply Z.pow_pos_nonneg; lia. Qed.

Lemma pow2_nonneg (e : Z) : (0 <= e)%Z -> pow2 e = (2 ^ e)%Z.
Proof. intro H. unfold pow2. rewrite Z.max_r by lia. reflexivity. Qed.

Lemma pow2_neg (e : Z) : (e <= 0)%Z -> pow2 e = 1%Z.
Proof. intro H. unfold pow2. rewrite Z.max_l by lia. reflexivity. Qed.

Lemma pow2_to_pos (e : Z) : Zpos (Z.to_pos (pow2 e)) = pow2 e.
Proof. apply Z2Pos.id. apply pow2_pos. Qed.

(** [floor_log2] is not above the exponent of a power of two that
    bounds the number. *)
Lemma floor_log2_le (q : Q) (c : Z) :
  (0 <= c)%Z -> (Z.abs (Qnum q) <= 2 ^ c * Zpos (Qden q))%Z ->
  (floor_log2 q <= c)%Z.
Proof.
  intros Hc Hq. unfold floor_log2.
  set (a := Z.abs (Qnum q)) in *. set (d := Zpos (Qden q)) in *.
  assert (Hd : (0 < d)%Z) by (unfold d; lia).
  destruct (Z.eq_dec a 0) as [Ha|Ha].
  - rewrite Ha. change (Z.log2 0) with 0%Z.
    pose proof (Z.log2_nonneg d).
    destruct (_ <? _)%Z; lia.
  - assert (Hapos : (0 < a)%Z) by (unfold a in *; lia).
    destruct (Z.log2_spec a Hapos) as [Ha1 Ha2].
    destruct (Z.log2_spec d Hd) as [Hd1 Hd2].
    pose proof (Z.log2_nonneg a) as Hla. pose proof (Z.log2_nonneg d) as Hld.
    set (la := Z.log2 a) in *. set (ld := Z.log2 d) in *.
    assert (H : (la - ld <= c)%Z).
    { destruct (Z_le_gt_dec (la - ld) c) as [|Hgt]; [assumption|exfalso].
      assert (Hp : (2 ^ la = 2 ^ (la - ld - c - 1) * (2 ^ c * 2 ^ (ld + 1)))%Z).
      { rewrite <- !Z.pow_add_r by lia. f_equal. lia. }
      assert (H1 : (1 <= 2 ^ (la - ld - c - 1))%Z)
        by (apply Z.lt_pred_le; apply Z.pow_pos_nonneg; lia).
      assert (H2 : (0 < 2 ^ c)%Z) by (apply Z.pow_pos_nonneg; lia).
      replace (Z.succ ld) with (ld + 1)%Z in Hd2 by lia.
      assert (H3 : (2 ^ c * d < 2 ^ c * 2 ^ (ld + 1))%Z)
        by (apply Z.mul_lt_mono_pos_l; assumption).
      set (X := (2 ^ c * 2 ^ (ld + 1))%Z) in *.
      set (P := (2 ^ (la - ld - c - 1))%Z) in *.
      assert (H4 : (X <= P * X)%Z) by nia.
      lia. }
    destruct (_ <? _)%Z; lia.
Qed.

(** [floor_log2 q] is the exponent of the power of two at or next below
    [|q|]: [2^e <= |q| < 2^(e+1)], the powers written without a
    fraction. *)
Lemma floor_log2_spec (q : Q) :
  Qnum q <> 0%Z ->
  let a := Z.abs (Qnum q) in
  let d := Zpos (Qden q) in
  let e := floor_log2 q in
  (d * pow2 e <= a * pow2 (- e) < 2 * d * pow2 e)%Z.
Proof.
  intros H0 a d e. unfold e, floor_log2. fold a. fold d.
  assert (Ha : (0 < a)%Z) by (unfold a; lia).
  assert (Hd : (0 < d)%Z) by (unfold d; lia).
  destruct (Z.log2_spec a Ha) as [Ha1 Ha2].
  destruct (Z.log2_spec d Hd) as [Hd1 Hd2].
  pose proof (Z.log2_nonneg a) as Hla. pose proof (Z.log2_nonneg d) as Hld.
  set (la := Z.log2 a) in *. set (ld := Z.log2 d) in *.
  replace (Z.succ la) with (la + 1)%Z in Ha2 by lia.
  replace (Z.succ ld) with (ld + 1)%Z in Hd2 by lia.
  rewrite Z.pow_add_r in Ha2, Hd2 by lia. change (2 ^ 1)%Z with 2%Z in *.
  assert (Pa : (0 < 2 ^ la)%Z) by (apply Z.pow_pos_nonneg; lia).
  assert (Pd : (0 < 2 ^ ld)%Z) by (apply Z.pow_pos_nonneg; lia).
  destruct (Z_le_gt_dec 0 (la - ld)) as [He|He].
  - assert (Hp : (2 ^ la = 2 ^ ld * 2 ^ (la - ld))%Z)
      by (rewrite <- Z.pow_add_r by lia; f_equal; lia).
    assert (Pe : (0 < 2 ^ (la - ld))%Z) by (apply Z.pow_pos_nonneg; lia).
    rewrite (pow2_nonneg (la - ld)), (pow2_neg (- (la - ld))) by lia.
    set (E := (2 ^ (la - ld))%Z) in *.
    destruct (Z.ltb_spec (a * 1) (d * E)) as [Hlt|Hge].
    + destruct (Z.eq_dec (la - ld) 0) as [Hz|Hz].
      * replace (la - ld - 1)%Z with (-1)%Z by lia.
        change (pow2 (-1)) with 1%Z. change (pow2 (- -1)) with 2%Z.
        unfold E in *. rewrite Hz in *. change (2 ^ 0)%Z with 1%Z in *. nia.
      * rewrite (pow2_nonneg (la - ld - 1)), (pow2_neg (- (la - ld - 1)))
          by lia.
        assert (HE : (E = 2 * 2 ^ (la - ld - 1))%Z).
        { unfold E. replace (la - ld)%Z with ((la - ld - 1) + 1)%Z at 1 by lia.
          rewrite Z.pow_add_r by lia. change (2 ^ 1)%Z with 2%Z. lia. }
        assert (Pe' : (0 < 2 ^ (la - ld - 1))%Z)
          by (apply Z.pow_pos_nonneg; lia).
        set (E' := (2 ^ (la - ld - 1))%Z) in *.
        assert (H1 : (d * E' < 2 ^ ld * 2 * E')%Z)
          by (apply Z.mul_lt_mono_pos_r; lia).
        lia.
    + rewrite (pow2_nonneg (la - ld)), (pow2_neg (- (la - ld))) by lia.
      fold E.
      assert (H1 : (2 ^ ld * E <= d * E)%Z)
        by (apply Z.mul_le_mono_nonneg_r; lia).
      lia.
  - assert (Hp : (2 ^ ld = 2 ^ la * 2 ^ (- (la - ld)))%Z)
      by (rewrite <- Z.pow_add_r by lia; f_equal; lia).
    assert (Pe : (0 < 2 ^ (- (la - ld)))%Z) by (apply Z.pow_pos_nonneg; lia).
    rewrite (pow2_neg (la - ld)), (pow2_nonneg (- (la - ld))) by lia.
    set (E := (2 ^ (- (la - ld)))%Z) in *.
    destruct (Z.ltb_spec (a * E) (d * 1)) as [Hlt|Hge].
    + rewrite (pow2_neg (la - ld - 1)), (pow2_nonneg (- (la - ld - 1)))
        by lia.
      replace (- (la - ld - 1))%Z with (- (la - ld) + 1)%Z by lia.
      rewrite Z.pow_add_r by lia. change (2 ^ 1)%Z with 2%Z. fold E.
      assert (H1 : (d < 2 ^ la * E * 2)%Z) by lia.
      assert (H2 : (2 ^ la * E <= a * E)%Z)
        by (apply Z.mul_le_mono_nonneg_r; lia).
      lia.
    + rewrite (pow2_neg (la - ld)), (pow2_nonneg (- (la - ld))) by lia.
      fold E.
      assert (H1 : (a * E < 2 ^ la * 2 * E)%Z)
        by (apply Z.mul_lt_mono_pos_r; lia).
      lia.
Qed.

(** The powers of two of an exponent and of the exponent 52 below. *)
Lemma pow2_shift (e u : Z) :
  u = (e - 52)%Z ->
  (pow2 (- u) * pow2 e = 2 ^ 52 * pow2 u * pow2 (- e))%Z.
Proof.
  intros ->. unfold pow2.
  rewrite <- !Z.pow_add_r by lia. f_equal. lia.
Qed.

(** The significand that [to_double] keeps has at most 53 bits, and
    fewer below [2^-1022]. *)
Lemma to_double_significand (q : Q) :
  Qnum q <> 0%Z ->
  let u := Z.max (floor_log2 q - 52) (-1074) in
  (Z.abs (round_half_even (scaled q u)) <= 2 ^ 53)%Z.
Proof.
  intros H0 u.
  pose proof (floor_log2_spec q H0) as [_ Hup]. cbv zeta in Hup.
  pose proof (pow2_pos u) as HB. pose proof (pow2_pos (- u)) as HA.
  pose proof (pow2_pos (floor_log2 q)) as HE.
  pose proof (pow2_pos (- floor_log2 q)) as HE'.
  pose proof (round_half_even_close (Qnum q * pow2 (- u))
                                    (Qden q * Z.to_pos (pow2 u))) as Hm.
  fold (scaled q u) in Hm.
  set (m := round_half_even (scaled q u)) in *.
  rewrite Pos2Z.inj_mul, pow2_to_pos in Hm.
  assert (Hd : (0 < Zpos (Qden q))%Z) by lia.
  set (d := Zpos (Qden q)) in *. set (n := Qnum q) in *.
  set (e := floor_log2 q) in *.
  assert (Hn : (Z.abs n * pow2 (- u) < 2 ^ 53 * pow2 u * d)%Z).
  { destruct (Z_le_gt_dec (-1074) (e - 52)) as [Hu|Hu].
    - assert (Hue : u = (e - 52)%Z) by (unfold u; lia).
      pose proof (pow2_shift e u Hue) as Hs.
      set (A := pow2 (- u)) in *. set (B := pow2 u) in *.
      set (E := pow2 e) in *. set (E' := pow2 (- e)) in *.
      assert (H1 : (Z.abs n * A * E < 2 ^ 53 * B * d * E)%Z).
      { replace (Z.abs n * A * E)%Z with (2 ^ 52 * B * (Z.abs n * E'))%Z
          by (rewrite <- Z.mul_assoc, (Z.mul_comm (Z.abs n)), <- Z.mul_assoc,
                      Hs; ring).
        replace (2 ^ 53 * B * d * E)%Z with (2 ^ 52 * B * (2 * d * E))%Z
          by (change (2 ^ 53)%Z with (2 ^ 52 * 2)%Z; ring).
        apply Z.mul_lt_mono_pos_l; [|exact Hup].
        apply Z.mul_pos_pos; [reflexivity | exact HB]. }
      apply (Z.mul_lt_mono_pos_r E); assumption.
    - assert (Hue : u = (-1074)%Z) by (unfold u; lia).
      rewrite Hue. change (pow2 (- -1074)) with (2 ^ 1074)%Z.
      change (pow2 (-1074)) with 1%Z.
      rewrite (pow2_neg e) in Hup by lia.
      rewrite (pow2_nonneg (- e)) in Hup by lia.
      assert (Hp : (2 ^ 1074 * 2 ^ (- e - 1074 + 52)
                    = 2 ^ 52 * 2 ^ (- e))%Z)
        by (rewrite <- !Z.pow_add_r by lia; f_equal; lia).
      assert (P1 : (1 <= 2 ^ (- e - 1074 + 52))%Z)
        by (apply Z.lt_pred_le; apply Z.pow_pos_nonneg; lia).
      assert (P2 : (0 < 2 ^ (- e))%Z) by (apply Z.pow_pos_nonneg; lia).
      set (X := (2 ^ (- e - 1074 + 52))%Z) in *.
      set (Y := (2 ^ (- e))%Z) in *.
      set (W := (2 ^ 1074)%Z) in *.
      assert (PW : (0 < W)%Z) by reflexivity.
      change (2 ^ 53)%Z with (2 ^ 52 * 2)%Z.
      set (V := (2 ^ 52)%Z) in *.
      assert (PV : (0 < V)%Z) by reflexivity.
      assert (H1 : (Z.abs n * W <= Z.abs n * (W * X))%Z) by nia.
      assert (H2 : (Z.abs n * (V * Y) < V * (2 * d * 1))%Z) by nia.
      rewrite Hp in H1. lia. }
  set (A := pow2 (- u)) in *. set (B := pow2 u) in *.
  change (2 ^ 53)%Z with 9007199254740992%Z in *.
  nia.
Qed.

(** One unit in the last place of a float below [2^(c+1)]. *)
Lemma ulp_bound (u c : Z) :
  (0 <= c)%Z -> (u <= c - 52)%Z ->
  (pow2 u * 2 ^ 52 <= 2 ^ c * pow2 (- u))%Z.
Proof.
  intros Hc Hu.
  destruct (Z_le_gt_dec 0 u) as [H|H].
  - rewrite (pow2_nonneg u H), (pow2_neg (- u)) by lia.
    rewrite Z.mul_1_r, <- Z.pow_add_r by lia.
    apply Z.pow_le_mono_r; lia.
  - rewrite (pow2_neg u), (pow2_nonneg (- u)) by lia.
    rewrite Z.mul_1_l, <- Z.pow_add_r by lia.
    apply Z.pow_le_mono_r; lia.
Qed.

(** A rational of absolute value at most [2^c], [c <= 1022], has a nearest
    float, and that float is within [2^(c-53)] of it. *)
Lemma to_double_close (q : Q) (c : Z) :
  (0 <= c <= 1022)%Z ->
  (Z.abs (Qnum q) <= 2 ^ c * Zpos (Qden q))%Z ->
  exists r : Q,
    to_double q = Some r
    /\ (Qabs (r - q) <= (2 ^ c) # (2 ^ 53))%Q.
Proof.
  intros Hc Hq. unfold to_double.
  destruct (Z.eqb_spec (Qnum q) 0) as [H0|H0].
  - exists 0%Q. split; [reflexivity|].
    apply Qabs_Qle_condition.
    assert (H2 : (0 < 2 ^ c)%Z) by (apply Z.pow_pos_nonneg; lia).
    destruct q as [n d]. cbn [Qnum] in H0. subst n.
    unfold Qle, Qminus, Qplus, Qopp. cbn [Qnum Qden]. lia.
  - pose proof (floor_log2_le q c ltac:(lia) Hq) as He.
    set (u := Z.max (floor_log2 q - 52) (-1074)).
    assert (Hu : (u <= c - 52)%Z) by (unfold u; lia).
    pose proof (ulp_bound u c ltac:(lia) Hu) as Hulp.
    pose proof (pow2_pos u) as HB. pose proof (pow2_pos (- u)) as HA.
    pose proof (round_half_even_close (Qnum q * pow2 (- u))
                                      (Qden q * Z.to_pos (pow2 u))) as Hm.
    fold (scaled q u) in Hm.
    set (m := round_half_even (scaled q u)) in *.
    rewrite Pos2Z.inj_mul, pow2_to_pos in Hm.
    assert (H2c : (0 < 2 ^ c)%Z) by (apply Z.pow_pos_nonneg; lia).
    assert (Hd : (0 < Zpos (Qden q))%Z) by lia.
    pose proof (pow2_to_pos (- u)) as HAp.
    set (A := pow2 (- u)) in *. set (B := pow2 u) in *.
    set (n := Qnum q) in *. set (d := Zpos (Qden q)) in *.
    assert (Hno : ((0 <=? u) && (2 ^ 1024 <=? Z.abs m * B))%bool = false).
    { destruct (Z.leb_spec 0 u) as [Hu0|]; [|reflexivity].
      cbn [andb]. apply Z.leb_gt.
      assert (HA1 : A = 1%Z) by (apply pow2_neg; lia).
      assert (Hc2 : (2 ^ 1024 = 2 ^ (1022 - c) * (4 * 2 ^ c))%Z).
      { change 4%Z with (2 ^ 2)%Z. rewrite <- !Z.pow_add_r by lia.
        f_equal. lia. }
      assert (H1 : (1 <= 2 ^ (1022 - c))%Z)
        by (apply Z.lt_pred_le; apply Z.pow_pos_nonneg; lia).
      rewrite Hc2. rewrite HA1 in *.
      assert (Hb : (Z.abs m * B < 4 * 2 ^ c)%Z); [|nia].
      assert (Hb1 : (2 * (Z.abs m * B) * d <= 2 * Z.abs n + d * B)%Z) by nia.
      assert (Hb2 : (B <= 2 ^ c)%Z) by nia.
      nia. }
    rewrite Hno. eexists. split; [reflexivity|].
    rewrite Qred_correct. apply Qabs_Qle_condition.
    unfold Qle, Qminus, Qplus, Qopp. cbn [Qnum Qden].
    fold n. rewrite !Pos2Z.inj_mul, HAp. fold d.
    change (Zpos (2 ^ 53)) with (2 * 2 ^ 52)%Z.
    nia.
Qed.

(** The quotient of two integers, when it is at most [2^c] in absolute
    value, is a float within [2^(c-53)] of the exact quotient. *)
Lemma true_div_close (a b c : Z) :
  (0 < b)%Z -> (0 <= c <= 1022)%Z -> (Z.abs a <= 2 ^ c * b)%Z ->
  exists x : Q,
    true_div a b = Ok x
    /\ (Qabs (x - inject_Z a / inject_Z b) <= (2 ^ c) # (2 ^ 53))%Q.
Proof.
  intros Hb Hc Ha. unfold true_div.
  destruct (Z.eqb_spec b 0) as [|_]; [lia|].
  rewrite (Z.sgn_pos b Hb), Z.mul_1_r, (Z.abs_eq b) by lia.
  destruct (to_double_close (a # Z.to_pos b) c Hc) as [x [Hx Hclose]].
  - cbn [Qnum Qden]. rewrite Z2Pos.id by exact Hb. exact Ha.
  - exists x. rewrite Hx. split; [reflexivity|].
    rewrite Qmake_Qdiv, Z2Pos.id in Hclose by exact Hb. exact Hclose.
Qed.

(** [round(x, 3)] of a float below [2^c] is the float nearest to a
    number of thousandths within 1/2000 of [x]; it is within
    [1/2000 + 2^(c-53)] of [x]. *)
Lemma py_round3_close (x : Q) (c : Z) :
  (0 <= c <= 1022)%Z ->
  (Z.abs (Qnum x) + Zpos (Qden x) <= 2 ^ c * Zpos (Qden x))%Z ->
  exists (k : Z) (r : Q),
    py_round3 x = Ok r
    /\ to_double (k # 1000) = Some r
    /\ (Qabs ((k # 1000) - x) <= 1 # 2000)%Q
    /\ (Qabs (r - x) <= (1 # 2000) + ((2 ^ c) # (2 ^ 53)))%Q.
Proof.
  intros Hc Hx. unfold py_round3.
  destruct x as [n d]. cbn [Qnum Qden] in Hx.
  pose proof (round_half_even_close (n * 1000) (d * 1)) as H.
  change ((n # d) * 1000)%Q with ((n * 1000) # (d * 1))%Q.
  set (k := round_half_even ((n * 1000) # (d * 1))%Q) in *.
  rewrite Pos.mul_1_r in H.
  assert (H2c : (0 < 2 ^ c)%Z) by (apply Z.pow_pos_nonneg; lia).
  destruct (to_double_close (k # 1000) c Hc) as [r [Hr Hclose]].
  - cbn [Qnum Qden]. nia.
  - exists k, r. rewrite Hr. split; [reflexivity|].
    split; [reflexivity|].
    assert (Hk : (Qabs ((k # 1000) - (n # d)) <= 1 # 2000)%Q).
    { apply Qabs_Qle_condition.
      unfold Qle, Qminus, Qplus, Qopp. cbn [Qnum Qden].
      rewrite !Pos2Z.inj_mul. lia. }
    split; [exact Hk|].
    setoid_replace (r - (n # d))%Q
      with (((k # 1000) - (n # d)) + (r - (k # 1000)))%Q by ring.
    eapply Qle_trans; [apply Qabs_triangle|].
    apply Qplus_le_compat; assumption.
Qed.

Lemma sum_abs_bound (b : Z) (l : list Z) :
  Forall (fun s => (Z.abs s <= b)%Z) l ->
  (Z.abs (fold_right Z.add 0 l) <= b * Z.of_nat (List.length l))%Z.
Proof.
  induction 1 as [|s l Hs _ IH]; cbn [fold_right List.length].
  - simpl. lia.
  - rewrite Nat2Z.inj_succ. lia.
Qed.

(** The stealth of a path from stealth values below [2^31]: the value
    returned is the float nearest to a number of thousandths that is
    within [1/2000 + 2^-22] of the arithmetic mean, and is itself within
    [1/2000 + 2^-20] of the mean. *)
Lemma rounded_mean_close (v : Z) (values : list Z) :
  Forall (fun s => (Z.abs s <= 2 ^ 31)%Z) (v :: values) ->
  exists (x : Q) (k : Z) (r : Q),
    true_div (py_sum (v :: values)) (Z.of_nat (List.length (v :: values)))
    = Ok x
    /\ py_round3 x = Ok r
    /\ to_double (k # 1000) = Some r
    /\ (Qabs ((k # 1000) - arithmetic_mean (v :: values))
        <= (1 # 2000) + (1 # 2 ^ 22))%Q
    /\ (Qabs (r - arithmetic_mean (v :: values))
        <= (1 # 2000) + (1 # 2 ^ 20))%Q.
Proof.
  intro Hb. pose proof (sum_abs_bound _ _ Hb) as Hsum.
  unfold py_sum, arithmetic_mean.
  rewrite fold_left_add_right, Z.add_0_l.
  set (total := fold_right Z.add 0%Z (v :: values)) in *.
  set (n := Z.of_nat (List.length (v :: values))) in *.
  assert (Hn : (0 < n)%Z)
    by (unfold n; cbn [List.length]; rewrite Nat2Z.inj_succ; lia).
  destruct (true_div_close total n 31 Hn ltac:(lia) Hsum) as [x [Hx Hclose]].
  set (q := (inject_Z total / inject_Z n)%Q) in *.
  assert (Hq : (Qabs q <= inject_Z (2 ^ 31))%Q).
  { unfold q. rewrite <- (Z2Pos.id n Hn), <- Qmake_Qdiv.
    unfold Qabs, Qle. cbn [Qnum Qden inject_Z].
    rewrite Z2Pos.id by exact Hn. lia. }
  assert (Hxb : (Qabs x <= inject_Z (2 ^ 32 - 1))%Q).
  { setoid_replace x with ((x - q) + q)%Q by ring.
    eapply Qle_trans; [apply Qabs_triangle|].
    eapply Qle_trans; [apply Qplus_le_compat; eassumption|].
    vm_compute. discriminate. }
  destruct (py_round3_close x 32 ltac:(lia))
    as [k [r [Hr [Hkr [Hk Hclose']]]]].
  - unfold Qabs, Qle in Hxb. destruct x as [xn xd].
    cbn [Qnum Qden inject_Z] in *. lia.
  - exists x, k, r. split; [exact Hx|]. split; [exact Hr|].
    split; [exact Hkr|]. split.
    + setoid_replace ((k # 1000) - q)%Q
        with (((k # 1000) - x) + (x - q))%Q by ring.
      eapply Qle_trans; [apply Qabs_triangle|].
      eapply Qle_trans; [apply Qplus_le_compat; eassumption|].
      vm_compute. discriminate.
    + setoid_replace (r - q)%Q with ((r - x) + (x - q))%Q by ring.
      eapply Qle_trans; [apply Qabs_triangle|].
      eapply Qle_trans; [apply Qplus_le_compat; eassumption|].
      vm_compute. discriminate.
Qed.

End FloatFacts.

(** The quotient and the rounding on the values that decide between the
    floats and the rationals: 87/80 is a float below 1.0875 and rounds to
    1.087; 2^53 + 1 is not a float; 10^400 is beyond the floats. *)
Lemma float_operations :
  (x <- true_div 87 80 ;; py_round3 x)
  = Ok (4895412794951729 # 4503599627370496)
  /\ true_div (2 ^ 53 + 1) 1 = Ok (inject_Z (2 ^ 53))
  /\ true_div (10 ^ 400) 1 = OverflowError
  /\ true_div (2 ^ 1024 - 2 ^ 970 - 1) 1 = Ok (inject_Z (2 ^ 1024 - 2 ^ 971))
  /\ true_div (2 ^ 1024 - 2 ^ 970) 1 = OverflowError
  /\ py_round3 (1 # 16) = Ok (1116892707587883 # 18014398509481984).
Proof. repeat split; vm_compute; reflexivity. Qed.

(** ** Stealth *)

(** On hops that can be looked up, the stealth is [None] without a defined
    stealth value and [round(sum / len, 3)] of the defined values
    otherwise. *)
Lemma stealth_of_hashable_hops
      (path : nested) (node_dict : node_dict_t) (edge_dict : edge_dict_t)
      (parent : option nested) :
  path_structure path = true ->
  calc_path_stealth path node_dict edge_dict parent
  = match defined_stealth edge_dict (snd (extract_hops path None)) with
    | [] => Ok None
    | v :: values =>
      quotient <- true_div (fold_right Z.add 0%Z (v :: values))
                           (Z.of_nat (List.length (v :: values))) ;;
      rounded <- py_round3 quotient ;;
      Ok (Some rounded)
    end.
Proof.
  intro Hp. unfold calc_path_stealth.
  rewrite (stealth_loop_collects edge_dict _ (extract_hops_hashable path Hp)).
  cbn [app bind].
  destruct (defined_stealth edge_dict (snd (extract_hops path None)))
    as [|v values]; [reflexivity|].
  unfold py_sum. rewrite fold_left_add_right, Z.add_0_l. reflexivity.
Qed.

(** With stealth values of at most 2^31 in absolute value the stealth of
    a path structure is a number: the float nearest to a number of
    thousandths next to the arithmetic mean. *)
Lemma stealth_is_bounded_mean
      (path : nested) (node_dict : node_dict_t) (edge_dict : edge_dict_t)
      (parent : option nested) :
  path_structure path = true ->
  match defined_stealth edge_dict (snd (extract_hops path None)) with
  | [] => calc_path_stealth path node_dict edge_dict parent = Ok None
  | v :: values =>
    Forall (fun s => (Z.abs s <= 2 ^ 31)%Z) (v :: values) ->
    exists (k : Z) (r : Q),
      calc_path_stealth path node_dict edge_dict parent = Ok (Some r)
      /\ to_double (k # 1000) = Some r
      /\ (Qabs ((k # 1000) - arithmetic_mean (v :: values))
          <= (1 # 2000) + (1 # 2 ^ 22))%Q
      /\ (Qabs (r - arithmetic_mean (v :: values))
          <= (1 # 2000) + (1 # 2 ^ 20))%Q
  end.
Proof.
  intro Hp.
  rewrite (stealth_of_hashable_hops path node_dict edge_dict parent Hp).
  destruct (defined_stealth edge_dict (snd (extract_hops path None)))
    as [|v values]; [reflexivity|].
  intro Hb.
  destruct (rounded_mean_close v values Hb)
    as [x [k [r [Hx [Hr [Hkr [Hk Hclose]]]]]]].
  unfold py_sum in Hx. rewrite fold_left_add_right, Z.add_0_l in Hx.
  exists k, r. rewrite Hx. cbn [bind]. rewrite Hr. cbn [bind].
  split; [reflexivity|]. split; [exact Hkr|].
  split; [exact Hk | exact Hclose].
Qed.

(** C4, as the code has it: on a path structure, [calc_path_stealth]
    returns [None] when no hop has an edge with a defined stealth.
    Otherwise it returns [round(sum / len, 3)] of the defined stealth
    values of the hops: the float nearest to their quotient, rounded to
    three decimals and to a float again, or [OverflowError] when the
    quotient is beyond the floats. With stealth values of at most 2^31 in
    absolute value it returns the float nearest to a number of thousandths
    that is within 1/2000 + 2^-22 of their arithmetic mean; the float is
    within 1/2000 + 2^-20 of the mean. *)
Theorem stealth_is_rounded_mean
        (path : nested) (node_dict : node_dict_t) (edge_dict : edge_dict_t)
        (parent : option nested) :
  path_structure path = true ->
  match defined_stealth edge_dict (snd (extract_hops path None)) with
  | [] => calc_path_stealth path node_dict edge_dict parent = Ok None
  | v :: values =>
    calc_path_stealth path node_dict edge_dict parent
    = (quotient <- true_div (fold_right Z.add 0%Z (v :: values))
                            (Z.of_nat (List.length (v :: values))) ;;
       rounded <- py_round3 quotient ;;
       Ok (Some rounded))
    /\ (Forall (fun s => (Z.abs s <= 2 ^ 31)%Z) (v :: values) ->
        exists (k : Z) (r : Q),
          calc_path_stealth path node_dict edge_dict parent = Ok (Some r)
          /\ to_double (k # 1000) = Some r
          /\ (Qabs ((k # 1000) - arithmetic_mean (v :: values))
              <= (1 # 2000) + (1 # 2 ^ 22))%Q
          /\ (Qabs (r - arithmetic_mean (v :: values))
              <= (1 # 2000) + (1 # 2 ^ 20))%Q)
  end.
Proof.
  intro Hp.
  pose proof (stealth_of_hashable_hops path node_dict edge_dict parent Hp)
    as Heq.
  pose proof (stealth_is_bounded_mean path node_dict edge_dict parent Hp)
    as Hb.
  destruct (defined_stealth edge_dict (snd (extract_hops path None)))
    as [|v values]; [exact Heq | split; [exact Heq | exact Hb]].
Qed.

Lemma stealth_is_rounded_mean_witness :
  exists (k : Z) (r : Q),
    calc_path_stealth row_path [] row_edges None = Ok (Some r)
    /\ to_double (k # 1000) = Some r
    /\ (Qabs ((k # 1000) - arithmetic_mean [1; 1; 2]%Z)
        <= (1 # 2000) + (1 # 2 ^ 22))%Q
    /\ (Qabs (r - arithmetic_mean [1; 1; 2]%Z)
        <= (1 # 2000) + (1 # 2 ^ 20))%Q.
Proof.
  destruct (stealth_is_rounded_mean row_path [] row_edges None) as [_ H].
  - vm_compute. reflexivity.
  - apply H. repeat constructor; vm_compute; discriminate.
Defined.

(** C4 as stated fails on four nodes in a row whose edges have stealth 1,
    1 and 2: the mean is 4/3 and the value returned is the float 1.333. *)
Lemma row_stealth_not_the_mean :
  calc_path_stealth row_path [] row_edges None
  = Ok (Some (6003298303284871 # 4503599627370496))
  /\ to_double (1333 # 1000) = Some (6003298303284871 # 4503599627370496)
  /\ arithmetic_mean
       (defined_stealth row_edges (snd (extract_hops row_path None)))
     == 4 # 3
  /\ ~ (6003298303284871 # 4503599627370496 == 4 # 3).
Proof.
  split; [vm_compute; reflexivity|].
  split; [vm_compute; reflexivity|].
  split; [vm_compute; reflexivity|].
  intro H. vm_compute in H. discriminate H.
Qed.

(** A stealth value beyond the floats: the quotient raises. *)
Lemma huge_stealth_overflows :
  calc_path_stealth (NList [Atom "A"; Atom "B"]) [] huge_edges None
  = OverflowError.
Proof. vm_compute. reflexivity. Qed.

(** ** Edge records *)

Lemma edge_dict_fold_keys (es : list edge) :
  forall d : edge_dict_t,
    NoDup (dict_keys d) ->
    NoDup (dict_keys
             (fold_left (fun d e => dict_set pair_eqb d (source e, target e) e)
                        es d)).
Proof.
  induction es as [|e es IH]; intros d H; simpl; [exact H|].
  apply IH. apply (dict_set_NoDup pair_eqb pair_eqb_spec). exact H.
Qed.

Lemma edge_dict_fold_get (es : list edge) (d : edge_dict_t)
      (k : string * string) :
  dict_get pair_eqb
           (fold_left (fun d e => dict_set pair_eqb d (source e, target e) e)
                      es d) k
  = match find (fun e => pair_eqb (edge_pair e) k) (rev es) with
    | Some e => Some e
    | None => dict_get pair_eqb d k
    end.
Proof.
  induction es as [|e es IH] using rev_ind; [reflexivity|].
  rewrite fold_left_app, rev_app_distr. cbn [fold_left rev app find].
  rewrite (dict_get_set pair_eqb pair_eqb_spec), IH.
  unfold edge_pair. destruct (pair_eqb (source e, target e) k); reflexivity.
Qed.

(** C5, as the code has it: in the edge lookup that [load_graph_info]
    builds, the edge declarations with the same ordered pair collapse to
    one record, the last one declared; the keys are pairwise distinct and
    are the pairs of the declared edges. *)
Theorem edge_dict_one_record_per_pair (data : graph_info) :
  let edge_dict := snd (load_graph_info data) in
  NoDup (dict_keys edge_dict)
  /\ (forall k, In k (dict_keys edge_dict)
                <-> In k (map edge_pair (edges data)))
  /\ (forall k, dict_get pair_eqb edge_dict k
                = find (fun e => pair_eqb (edge_pair e) k) (rev (edges data))).
Proof.
  cbn [load_graph_info snd].
  assert (Hget : forall k,
             dict_get pair_eqb
               (fold_left
                  (fun d e => dict_set pair_eqb d (source e, target e) e)
                  (edges data) []) k
             = find (fun e => pair_eqb (edge_pair e) k) (rev (edges data))).
  { intro k. rewrite edge_dict_fold_get.
    destruct (find _ (rev (edges data))); reflexivity. }
  split; [apply edge_dict_fold_keys; constructor|].
  split; [|exact Hget].
  intro k. rewrite <- (dict_mem_In pair_eqb pair_eqb_spec).
  unfold dict_mem. rewrite Hget.
  destruct (find (fun e => pair_eqb (edge_pair e) k) (rev (edges data)))
    as [e|] eqn:E.
  - apply find_some in E. destruct E as [He Hk].
    apply pair_eqb_spec in Hk. subst k.
    split; [intros _|reflexivity].
    apply in_map. apply in_rev. exact He.
  - split; [discriminate|]. intro Hin. exfalso.
    apply in_map_iff in Hin. destruct Hin as [e [Hk He]].
    apply in_rev in He. pose proof (find_none _ _ E e He) as Hf.
    cbv beta in Hf. rewrite Hk in Hf.
    assert (Ht : pair_eqb k k = true) by (apply pair_eqb_spec; reflexivity).
    congruence.
Qed.

(** C5 as stated fails on the edge list of [parse_dot]: an edge declared
    twice gives two records with the same ordered pair. *)
Lemma twice_declared_two_records :
  map edge_pair (edges (parse_dot no_value twice_declared))
  = [("A_x", "A_y"); ("A_x", "A_y")]
  /\ ~ NoDup (map edge_pair (edges (parse_dot no_value twice_declared))).
Proof.
  assert (H : map edge_pair (edges (parse_dot no_value twice_declared))
              = [("A_x", "A_y"); ("A_x", "A_y")])
    by (vm_compute; reflexivity).
  split; [exact H|]. rewrite H. intro Hnd.
  inversion Hnd as [|? ? Hnotin _]; subst. apply Hnotin. left. reflexivity.
Qed.

(** ** Centrality of the parsed nodes *)

Lemma match_node_type (line node_id label node_type : string) :
  match_node line = Some (node_id, label, node_type) ->
  In node_type node_types.
Proof.
  unfold match_node, node_types. intro H.
  destruct (startswith line "CH_").
  { destruct (ch_pattern line) as [[i l]|]; [|discriminate H].
    injection H as _ _ <-.
    destruct (contains "[Physical]" l); [simpl; tauto|].
    destruct (contains "[System]" l); simpl; tauto. }
  destruct (startswith line "A_").
  { destruct (a_pattern line) as [[i l]|]; [|discriminate H].
    injection H as _ _ <-. simpl; tauto. }
  destruct (startswith line "T_").
  { destruct (t_pattern line) as [[i l]|]; [|discriminate H].
    injection H as _ _ <-. simpl; tauto. }
  destruct (startswith line "LOGIC_"); [|discriminate H].
  destruct (logic_pattern line) as [[i l]|]; [|discriminate H].
  injection H as _ _ <-.
  destruct (contains "AND" i); [simpl; tauto|].
  destruct (contains "OR" i); simpl; tauto.
Qed.

Lemma dict_set_Forall (P : string * node -> Prop) (d : nodes_t)
      (k : string) (v : node) :
  (forall k', P (k', v)) -> Forall P d ->
  Forall P (dict_set String.eqb d k v).
Proof.
  intros Hv. induction 1 as [|[k0 v0] d H0 Hd IH]; simpl.
  - constructor; [apply Hv | constructor].
  - destruct (String.eqb k0 k); constructor; auto.
Qed.

Lemma dict_update_Forall (P : string * node -> Prop) (d : nodes_t)
      (k : string) (f : node -> node) :
  (forall k' v, P (k', v) -> P (k', f v)) -> Forall P d ->
  Forall P (dict_update d k f).
Proof.
  intros Hf. induction 1 as [|[k0 v0] d H0 Hd IH]; simpl.
  - constructor.
  - destruct (String.eqb k0 k); constructor; auto.
Qed.

Lemma read_line_types (st : nodes_t * list edge) (raw : string) :
  Forall (fun kv => In (Type' (snd kv)) node_types) (fst st) ->
  Forall (fun kv => In (Type' (snd kv)) node_types) (fst (read_line st raw)).
Proof.
  destruct st as [ns es]. intro H. unfold read_line.
  destruct (negb _); [exact H|].
  destruct (contains "->" (strip raw)).
  - destruct (edge_pattern (strip raw)) as [[src tgt]|]; exact H.
  - destruct (match_node (strip raw)) as [[[i l] ty]|] eqn:E; [|exact H].
    cbn [fst]. apply dict_set_Forall; [|exact H].
    intro k'. cbn [snd Type']. apply (match_node_type _ _ _ _ E).
Qed.

Lemma read_lines_types (lines : list string) :
  forall st,
    Forall (fun kv => In (Type' (snd kv)) node_types) (fst st) ->
    Forall (fun kv => In (Type' (snd kv)) node_types)
           (fst (fold_left read_line lines st)).
Proof.
  induction lines as [|raw lines IH]; intros st H; simpl; [exact H|].
  apply IH. apply read_line_types. exact H.
Qed.

Lemma link_nodes_types (es : list edge) :
  forall ns : nodes_t,
    Forall (fun kv => In (Type' (snd kv)) node_types) ns ->
    Forall (fun kv => In (Type' (snd kv)) node_types) (link_nodes ns es).
Proof.
  unfold link_nodes.
  induction es as [|e es IH]; intros ns H; simpl; [exact H|].
  apply IH.
  assert (H1 : Forall (fun kv => In (Type' (snd kv)) node_types)
                      (if dict_mem String.eqb ns (source e)
                       then dict_update ns (source e)
                                        (append_Target (target e))
                       else ns)).
  { destruct (dict_mem String.eqb ns (source e)); [|exact H].
    apply dict_update_Forall; [|exact H]. intros k v Hv. exact Hv. }
  destruct (dict_mem String.eqb _ (target e)); [|exact H1].
  apply dict_update_Forall; [|exact H1]. intros k v Hv. exact Hv.
Qed.

(** C9: in the graph that [parse_dot] builds from any text, with any
    betweenness values, a node of type AND and a node of one of the three
    channel types have centrality exactly 0; a node whose centrality is not
    0 has type trigger, action, OR or logic. *)
Theorem gate_and_channel_centrality_zero
        (betweenness_centrality :
           list string -> list (string * string) -> pydict (K := string) (V := Q))
        (lines : list string) (n : node) :
  In n (nodes (parse_dot betweenness_centrality lines)) ->
  (Type' n = "AND"
   \/ In (Type' n) ["physical_channel"; "system_channel"; "channel"] ->
   centrality n = Some 0%Q)
  /\ (forall c, centrality n = Some c -> ~ c == 0 ->
                In (Type' n) ["trigger"; "action"; "OR"; "logic"]).
Proof.
  unfold parse_dot.
  pose proof (read_lines_types lines ([], []) (Forall_nil _)) as Hty.
  destruct (fold_left read_line lines ([], [])) as [nodes0 es].
  cbn [fst] in Hty. apply link_nodes_types with (es := es) in Hty.
  set (cen := subgraph_centrality betweenness_centrality
                                  (link_nodes nodes0 es) es).
  cbn [nodes]. unfold dict_values. rewrite map_map. intro Hin.
  apply in_map_iff in Hin. destruct Hin as [[k v] [<- Hkv]].
  rewrite Forall_forall in Hty. specialize (Hty _ Hkv). cbn [snd] in Hty.
  assert (Hzero : Type' v = "AND"
                  \/ In (Type' v)
                        ["physical_channel"; "system_channel"; "channel"] ->
                  centrality (snd (assign_centrality cen (k, v))) = Some 0%Q).
  { intro H. unfold assign_centrality, is_channel_type.
    destruct H as [H|[H|[H|[H|[]]]]];
      first [rewrite H; reflexivity | rewrite <- H; reflexivity]. }
  assert (Htype : Type' (snd (assign_centrality cen (k, v))) = Type' v).
  { unfold assign_centrality. destruct (_ && _); reflexivity. }
  rewrite Htype. split; [exact Hzero|].
  intros c Hc Hnz. unfold node_types in Hty. simpl in Hty |- *.
  destruct Hty as [H|[H|[H|[H|[H|[H|[H|[H|[]]]]]]]]]; auto;
    exfalso; apply Hnz;
    (rewrite Hzero in Hc; [injection Hc as <-; reflexivity|]);
    simpl; auto.
Qed.

Lemma gate_and_channel_centrality_zero_witness :
  let n := mk_node "LOGIC_AND_1" "AND" "AND" ["A_Rule_1_0"]
                   ["T_Rule_1_0"; "CH_temp"] (Some 0%Q) in
  (Type' n = "AND"
   \/ In (Type' n) ["physical_channel"; "system_channel"; "channel"] ->
   centrality n = Some 0%Q)
  /\ (forall c, centrality n = Some c -> ~ c == 0 ->
                In (Type' n) ["trigger"; "action"; "OR"; "logic"]).
Proof.
  apply (gate_and_channel_centrality_zero all_one gate_text).
  vm_compute. right. right. right. left. reflexivity.
Defined.

(** ** The AND gate example, for any id of the gate *)

Lemma for_each_deterministic {A S : Type} (l : list A)
      (body1 body2 : A -> S -> option S) :
  (forall x s r r', body1 x s = Some r -> body2 x s = Some r' -> r = r') ->
  forall s r r',
    for_each l body1 s = Some r -> for_each l body2 s = Some r' -> r = r'.
Proof.
  intro H. unfold for_each.
  induction l as [|x l IH]; intros s r r' H1 H2; cbn [fold_left] in *.
  - congruence.
  - destruct (body1 x s) as [s1|] eqn:E1;
      [|rewrite for_each_None in H1; discriminate H1].
    destruct (body2 x s) as [s2|] eqn:E2;
      [|rewrite for_each_None in H2; discriminate H2].
    rewrite (H x s s1 s2 E1 E2) in H1. apply (IH s2); assumption.
Qed.

(** The depth allowed does not change what a search returns. *)
Lemma find_paths_deterministic (self : DirectedGraphPathFinder) :
  forall d D current path acc r r',
    _find_paths_recursive self d current path acc = Some r ->
    _find_paths_recursive self D current path acc = Some r' ->
    r = r'.
Proof.
  induction d as [|d IH]; intros D current path acc r r' H1 H2;
    [discriminate H1|].
  destruct D as [|D]; [discriminate H2|].
  cbn [_find_paths_recursive] in H1, H2.
  destruct (str_in current path); [congruence|].
  destruct (predecessors_of self current) as [|pred0 preds]; [congruence|].
  destruct ((List.length (pred0 :: preds) =? 1) && type_is_AND self pred0).
  - destruct (predecessors_of self pred0) as [|i0 inputs]; [congruence|].
    revert H1 H2. apply for_each_deterministic.
    intros x s q q'. apply IH.
  - revert H1 H2. apply for_each_deterministic.
    intros x s q q'. apply IH.
Qed.

Lemma truthy_nonempty (s : string) : s <> EmptyString -> truthy s = true.
Proof. destruct s; [congruence | reflexivity]. Qed.

Ltac ground_string s :=
  lazymatch s with
  | EmptyString => idtac
  | String _ ?s' => ground_string s'
  end.

(** One test on strings, decided by the hypotheses on the gate id or by
    evaluation. *)
Ltac decide_string_test :=
  match goal with
  | |- context [String.eqb ?a ?a] => rewrite (String.eqb_refl a)
  | H : ?a <> ?b |- context [String.eqb ?a ?b] =>
    rewrite (proj2 (String.eqb_neq a b) H)
  | H : ?a <> ?b |- context [String.eqb ?b ?a] =>
    rewrite (proj2 (String.eqb_neq b a) (not_eq_sym H))
  | |- context [String.eqb ?a ?b] =>
    ground_string a; ground_string b;
    let v := eval vm_compute in (String.eqb a b) in
    change (String.eqb a b) with v
  | H : ?a <> EmptyString |- context [truthy ?a] =>
    rewrite (truthy_nonempty a H)
  | |- context [truthy ?a] =>
    ground_string a;
    let v := eval vm_compute in (truthy a) in change (truthy a) with v
  end.

Ltac evaluate_on_gate :=
  repeat (progress
            (unfold predecessors_of, type_is_AND, dict_get_default, dict_mem,
                    pred_map_append, for_each;
             cbn -[String.eqb truthy String.prefix];
             repeat decide_string_test)).

Section AndGate.
Variable g : string.
Hypothesis g_nonempty : g <> EmptyString.
Hypothesis g_P1 : g <> "P1".
Hypothesis g_P2 : g <> "P2".
Hypothesis g_Q : g <> "Q".
Hypothesis g_T : g <> "T".

Lemma and_graph_search :
  _find_paths_recursive (init (and_graph g)) 4 "T" [] []
  = Some [["P1"; g; "T"]; ["P2"; "Q"; g; "T"]].
Proof. unfold init, and_graph, _build_predecessor_map. evaluate_on_gate. reflexivity. Qed.

Lemma and_graph_paths :
  find_all_paths_to_target (init (and_graph g)) "T"
  = [["T"; g; "P1"]; ["T"; g; "Q"; "P2"]].
Proof.
  destruct (find_all_paths_to_target_search (and_graph g) "T")
    as [bp [Hbp ->]].
  - simpl. tauto.
  - rewrite (find_paths_deterministic _ _ _ _ _ _ _ _ Hbp and_graph_search).
    reflexivity.
Qed.

Lemma and_graph_structure :
  get_paths_as_lists (init (and_graph g)) "T"
  = [NList [NList [NList [Atom "P2"; Atom "Q"]; NList [Atom "P1"]];
            Atom g; Atom "T"]].
Proof.
  unfold get_paths_as_lists. rewrite and_graph_paths.
  unfold init, and_graph, _build_forest_from_paths, type_is_AND.
  evaluate_on_gate. reflexivity.
Qed.
End AndGate.

(** C3, as the code has it: for the target T whose only predecessor is the
    AND gate g, fed by the branch P1 and by the branch P2 -> Q, the one
    path structure has four counted nodes, and the gate is taken off as a
    logic node exactly when its id starts with [LOGIC_]: the length is
    max(1,2) = 2 for such an id and max(1,2) + 1 = 3 for any other. *)
Theorem and_gate_length_any_id (g : string) node_dict edge_dict parent :
  g <> EmptyString -> g <> "P1" -> g <> "P2" -> g <> "Q" -> g <> "T" ->
  map (fun p => calc_path_length p node_dict edge_dict parent)
      (get_paths_as_lists (init (and_graph g)) "T")
  = [if String.prefix "LOGIC_" g then 2%Z else 3%Z].
Proof.
  intros H0 H1 H2 H3 H4.
  rewrite (and_graph_structure g H0 H1 H2 H3 H4).
  cbn -[String.prefix]. unfold calc_path_length.
  cbn -[String.prefix].
  destruct (String.prefix "LOGIC_" g); reflexivity.
Qed.

Lemma and_gate_length_any_id_witness :
  map (fun p => calc_path_length p [] [] None)
      (get_paths_as_lists (init (and_graph "LOGIC_AND_1")) "T")
  = [2%Z].
Proof.
  apply (and_gate_length_any_id "LOGIC_AND_1" [] [] None);
    intro H; discriminate H.
Defined.

(** Outside the path structures the lookup of a hop can raise: after a
    list item that another list follows, [prev] is that list. *)
Lemma adjacent_lists_raise :
  snd (extract_hops (NList [NList [Atom "A"]; NList [Atom "B"]; Atom "C"])
                    None)
  = [(Atom "A", "B"); (NList [Atom "B"], "B"); (Atom "B", "C")]
  /\ calc_path_cost (NList [NList [Atom "A"]; NList [Atom "B"]; Atom "C"])
                    [] [] None
     = TypeError.
Proof. split; vm_compute; reflexivity. Qed.

(* ================================================================== *)
(** * Further properties of the three modules                          *)
(* ================================================================== *)

(** ** Lookups of the path finder *)

(** Reversing a nested list twice gives the list back. *)
Theorem reverse_nested_list_involutive (x : nested) :
  reverse_nested_list (reverse_nested_list x) = x.
Proof.
  induction x as [s|l IH] using nested_ind'; [reflexivity|].
  cbn [reverse_nested_list]. f_equal.
  rewrite <- map_rev, rev_involutive, map_map.
  rewrite <- (map_id l) at 2. apply map_ext_Forall. exact IH.
Qed.

Lemma pred_map_fold_get (es : list edge) :
  forall (pm : pydict) (t : string),
    dict_get_default String.eqb
      (fold_left
         (fun pred_map e =>
            if truthy (source e) && truthy (target e)
            then pred_map_append pred_map (target e) (source e)
            else pred_map) es pm) t []
    = dict_get_default String.eqb pm t []
      ++ map source
             (filter (fun e => recorded e && String.eqb (target e) t) es).
Proof.
  induction es as [|e es IH]; intros pm t; cbn [fold_left filter map].
  - rewrite app_nil_r. reflexivity.
  - rewrite IH. unfold recorded at 2.
    destruct (truthy (source e) && truthy (target e)); cbn [andb].
    + rewrite pred_map_append_get.
      destruct (String.eqb (target e) t) eqn:E; [|reflexivity].
      apply String.eqb_eq in E. subst t.
      cbn [map]. rewrite <- app_assoc. reflexivity.
    + reflexivity.
Qed.

(** The predecessor list of a node is the list of the sources of the
    edges into it, in the order of the edge list and with repetitions;
    an edge with an empty end is left out. *)
Theorem predecessors_of_init (data : graph_info) (t : string) :
  predecessors_of (init data) t
  = map source
        (filter (fun e => recorded e && String.eqb (target e) t)
                (edges data)).
Proof.
  unfold predecessors_of, init, _build_predecessor_map.
  cbn [predecessors_map]. rewrite pred_map_fold_get. reflexivity.
Qed.

Lemma nodes_info_fold_get (ns : list node) (d : pydict) (k : string) :
  dict_get String.eqb
           (fold_left (fun d n => dict_set String.eqb d (ID n) n) ns d) k
  = match find (fun n => String.eqb (ID n) k) (rev ns) with
    | Some n => Some n
    | None => dict_get String.eqb d k
    end.
Proof.
  induction ns as [|n ns IH] using rev_ind; [reflexivity|].
  rewrite fold_left_app, rev_app_distr. cbn [fold_left rev app find].
  rewrite (dict_get_set String.eqb String.eqb_eq), IH.
  destruct (String.eqb (ID n) k); reflexivity.
Qed.

(** [get_node_info] returns the last declared node with the id asked for,
    and nothing exactly when no node has it. *)
Theorem get_node_info_last_declared (data : graph_info) (node_id : string) :
  get_node_info (init data) node_id
  = find (fun n => String.eqb (ID n) node_id) (rev (nodes data))
  /\ (get_node_info (init data) node_id = None
      <-> ~ In node_id (map ID (nodes data)))
  /\ (forall n, get_node_info (init data) node_id = Some n ->
                ID n = node_id /\ In n (nodes data)).
Proof.
  assert (H : get_node_info (init data) node_id
              = find (fun n => String.eqb (ID n) node_id) (rev (nodes data))).
  { unfold get_node_info, init. cbn [nodes_info].
    rewrite nodes_info_fold_get.
    destruct (find _ (rev (nodes data))); reflexivity. }
  split; [exact H|]. rewrite H. split.
  - split.
    + intros Hnone Hin. apply in_map_iff in Hin.
      destruct Hin as [n [Hid Hn]]. apply in_rev in Hn.
      pose proof (find_none _ _ Hnone n Hn) as Hf. cbv beta in Hf.
      rewrite Hid, String.eqb_refl in Hf. discriminate Hf.
    + intro Hnot.
      destruct (find (fun n => String.eqb (ID n) node_id) (rev (nodes data)))
        as [n|] eqn:E; [|reflexivity].
      exfalso. apply find_some in E. destruct E as [Hn Hid].
      apply String.eqb_eq in Hid. apply Hnot. rewrite <- Hid.
      apply in_map. apply in_rev. exact Hn.
  - intros n Hs. apply find_some in Hs. destruct Hs as [Hn Hid].
    apply String.eqb_eq in Hid. split; [exact Hid|].
    apply in_rev. exact Hn.
Qed.

Lemma find_unique_rev {A : Type} (f : A -> bool) (l : list A) :
  (forall x y, In x l -> In y l -> f x = true -> f y = true -> x = y) ->
  find f (rev l) = find f l.
Proof.
  induction l as [|a l IH]; intro H; [reflexivity|].
  cbn [rev find]. 
  assert (IH' : find f (rev l) = find f l).
  { apply IH. intros x y Hx Hy. apply H; right; assumption. }
  destruct (f a) eqn:Ea.
  - destruct (find f (rev l ++ [a])) as [b|] eqn:E.
    + apply find_some in E. destruct E as [Hb Hfb].
      f_equal. apply H; auto.
      * apply in_app_or in Hb. destruct Hb as [Hb|[Hb|[]]].
        -- right. apply in_rev. exact Hb.
        -- left. exact Hb.
      * left. reflexivity.
    + exfalso. pose proof (find_none _ _ E a) as Hn.
      rewrite Ea in Hn. discriminate Hn.
      apply in_or_app. right. left. reflexivity.
  - rewrite <- IH'. clear -Ea.
    induction (rev l) as [|b m IHm]; cbn [app find].
    + rewrite Ea. reflexivity.
    + destruct (f b); [reflexivity | exact IHm].
Qed.

(** [get_edge_info] returns the first edge of a pair and the lookup of
    the scorer the last one: they agree when no pair is declared twice. *)
Theorem get_edge_info_agrees_with_edge_dict
        (data : graph_info) (source_id target_id : string) :
  NoDup (map edge_pair (edges data)) ->
  get_edge_info (init data) source_id target_id
  = dict_get pair_eqb (snd (load_graph_info data)) (source_id, target_id).
Proof.
  intro Hnd. cbn [load_graph_info snd]. rewrite edge_dict_fold_get.
  cbn [dict_get]. unfold get_edge_info, init. cbn [self_edges].
  rewrite find_unique_rev.
  - assert (Hext : find (fun e => pair_eqb (edge_pair e) (source_id, target_id))
                        (edges data)
                   = find (fun e => String.eqb (source e) source_id
                                    && String.eqb (target e) target_id)
                          (edges data)).
    { reflexivity. }
    rewrite Hext. destruct (find _ (edges data)); reflexivity.
  - intros x y Hx Hy Fx Fy.
    apply pair_eqb_spec in Fx. apply pair_eqb_spec in Fy.
    assert (Hxy : edge_pair x = edge_pair y) by congruence.
    clear Fx Fy. revert Hnd Hx Hy Hxy. generalize (edges data). clear.
    induction l as [|a l IH]; intros Hnd Hx Hy Hxy; [destruct Hx|].
    cbn [map] in Hnd. inversion Hnd as [|? ? Hnotin Hnd']; subst.
    destruct Hx as [Hx|Hx], Hy as [Hy|Hy]; subst.
    + reflexivity.
    + exfalso. apply Hnotin. rewrite Hxy. apply in_map. exact Hy.
    + exfalso. apply Hnotin. rewrite <- Hxy. apply in_map. exact Hx.
    + apply IH; assumption.
Qed.

Lemma get_edge_info_agrees_with_edge_dict_witness :
  get_edge_info (init chain_graph) "A" "B"
  = dict_get pair_eqb (snd (load_graph_info chain_graph)) ("A", "B").
Proof.
  apply (get_edge_info_agrees_with_edge_dict chain_graph "A" "B").
  simpl. constructor.
  - simpl. intros [H|[]]. discriminate H.
  - constructor; [simpl; tauto | constructor].
Defined.

(** ** The reverse search *)

(** A target without predecessor has one path, the target alone. *)
Theorem target_without_predecessor (data : graph_info) (target_id : string) :
  In target_id (map ID (nodes data)) ->
  predecessors_of (init data) target_id = [] ->
  find_all_paths_to_target (init data) target_id = [[target_id]]
  /\ get_paths_as_lists (init data) target_id = [NList [Atom target_id]].
Proof.
  intros Hin Hp.
  assert (H : find_all_paths_to_target (init data) target_id = [[target_id]]).
  { unfold find_all_paths_to_target.
    replace (dict_mem String.eqb (nodes_info (init data)) target_id) with true
      by (symmetry; unfold init; cbn [nodes_info];
          apply nodes_info_mem; right; exact Hin).
    unfold depth_bound. cbn [negb _find_paths_recursive str_in].
    rewrite Hp. reflexivity. }
  split; [exact H|].
  unfold get_paths_as_lists. rewrite H.
  cbn [_build_forest_from_paths fold_left insert_path flat_map
       _split_tree_at_or_nodes app map _convert_tree_to_list
       reverse_nested_list rev].
  reflexivity.
Qed.

Lemma target_without_predecessor_witness :
  find_all_paths_to_target (init chain_graph) "A" = [["A"]]
  /\ get_paths_as_lists (init chain_graph) "A" = [NList [Atom "A"]].
Proof.
  apply (target_without_predecessor chain_graph "A").
  - simpl. tauto.
  - vm_compute. reflexivity.
Defined.

Lemma chain_cons {A : Type} (R : A -> A -> Prop) (x : A) (l : list A) :
  chain R l ->
  match l with y :: _ => R x y | [] => True end ->
  chain R (x :: l).
Proof. intros Hl Hx. destruct l; simpl; auto. Qed.

Lemma chain_tail {A : Type} (R : A -> A -> Prop) (x : A) (l : list A) :
  chain R (x :: l) -> chain R l.
Proof. destruct l; simpl; tauto. Qed.

Lemma chain_neighbours {A : Type} (R : A -> A -> Prop) (l : list A) :
  chain R l ->
  forall front x y back, l = front ++ x :: y :: back -> R x y.
Proof.
  intros Hl front. revert l Hl.
  induction front as [|a front IH]; intros l Hl x y back ->.
  - simpl in Hl. tauto.
  - apply chain_tail in Hl.
    exact (IH (front ++ x :: y :: back) Hl x y back eq_refl).
Qed.

Lemma chain_app {A : Type} (R : A -> A -> Prop) (l m : list A) :
  chain R l -> chain R m ->
  (forall x y, last l y = x -> l <> [] ->
               match m with z :: _ => R x z | [] => True end) ->
  chain R (l ++ m).
Proof.
  induction l as [|a l IH]; intros Hl Hm Hj; [exact Hm|].
  destruct l as [|b l'].
  - cbn [app]. apply chain_cons; [exact Hm|].
    apply (Hj a a); [reflexivity | discriminate].
  - change (R a b /\ chain R ((b :: l') ++ m)).
    destruct Hl as [Hab Hl]. split; [exact Hab|].
    apply IH; [exact Hl | exact Hm|].
    intros x y Hx _. apply (Hj x y); [exact Hx | discriminate].
Qed.

Lemma chain_rev {A : Type} (R : A -> A -> Prop) (l : list A) :
  chain R l -> chain (fun x y => R y x) (rev l).
Proof.
  induction l as [|a l IH]; intro H; [exact I|].
  cbn [rev]. apply chain_app.
  - apply IH. apply chain_tail in H. exact H.
  - exact I.
  - intros x y Hx Hne. destruct l as [|b l']; [contradiction Hne; reflexivity|].
    cbn [rev] in Hx. rewrite last_last in Hx. subst x.
    simpl in H. tauto.
Qed.

(** A call on a predecessor of the head of a chain of predecessors appends
    chains of predecessors. *)
Lemma find_paths_chains (self : DirectedGraphPathFinder) :
  forall depth current path acc r,
    chain (fun a b => In a (predecessors_of self b)) path ->
    match path with
    | h :: _ => In current (predecessors_of self h)
    | [] => True
    end ->
    _find_paths_recursive self depth current path acc = Some r ->
    exists emitted,
      r = acc ++ emitted
      /\ Forall (chain (fun a b => In a (predecessors_of self b))) emitted.
Proof.
  induction depth as [|depth IH]; intros current path acc r Hch Hcur Hr;
    [discriminate|].
  cbn [_find_paths_recursive] in Hr.
  destruct (str_in current path).
  { injection Hr as <-. exists [path]. split; [reflexivity|].
    constructor; [exact Hch | constructor]. }
  assert (Hnew : chain (fun a b => In a (predecessors_of self b))
                       (current :: path)).
  { apply chain_cons; assumption. }
  destruct (predecessors_of self current) as [|pred0 preds] eqn:Hp.
  { injection Hr as <-. exists [current :: path]. split; [reflexivity|].
    constructor; [exact Hnew | constructor]. }
  destruct ((List.length (pred0 :: preds) =? 1) && type_is_AND self pred0).
  - assert (Hgate : chain (fun a b => In a (predecessors_of self b))
                          (pred0 :: current :: path)).
    { apply chain_cons; [exact Hnew|]. rewrite Hp. left. reflexivity. }
    destruct (predecessors_of self pred0) as [|i0 inputs] eqn:Hi.
    { injection Hr as <-. exists [pred0 :: current :: path].
      split; [reflexivity|]. constructor; [exact Hgate | constructor]. }
    revert Hr. apply for_each_emits.
    intros x s r' Hx Hcall. apply (IH x (pred0 :: current :: path));
      [exact Hgate | rewrite Hi; exact Hx | exact Hcall].
  - revert Hr. apply for_each_emits.
    intros x s r' Hx Hcall. apply (IH x (current :: path));
      [exact Hnew | rewrite Hp; exact Hx | exact Hcall].
Qed.

(** Every two neighbours of a returned sequence are joined by an edge of
    the graph, from the later one to the earlier one. *)
Theorem returned_paths_follow_edges
        (data : graph_info) (target_id : string) (p : list string) :
  In p (find_all_paths_to_target (init data) target_id) ->
  forall front x y back,
    p = front ++ x :: y :: back ->
    exists e, In e (edges data) /\ source e = y /\ target e = x.
Proof.
  unfold find_all_paths_to_target.
  destruct (negb (dict_mem String.eqb (nodes_info (init data)) target_id));
    [intros []|].
  destruct (_find_paths_recursive (init data) (depth_bound (init data))
                                  target_id [] []) as [bp|] eqn:E;
    [|intros []].
  intro Hp. apply in_map_iff in Hp. destruct Hp as [b [<- Hb]].
  apply find_paths_chains in E; [|exact I|exact I].
  destruct E as [emitted [-> Hall]]. simpl in Hb.
  rewrite Forall_forall in Hall. specialize (Hall b Hb).
  apply chain_rev in Hall.
  intros front x y back Heq.
  apply predecessors_are_edges.
  exact (chain_neighbours _ _ Hall front x y back Heq).
Qed.

Lemma returned_paths_follow_edges_witness :
  exists e, In e (edges chain_graph) /\ source e = "B" /\ target e = "T".
Proof.
  apply (returned_paths_follow_edges chain_graph "T" ["T"; "B"; "A"]
           ltac:(vm_compute; left; reflexivity) [] "T" "B" ["A"]).
  reflexivity.
Defined.

(** ** The forest of the paths *)

Lemma insert_path_ids (x : string) (rest : list string) (cs : list tree) :
  map tree_id (insert_path (x :: rest) cs)
  = if str_in x (map tree_id cs)
    then map tree_id cs else map tree_id cs ++ [x].
Proof.
  cbn [insert_path]. induction cs as [|c cs IH]; [reflexivity|].
  cbn [map str_in]. destruct (String.eqb (tree_id c) x); [reflexivity|].
  cbn [orb map]. rewrite IH.
  destruct (str_in x (map tree_id cs)); reflexivity.
Qed.

Lemma forest_fold_roots (paths : list (list string)) :
  forall forest,
    NoDup (map tree_id forest) ->
    let result :=
        fold_left (fun forest path =>
                     match path with
                     | [] => forest
                     | _ :: _ => insert_path path forest
                     end) paths forest in
    NoDup (map tree_id result)
    /\ forall x, In x (map tree_id result)
                 <-> In x (map tree_id forest)
                     \/ exists rest, In (x :: rest) paths.
Proof.
  induction paths as [|p paths IH]; intros forest Hnd; cbn [fold_left].
  - split; [exact Hnd|]. intro x. split; [tauto|].
    intros [H|[rest []]]. exact H.
  - destruct p as [|y rest].
    + destruct (IH forest Hnd) as [H1 H2]. split; [exact H1|].
      intro x. rewrite H2. split.
      * intros [H|[r Hr]]; [tauto|]. right. exists r. right. exact Hr.
      * intros [H|[r [Hr|Hr]]]; [tauto | discriminate Hr|].
        right. exists r. exact Hr.
    + assert (Hids := insert_path_ids y rest forest).
      assert (Hnd' : NoDup (map tree_id (insert_path (y :: rest) forest))).
      { rewrite Hids. destruct (str_in y (map tree_id forest)) eqn:E;
          [exact Hnd|].
        apply str_in_false in E.
        apply NoDup_app; [exact Hnd | constructor; [simpl; tauto|constructor]|].
        intros z Hz [<-|[]]. contradiction. }
      destruct (IH _ Hnd') as [H1 H2]. split; [exact H1|].
      intro x. rewrite H2, Hids. split.
      * intros [H|[r Hr]].
        -- destruct (str_in y (map tree_id forest)); [tauto|].
           apply in_app_or in H. destruct H as [H|[<-|[]]]; [tauto|].
           right. exists rest. left. reflexivity.
        -- right. exists r. right. exact Hr.
      * intros [H|[r [Hr|Hr]]].
        -- left. destruct (str_in y (map tree_id forest)); [exact H|].
           apply in_or_app. left. exact H.
        -- injection Hr as -> ->. left.
           destruct (str_in x (map tree_id forest)) eqn:E.
           ++ apply str_in_In. exact E.
           ++ apply in_or_app. right. left. reflexivity.
        -- right. exists r. exact Hr.
Qed.

(** The forest has one tree per distinct start node of the paths: the
    root ids are pairwise distinct and are the first elements of the
    non-empty paths. *)
Theorem forest_one_tree_per_start (paths : list (list string)) :
  NoDup (map tree_id (_build_forest_from_paths paths))
  /\ forall x, In x (map tree_id (_build_forest_from_paths paths))
               <-> exists rest, In (x :: rest) paths.
Proof.
  destruct (forest_fold_roots paths [] (NoDup_nil _)) as [H1 H2].
  split; [exact H1|]. intro x. rewrite H2. simpl. tauto.
Qed.

Lemma distinct_siblings_unfold (id : string) (children : list tree) :
  distinct_siblings (Tree id children)
  <-> NoDup (map tree_id children) /\ Forall distinct_siblings children.
Proof.
  cbn [distinct_siblings].
  assert (H : (fix all (l : list tree) : Prop :=
                 match l with
                 | [] => True
                 | c :: l' => distinct_siblings c /\ all l'
                 end) children <-> Forall distinct_siblings children).
  { induction children as [|c cs IH]; split; intro H.
    - constructor.
    - exact I.
    - destruct H as [Hc Hcs]. constructor; [exact Hc | apply IH, Hcs].
    - inversion H; subst. split; [assumption | apply IH; assumption]. }
  rewrite H. reflexivity.
Qed.

Lemma insert_path_distinct (path : list string) :
  forall cs,
    NoDup (map tree_id cs) -> Forall distinct_siblings cs ->
    NoDup (map tree_id (insert_path path cs))
    /\ Forall distinct_siblings (insert_path path cs).
Proof.
  induction path as [|x rest IH]; intros cs Hnd Hall; [split; assumption|].
  split.
  - rewrite insert_path_ids. destruct (str_in x (map tree_id cs)) eqn:E;
      [exact Hnd|].
    apply str_in_false in E.
    apply NoDup_app; [exact Hnd | constructor; [simpl; tauto|constructor]|].
    intros z Hz [<-|[]]. contradiction.
  - cbn [insert_path]. clear Hnd.
    induction Hall as [|c cs Hc Hcs IHcs].
    + constructor; [|constructor].
      apply distinct_siblings_unfold. apply IH; constructor.
    + destruct (String.eqb (tree_id c) x).
      * constructor; [|exact Hcs].
        destruct c as [i ch]. apply distinct_siblings_unfold in Hc.
        apply distinct_siblings_unfold. apply IH; tauto.
      * constructor; [exact Hc | exact IHcs].
Qed.

(** Shared prefixes are merged: below every node of the forest the
    children have pairwise distinct ids. *)
Theorem forest_siblings_distinct (paths : list (list string)) :
  Forall distinct_siblings (_build_forest_from_paths paths).
Proof.
  unfold _build_forest_from_paths.
  assert (H : forall forest,
             NoDup (map tree_id forest) -> Forall distinct_siblings forest ->
             Forall distinct_siblings
                    (fold_left (fun forest path =>
                                  match path with
                                  | [] => forest
                                  | _ :: _ => insert_path path forest
                                  end) paths forest)).
  { induction paths as [|p paths IH]; intros forest Hnd Hall; [exact Hall|].
    cbn [fold_left]. destruct p as [|y rest]; [apply IH; assumption|].
    destruct (insert_path_distinct (y :: rest) forest Hnd Hall).
    apply IH; assumption. }
  apply H; constructor.
Qed.

Lemma insert_path_has_path (path : list string) :
  forall cs, has_path path (insert_path path cs).
Proof.
  induction path as [|x rest IH]; intro cs; [exact I|].
  cbn [insert_path has_path]. induction cs as [|c cs IHcs].
  - eexists. split; [left; reflexivity|]. split; [reflexivity | apply IH].
  - destruct (String.eqb (tree_id c) x) eqn:E.
    + apply String.eqb_eq in E. eexists. split; [left; reflexivity|].
      split; [exact E | apply IH].
    + destruct IHcs as [c' [Hin H]]. exists c'. split; [right; exact Hin|].
      exact H.
Qed.

Lemma insert_path_keeps_path (path : list string) :
  forall cs q, has_path q cs -> has_path q (insert_path path cs).
Proof.
  induction path as [|x rest IH]; intros cs q Hq; [exact Hq|].
  destruct q as [|y q']; [exact I|].
  cbn [has_path] in Hq |- *. destruct Hq as [c [Hin [Hid Hq']]].
  cbn [insert_path]. induction cs as [|c0 cs IHcs]; [destruct Hin|].
  destruct (String.eqb (tree_id c0) x) eqn:E.
  - destruct Hin as [->|Hin].
    + eexists. split; [left; reflexivity|]. split; [exact Hid|].
      cbn [tree_children]. apply IH. exact Hq'.
    + exists c. split; [right; exact Hin | tauto].
  - destruct Hin as [->|Hin].
    + exists c. split; [left; reflexivity | tauto].
    + destruct (IHcs Hin) as [c' [Hin' H']].
      exists c'. split; [right; exact Hin' | exact H'].
Qed.

Lemma forest_holds_every_path_aux (paths : list (list string)) (p : list string) :
  In p paths -> has_path p (_build_forest_from_paths paths).
Proof.
  unfold _build_forest_from_paths.
  assert (H : forall forest,
             (has_path p forest \/ In p paths) ->
             has_path p
                      (fold_left (fun forest path =>
                                    match path with
                                    | [] => forest
                                    | _ :: _ => insert_path path forest
                                    end) paths forest)).
  { induction paths as [|p0 paths IH]; intros forest Hp.
    - destruct Hp as [Hp|[]]. exact Hp.
    - cbn [fold_left]. apply IH.
      destruct Hp as [Hp|[->|Hp]].
      + left. destruct p0; [exact Hp|]. apply insert_path_keeps_path, Hp.
      + left. destruct p; [exact I|]. apply insert_path_has_path.
      + right. exact Hp. }
  intro Hin. apply H. right. exact Hin.
Qed.

(** Every path given to [_build_forest_from_paths] can be followed in the
    forest, from a root downwards. *)
Theorem forest_holds_every_path (paths : list (list string)) (p : list string) :
  In p paths -> has_path p (_build_forest_from_paths paths).
Proof. exact (forest_holds_every_path_aux paths p). Qed.

Lemma forest_holds_every_path_witness :
  has_path ["T"; "G"; "Q"; "P2"]
           (_build_forest_from_paths
              [["T"; "G"; "P1"]; ["T"; "G"; "Q"; "P2"]]).
Proof.
  apply (forest_holds_every_path
           [["T"; "G"; "P1"]; ["T"; "G"; "Q"; "P2"]] ["T"; "G"; "Q"; "P2"]).
  simpl. tauto.
Defined.

(** ** Splitting at OR nodes *)

Lemma flat_map_nonempty {A B : Type} (f : A -> list B) (x : A) (l : list A) :
  f x <> [] -> flat_map f (x :: l) <> [].
Proof.
  intro H. cbn [flat_map]. destruct (f x); [contradiction H; reflexivity|].
  discriminate.
Qed.

(** The trees that a split returns: at least one, each with the root of
    the tree split and none with an OR branch point left. *)
Theorem split_gives_alternatives (self : DirectedGraphPathFinder) (t : tree) :
  _split_tree_at_or_nodes self t <> []
  /\ Forall (fun t' => tree_id t' = tree_id t /\ no_or_branch self t' = true)
            (_split_tree_at_or_nodes self t).
Proof.
  induction t as [id children IH] using tree_ind'.
  destruct children as [|c cs].
  - split; [discriminate|]. constructor; [|constructor]. split; [reflexivity|].
    cbn [no_or_branch List.length forallb Nat.leb].
    rewrite orb_true_r. reflexivity.
  - assert (Hne : flat_map (_split_tree_at_or_nodes self) (c :: cs) <> []).
    { apply flat_map_nonempty. inversion IH; subst. tauto. }
    assert (Hsub : Forall (fun t' => no_or_branch self t' = true)
                          (flat_map (_split_tree_at_or_nodes self) (c :: cs))).
    { apply Forall_forall. intros t' Hin. apply in_flat_map in Hin.
      destruct Hin as [c' [Hc' Ht']]. rewrite Forall_forall in IH.
      destruct (IH c' Hc') as [_ Hall]. rewrite Forall_forall in Hall.
      apply Hall. exact Ht'. }
    cbn [_split_tree_at_or_nodes].
    destruct (type_is_AND self id) eqn:Eand.
    + split; [discriminate|]. constructor; [|constructor].
      split; [reflexivity|]. cbn [no_or_branch]. rewrite Eand. cbn [orb andb].
      apply forallb_forall. rewrite Forall_forall in Hsub. exact Hsub.
    + split.
      * destruct (flat_map (_split_tree_at_or_nodes self) (c :: cs));
          [contradiction Hne; reflexivity | discriminate].
      * apply Forall_forall. intros t' Hin. apply in_map_iff in Hin.
        destruct Hin as [sub [<- Hsubin]]. split; [reflexivity|].
        cbn [no_or_branch List.length forallb Nat.leb]. rewrite Eand.
        rewrite Forall_forall in Hsub. rewrite (Hsub sub Hsubin).
        reflexivity.
Qed.

Lemma split_root (self : DirectedGraphPathFinder) (t t' : tree) :
  In t' (_split_tree_at_or_nodes self t) -> tree_id t' = tree_id t.
Proof.
  destruct t as [id [|c cs]]; cbn [_split_tree_at_or_nodes].
  - intros [<-|[]]. reflexivity.
  - destruct (type_is_AND self id).
    + intros [<-|[]]. reflexivity.
    + intro H. apply in_map_iff in H. destruct H as [sub [<- _]].
      reflexivity.
Qed.

Lemma children_are_predecessors_unfold
      (self : DirectedGraphPathFinder) (id : string) (children : list tree) :
  children_are_predecessors self (Tree id children)
  <-> Forall (fun c => In (tree_id c) (predecessors_of self id)
                       /\ children_are_predecessors self c) children.
Proof.
  cbn [children_are_predecessors].
  induction children as [|c cs IH]; split; intro H.
  - constructor.
  - exact I.
  - destruct H as [H1 [H2 H3]]. constructor; [tauto | apply IH, H3].
  - inversion H as [|? ? [H1 H2] H3]; subst.
    split; [exact H1|]. split; [exact H2 | apply IH, H3].
Qed.

(** A split keeps every child below its parent. *)
Lemma split_keeps_predecessors (self : DirectedGraphPathFinder) (t : tree) :
  children_are_predecessors self t ->
  Forall (children_are_predecessors self) (_split_tree_at_or_nodes self t).
Proof.
  induction t as [id children IH] using tree_ind'. intro Ht.
  destruct children as [|c cs]; [constructor; [exact Ht | constructor]|].
  apply children_are_predecessors_unfold in Ht.
  assert (Hsub : Forall (fun t' => In (tree_id t') (predecessors_of self id)
                                   /\ children_are_predecessors self t')
                        (flat_map (_split_tree_at_or_nodes self) (c :: cs))).
  { apply Forall_forall. intros t' Hin. apply in_flat_map in Hin.
    destruct Hin as [c' [Hc' Ht']].
    rewrite Forall_forall in IH, Ht. destruct (Ht c' Hc') as [Hp Hc].
    specialize (IH c' Hc' Hc). rewrite Forall_forall in IH.
    split; [rewrite (split_root self c' t' Ht'); exact Hp
           | apply IH; exact Ht']. }
  cbn [_split_tree_at_or_nodes]. destruct (type_is_AND self id).
  - constructor; [|constructor].
    apply children_are_predecessors_unfold. exact Hsub.
  - apply Forall_forall. intros t' Hin. apply in_map_iff in Hin.
    destruct Hin as [sub [<- Hsubin]].
    apply children_are_predecessors_unfold.
    rewrite Forall_forall in Hsub. constructor; [apply Hsub, Hsubin|].
    constructor.
Qed.

(** ** From the search to the hops *)

Lemma insert_path_follows (self : DirectedGraphPathFinder)
      (path : list string) :
  forall (P : string -> Prop) (cs : list tree),
    chain (fun x y => In y (predecessors_of self x)) path ->
    match path with x :: _ => P x | [] => True end ->
    Forall (fun c => P (tree_id c) /\ children_are_predecessors self c) cs ->
    Forall (fun c => P (tree_id c) /\ children_are_predecessors self c)
           (insert_path path cs).
Proof.
  induction path as [|x rest IH]; intros P cs Hch Hx Hcs; [exact Hcs|].
  assert (Hrest : chain (fun x y => In y (predecessors_of self x)) rest)
    by (apply chain_tail in Hch; exact Hch).
  assert (Hhead : match rest with
                  | y :: _ => In y (predecessors_of self x)
                  | [] => True
                  end).
  { destruct rest; [exact I|]. simpl in Hch. tauto. }
  cbn [insert_path]. induction Hcs as [|c cs Hc Hcs IHcs].
  - constructor; [|constructor]. split; [exact Hx|].
    apply children_are_predecessors_unfold.
    apply (IH (fun y => In y (predecessors_of self x)));
      [exact Hrest | exact Hhead | constructor].
  - destruct (String.eqb (tree_id c) x) eqn:E.
    + apply String.eqb_eq in E. constructor; [|exact Hcs].
      split; [tauto|]. destruct c as [i ch]. cbn [tree_id tree_children] in *.
      subst i. destruct Hc as [_ Hc].
      apply children_are_predecessors_unfold in Hc.
      apply children_are_predecessors_unfold.
      apply (IH (fun y => In y (predecessors_of self x)));
        [exact Hrest | exact Hhead | exact Hc].
    + constructor; [exact Hc | exact IHcs].
Qed.

(** The sequences returned for a target start at it and step from a node
    to one of its predecessors. *)
Lemma returned_paths_shape (self : DirectedGraphPathFinder)
      (target_id : string) (p : list string) :
  In p (find_all_paths_to_target self target_id) ->
  (exists rest, p = target_id :: rest)
  /\ chain (fun x y => In y (predecessors_of self x)) p.
Proof.
  unfold find_all_paths_to_target.
  destruct (negb (dict_mem String.eqb (nodes_info self) target_id));
    [intros []|].
  destruct (_find_paths_recursive self (depth_bound self) target_id [] [])
    as [bp|] eqn:E; [|intros []].
  intro Hp. apply in_map_iff in Hp. destruct Hp as [b [<- Hb]].
  pose proof E as E'.
  apply find_paths_chains in E; [|exact I|exact I].
  apply find_paths_emits in E'; [|left; reflexivity].
  destruct E as [emitted [-> Hall]]. destruct E' as [emitted' [Heq Hall']].
  simpl in Heq. subst emitted'. simpl in Hb.
  rewrite Forall_forall in Hall, Hall'. split.
  - destruct (Hall' b Hb) as [[pre Hsuf] _]. simpl in Hsuf.
    exists (rev pre). rewrite Hsuf, rev_app_distr. reflexivity.
  - specialize (Hall b Hb). apply chain_rev in Hall. exact Hall.
Qed.

Lemma search_forest (self : DirectedGraphPathFinder) (target_id : string) :
  Forall (fun t => tree_id t = target_id
                   /\ children_are_predecessors self t)
         (_build_forest_from_paths
            (find_all_paths_to_target self target_id)).
Proof.
  unfold _build_forest_from_paths.
  assert (H : forall paths forest,
             Forall (fun p => (exists rest, p = target_id :: rest)
                              /\ chain (fun x y =>
                                          In y (predecessors_of self x)) p)
                    paths ->
             Forall (fun t => tree_id t = target_id
                              /\ children_are_predecessors self t) forest ->
             Forall (fun t => tree_id t = target_id
                              /\ children_are_predecessors self t)
                    (fold_left (fun forest path =>
                                  match path with
                                  | [] => forest
                                  | _ :: _ => insert_path path forest
                                  end) paths forest)).
  { induction paths as [|p paths IH]; intros forest Hp Hf; [exact Hf|].
    inversion Hp as [|? ? [[rest ->] Hch] Hps]; subst.
    cbn [fold_left]. apply IH; [exact Hps|].
    apply (insert_path_follows self (target_id :: rest)
                               (fun x => x = target_id));
      [exact Hch | reflexivity | exact Hf]. }
  apply H; [|constructor].
  apply Forall_forall. intros p Hp. apply returned_paths_shape. exact Hp.
Qed.

Lemma final_trees_shape (self : DirectedGraphPathFinder)
      (target_id : string) (t : tree) :
  In t (flat_map (_split_tree_at_or_nodes self)
                 (_build_forest_from_paths
                    (find_all_paths_to_target self target_id))) ->
  tree_id t = target_id /\ children_are_predecessors self t.
Proof.
  intro H. apply in_flat_map in H. destruct H as [root [Hroot Ht]].
  pose proof (search_forest self target_id) as Hf.
  rewrite Forall_forall in Hf. destruct (Hf root Hroot) as [Hid Hcap].
  split.
  - rewrite (split_root self root t Ht). exact Hid.
  - pose proof (split_keeps_predecessors self root Hcap) as Hs.
    rewrite Forall_forall in Hs. apply Hs. exact Ht.
Qed.

Lemma converted_tree_last (self : DirectedGraphPathFinder) (t : tree) :
  exists items,
    rev (map reverse_nested_list (_convert_tree_to_list self t))
    = items ++ [Atom (tree_id t)].
Proof.
  destruct t as [id [|c cs]]; cbn [_convert_tree_to_list tree_id].
  - exists []. reflexivity.
  - destruct (type_is_AND self id); cbn [map rev reverse_nested_list];
      eexists; reflexivity.
Qed.

(** Every structure that [get_paths_as_lists] returns for a target is a
    list whose last item is the target. *)
Theorem structures_end_at_target
        (self : DirectedGraphPathFinder) (target_id : string) (p : nested) :
  In p (get_paths_as_lists self target_id) ->
  exists items, p = NList (items ++ [Atom target_id]).
Proof.
  unfold get_paths_as_lists.
  destruct (find_all_paths_to_target self target_id) as [|p0 ps] eqn:E;
    [intros []|].
  rewrite <- E. intro H. apply in_map_iff in H. destruct H as [t [<- Ht]].
  destruct (final_trees_shape self target_id t Ht) as [Hid _].
  destruct (converted_tree_last self t) as [items Hitems].
  exists items. cbn [reverse_nested_list]. rewrite Hitems, Hid. reflexivity.
Qed.

Lemma structures_end_at_target_witness :
  exists items,
    NList [NList [NList [Atom "P2"; Atom "Q"]; NList [Atom "P1"]];
           Atom "G"; Atom "T"]
    = NList (items ++ [Atom "T"]).
Proof.
  apply (structures_end_at_target (init (and_graph "G")) "T").
  vm_compute. left. reflexivity.
Defined.

Lemma hops_loop_atom_cons (rec : nested -> ends * list hop)
      (s : string) (y : nested) (rest : list nested) (prev : option nested) :
  hops_loop rec (Atom s :: y :: rest) prev
  = (fst (hops_loop rec (y :: rest) (Some (Atom s))),
     step_hop prev (Atom s) s
     ++ snd (hops_loop rec (y :: rest) (Some (Atom s)))).
Proof.
  change (hops_loop rec (Atom s :: y :: rest) prev)
    with (let '(e, later) := hops_loop rec (y :: rest) (Some (Atom s)) in
          (e, step_hop prev (Atom s) s ++ later)).
  destruct (hops_loop rec (y :: rest) (Some (Atom s))). reflexivity.
Qed.

Lemma hops_loop_list_cons (rec : nested -> ends * list hop)
      (b : list nested) (y : nested) (rest : list nested)
      (prev : option nested) :
  hops_loop rec (NList b :: y :: rest) prev
  = (fst (hops_loop rec (y :: rest) (Some y)),
     (bridge_in prev (get_first_nodes (NList b)) ++ snd (rec (NList b))
      ++ bridge_out (fst (rec (NList b))) (Some y))
     ++ snd (hops_loop rec (y :: rest) (Some y))).
Proof.
  change (hops_loop rec (NList b :: y :: rest) prev)
    with (let '(branch_ends, inner) := rec (NList b) in
          let here := bridge_in prev (get_first_nodes (NList b)) ++ inner
                      ++ bridge_out branch_ends (Some y) in
          let '(e, later) := hops_loop rec (y :: rest) (Some y) in
          (e, here ++ later)).
  destruct (rec (NList b)). destruct (hops_loop rec (y :: rest) (Some y)).
  reflexivity.
Qed.

(** A node added after a row that ends with a node adds one step. *)
Lemma hops_loop_snoc_atom (rec : nested -> ends * list hop) (m n : string) :
  forall l0 prev,
    hops_loop rec ((l0 ++ [Atom m]) ++ [Atom n]) prev
    = (End1 n,
       snd (hops_loop rec (l0 ++ [Atom m]) prev)
       ++ step_hop (Some (Atom m)) (Atom n) n).
Proof.
  induction l0 as [|x l0 IH]; intro prev.
  - cbn [app]. rewrite hops_loop_atom_cons. reflexivity.
  - assert (Hcons : exists y rest, l0 ++ [Atom m] = y :: rest).
    { destruct l0; simpl; eauto. }
    destruct Hcons as [y [rest Hy]].
    cbn [app]. specialize (IH). rewrite Hy in *. cbn [app] in *.
    destruct x as [s|b].
    + rewrite !hops_loop_atom_cons, IH. cbn [fst snd].
      rewrite app_assoc. reflexivity.
    + rewrite !hops_loop_list_cons, IH. cbn [fst snd].
      rewrite !app_assoc. reflexivity.
Qed.

(** The hops of a converted and reversed tree: the structure ends at the
    root, and every hop goes from a predecessor to its successor. *)
Lemma tree_hops (self : DirectedGraphPathFinder) (t : tree) :
  children_are_predecessors self t ->
  let p := reverse_nested_list (NList (_convert_tree_to_list self t)) in
  fst (extract_hops p None) = End1 (tree_id t)
  /\ Forall (fun h => exists a, fst h = Atom a
                                /\ In a (predecessors_of self (snd h)))
            (snd (extract_hops p None)).
Proof.
  induction t as [id children IH] using tree_ind'. intro Ht. cbv zeta.
  apply children_are_predecessors_unfold in Ht.
  destruct children as [|c0 cs].
  { cbn. split; [reflexivity | constructor]. }
  cbn [_convert_tree_to_list tree_id].
  destruct (type_is_AND self id).
  - remember (c0 :: cs) as children eqn:Ech. clear Ech c0 cs.
    cbn [map rev app reverse_nested_list]. rewrite map_map.
    set (bs := rev (map (fun c => reverse_nested_list
                                    (NList (_convert_tree_to_list self c)))
                        children)).
    assert (Hbs : forallb is_list bs = true).
    { unfold bs. rewrite forallb_rev. apply forallb_forall. intros x Hx.
      apply in_map_iff in Hx. destruct Hx as [c [<- _]]. reflexivity. }
    assert (Hbranch : forall b, In b bs ->
               (exists c, In c children
                          /\ fst (extract_hops b None) = End1 (tree_id c))
               /\ Forall (fun h => exists a, fst h = Atom a
                                   /\ In a (predecessors_of self (snd h)))
                         (snd (extract_hops b None))).
    { intros b Hb. unfold bs in Hb. apply in_rev in Hb.
      apply in_map_iff in Hb. destruct Hb as [c [<- Hc]].
      rewrite Forall_forall in IH, Ht. destruct (Ht c Hc) as [_ Hcap].
      destruct (IH c Hc Hcap) as [H1 H2]. split; [|exact H2].
      exists c. split; [exact Hc | exact H1]. }
    cbn [extract_hops forallb is_list andb].
    change (hops_loop (fun node => extract_hops node None)
                      [NList bs; Atom id] None)
      with (let '(branch_ends, inner) := extract_hops (NList bs) None in
            (End1 id,
             (bridge_in None (get_first_nodes (NList bs)) ++ inner
              ++ bridge_out branch_ends (Some (Atom id)))
             ++ step_hop (Some (Atom id)) (Atom id) id)).
    cbn [extract_hops]. rewrite Hbs. cbn [fst snd bridge_in app].
    split; [reflexivity|].
    unfold step_hop. cbn [nested_eqb]. rewrite String.eqb_refl, app_nil_r.
    apply Forall_app. split.
    + apply Forall_forall. intros h Hh. apply in_flat_map in Hh.
      destruct Hh as [r [Hr Hh]]. apply in_map_iff in Hr.
      destruct Hr as [b [<- Hb]]. destruct (Hbranch b Hb) as [_ Hall].
      rewrite Forall_forall in Hall. apply Hall. exact Hh.
    + cbn [bridge_out ends_list]. apply Forall_forall. intros h Hh.
      apply in_flat_map in Hh. destruct Hh as [e [He [<-|[]]]].
      apply in_flat_map in He. destruct He as [r [Hr He]].
      apply in_map_iff in Hr. destruct Hr as [b [<- Hb]].
      destruct (Hbranch b Hb) as [[c [Hc Hend]] _].
      rewrite Hend in He. destruct He as [<-|[]].
      exists (tree_id c). split; [reflexivity|]. cbn [snd].
      rewrite Forall_forall in Ht. apply Ht. exact Hc.
  - inversion IH as [|? ? IH0 _]; subst.
    inversion Ht as [|? ? [Hpred Hcap] _]; subst.
    destruct (IH0 Hcap) as [Hend Hall]. clear IH IH0.
    destruct (converted_tree_last self c0) as [items Hitems].
    cbn [map rev reverse_nested_list] in Hend, Hall |- *.
    rewrite Hitems in Hend, Hall |- *.
    assert (Hmixed : forall l a, forallb is_list (l ++ [Atom a]) = false).
    { intros l a. rewrite forallb_app. cbn. apply andb_false_r. }
    cbn [extract_hops] in Hend, Hall |- *.
    rewrite Hmixed in Hend, Hall |- *.
    rewrite hops_loop_snoc_atom. cbn [fst snd].
    split; [reflexivity|].
    apply Forall_app. split; [exact Hall|].
    unfold step_hop. destruct (nested_eqb (Atom (tree_id c0)) (Atom id));
      constructor; [|constructor].
    exists (tree_id c0). split; [reflexivity | exact Hpred].
Qed.

Lemma path_hops_in_graph
      (data : graph_info) (target_id : string) (p : nested) :
  In p (get_paths_as_lists (init data) target_id) ->
  fst (extract_hops p None) = End1 target_id
  /\ forall h, In h (snd (extract_hops p None)) ->
               exists a e, fst h = Atom a /\ In e (edges data)
                           /\ source e = a /\ target e = snd h.
Proof.
  unfold get_paths_as_lists.
  destruct (find_all_paths_to_target (init data) target_id) as [|p0 ps] eqn:E;
    [intros []|].
  rewrite <- E. intro H. apply in_map_iff in H. destruct H as [t [<- Ht]].
  destruct (final_trees_shape (init data) target_id t Ht) as [Hid Hcap].
  destruct (tree_hops (init data) t Hcap) as [Hend Hall]. split.
  - rewrite Hend, Hid. reflexivity.
  - intros h Hh. rewrite Forall_forall in Hall.
    destruct (Hall h Hh) as [a [Ha Hp]].
    apply predecessors_are_edges in Hp. destruct Hp as [e [He [Hs Htg]]].
    exists a, e. auto.
Qed.

(** Every hop extracted from a structure that [get_paths_as_lists] returns
    is an edge of the graph, from the source of the hop to its
    destination, and the extraction ends at the target. *)
Theorem hops_are_edges
        (data : graph_info) (target_id : string) (p : nested) :
  In p (get_paths_as_lists (init data) target_id) ->
  fst (extract_hops p None) = End1 target_id
  /\ forall h, In h (snd (extract_hops p None)) ->
               exists a e, fst h = Atom a /\ In e (edges data)
                           /\ source e = a /\ target e = snd h.
Proof. exact (path_hops_in_graph data target_id p). Qed.

Lemma hops_are_edges_witness :
  fst (extract_hops
         (NList [NList [NList [Atom "P2"; Atom "Q"]; NList [Atom "P1"]];
                 Atom "G"; Atom "T"]) None) = End1 "T"
  /\ forall h,
      In h (snd (extract_hops
                   (NList [NList [NList [Atom "P2"; Atom "Q"];
                                  NList [Atom "P1"]];
                           Atom "G"; Atom "T"]) None)) ->
      exists a e, fst h = Atom a /\ In e (edges (and_graph "G"))
                  /\ source e = a /\ target e = snd h.
Proof.
  apply (hops_are_edges (and_graph "G") "T").
  vm_compute. left. reflexivity.
Defined.

(** ** Scoring the returned structures *)

(** The lookup of every hop of a returned structure finds an edge record
    of the graph with the ends of the hop: no hop is left out of the cost
    or of the stealth for lack of an edge. *)
Theorem hop_lookups_hit
        (data : graph_info) (target_id : string) (p : nested) (h : hop) :
  In p (get_paths_as_lists (init data) target_id) ->
  In h (snd (extract_hops p None)) ->
  exists a e,
    fst h = Atom a
    /\ edge_dict_get (snd (load_graph_info data)) h = Ok (Some e)
    /\ In e (edges data) /\ edge_pair e = (a, snd h).
Proof.
  intros Hp Hh.
  destruct (path_hops_in_graph data target_id p Hp) as [_ Hall].
  destruct (Hall h Hh) as [a [e0 [Ha [He0 [Hs Ht]]]]].
  destruct h as [src dst]. cbn [fst snd] in *. subst src.
  unfold edge_dict_get. cbn [fst snd load_graph_info].
  rewrite edge_dict_fold_get. cbn [dict_get].
  destruct (find (fun e => pair_eqb (edge_pair e) (a, dst))
                 (rev (edges data))) as [e|] eqn:E.
  - apply find_some in E. destruct E as [He Hk].
    apply pair_eqb_spec in Hk. exists a, e.
    split; [reflexivity|]. split; [reflexivity|].
    split; [apply in_rev; exact He | exact Hk].
  - exfalso. apply in_rev in He0.
    pose proof (find_none _ _ E e0 He0) as Hf. cbv beta in Hf.
    assert (Hk : pair_eqb (edge_pair e0) (a, dst) = true).
    { apply pair_eqb_spec. unfold edge_pair. rewrite Hs, Ht. reflexivity. }
    congruence.
Qed.

Lemma hop_lookups_hit_witness :
  exists a e,
    fst (Atom "A", "B") = Atom a
    /\ edge_dict_get (snd (load_graph_info chain_graph)) (Atom "A", "B")
       = Ok (Some e)
    /\ In e (edges chain_graph) /\ edge_pair e = (a, snd (Atom "A", "B")).
Proof.
  apply (hop_lookups_hit chain_graph "T"
                         (NList [Atom "A"; Atom "B"; Atom "T"])).
  - vm_compute. left. reflexivity.
  - vm_compute. left. reflexivity.
Defined.





(** ** Rows of nodes *)

Lemma last_cons_default {A : Type} (b : A) (l : list A) (a : A) :
  last (b :: l) a = last l b.
Proof.
  revert a b. induction l as [|c l IH]; intros a b; [reflexivity|].
  change (last (c :: l) a = last (c :: l) b).
  rewrite (IH a c), (IH b c). reflexivity.
Qed.

Lemma hops_loop_row (rec : nested -> ends * list hop) (l : list string) :
  forall a prev,
    hops_loop rec (map Atom (a :: l)) prev
    = (End1 (last l a), step_hop prev (Atom a) a ++ adjacent_pairs (a :: l)).
Proof.
  induction l as [|b l IH]; intros a prev.
  - cbn [map hops_loop adjacent_pairs last]. rewrite app_nil_r. reflexivity.
  - cbn [map]. rewrite hops_loop_atom_cons.
    change (Atom b :: map Atom l) with (map Atom (b :: l)). rewrite IH.
    cbn [fst snd]. rewrite last_cons_default.
    change (adjacent_pairs (a :: b :: l))
      with ((if String.eqb a b then [] else [(Atom a, b)])
            ++ adjacent_pairs (b :: l)).
    unfold step_hop at 2. cbn [nested_eqb]. reflexivity.
Qed.

(** The hops of a row of nodes are its neighbouring pairs, a pair of equal
    ids left out, and the extraction ends at the last node. *)
Theorem row_hops (a : string) (l : list string) :
  extract_hops (NList (map Atom (a :: l))) None
  = (End1 (last l a), adjacent_pairs (a :: l)).
Proof.
  cbn [extract_hops map forallb is_list andb]. 
  change (Atom a :: map Atom l) with (map Atom (a :: l)).
  rewrite hops_loop_row. reflexivity.
Qed.

Lemma fold_left_add_map {A : Type} (f : A -> Z) (l : list A) (z : Z) :
  fold_left Z.add (map f l) z = (z + fold_right Z.add 0 (map f l))%Z.
Proof. apply fold_left_add_right. Qed.

(** The length of a row is its number of nodes, less the nodes whose id
    starts with LOGIC_, less one; the empty row has length -1. *)
Theorem row_length (l : list string) node_dict edge_dict parent :
  calc_path_length (NList (map Atom l)) node_dict edge_dict parent
  = (Z.of_nat (List.length l)
     - Z.of_nat (List.length (filter (String.prefix "LOGIC_") l)) - 1)%Z.
Proof.
  unfold calc_path_length.
  assert (Hsum : forall m : list string,
             fold_right Z.add 0%Z (map (fun x => _count_nodes (Atom x)) m)
             = Z.of_nat (List.length m)).
  { induction m as [|b m IH]; [reflexivity|].
    cbn [map fold_right List.length]. rewrite IH. cbn [_count_nodes]. lia. }
  assert (Hn : _count_nodes (NList (map Atom l)) = Z.of_nat (List.length l)).
  { destruct l as [|a l]; [reflexivity|].
    change (_count_nodes (NList (map Atom (a :: l))))
      with (fold_left Z.add (map _count_nodes (map Atom (a :: l))) 0%Z).
    rewrite map_map, fold_left_add_right, Z.add_0_l. apply Hsum. }
  assert (Hl : _count_logic_nodes (NList (map Atom l))
               = Z.of_nat (List.length (filter (String.prefix "LOGIC_") l))).
  { cbn [_count_logic_nodes]. rewrite map_map, fold_left_add_right, Z.add_0_l.
    clear Hn. induction l as [|b l IH]; [reflexivity|].
    cbn [map fold_right filter]. rewrite IH. cbn [_count_logic_nodes].
    destruct (String.prefix "LOGIC_" b); cbn [List.length]; lia. }
  rewrite Hn, Hl. reflexivity.
Qed.

(** ** Criticality *)

Lemma py_max_spec (xs : list Q) :
  forall x,
    In (py_max x xs) (x :: xs)
    /\ forall y, In y (x :: xs) -> (y <= py_max x xs)%Q.
Proof.
  induction xs as [|z xs IH]; intro x.
  - split; [left; reflexivity|]. intros y [<-|[]]. apply Qle_refl.
  - change (py_max x (z :: xs))
      with (py_max (if Qle_bool z x then x else z) xs).
    destruct (Qle_bool z x) eqn:E.
    + destruct (IH x) as [Hin Hub]. split.
      * destruct Hin as [Hin|Hin]; [left; exact Hin | right; right; exact Hin].
      * intros y [<-|[<-|Hy]].
        -- apply Hub. left. reflexivity.
        -- apply Qle_trans with x; [apply Qle_bool_iff, E|].
           apply Hub. left. reflexivity.
        -- apply Hub. right. exact Hy.
    + destruct (IH z) as [Hin Hub]. split.
      * right. exact Hin.
      * intros y [<-|[<-|Hy]].
        -- apply Qle_trans with z.
           ++ apply Qlt_le_weak. apply Qnot_le_lt. intro Hle.
              apply Qle_bool_iff in Hle. congruence.
           ++ apply Hub. left. reflexivity.
        -- apply Hub. left. reflexivity.
        -- apply Hub. right. exact Hy.
Qed.

(** The criticality of a path is the greatest centrality among the nodes
    that carry one: it is the centrality of a node of the path and no
    node of the path has a greater one; it is absent exactly when no node
    of the path carries a centrality. *)
Theorem path_centrality_is_greatest
        (path : nested) (node_dict : node_dict_t) (edge_dict : edge_dict_t)
        (parent : option nested) :
  let nodes_with_centrality :=
      extract_all_nodes_and_centrality path node_dict in
  (calc_path_centrality path node_dict edge_dict parent = None
   <-> forall nc, In nc nodes_with_centrality -> snd nc = None)
  /\ forall m,
      calc_path_centrality path node_dict edge_dict parent = Some m ->
      (exists id, In (id, Some m) nodes_with_centrality)
      /\ forall id c, In (id, Some c) nodes_with_centrality -> (c <= m)%Q.
Proof.
  cbv zeta. unfold calc_path_centrality.
  set (ncs := extract_all_nodes_and_centrality path node_dict).
  set (values := flat_map (fun nc : string * option Q =>
                             match snd nc with
                             | Some c => [c]
                             | None => []
                             end) ncs).
  assert (Hval : forall c, In c values <-> exists id, In (id, Some c) ncs).
  { intro c. unfold values. rewrite in_flat_map. split.
    - intros [[id o] [Hin Hc]]. cbn [snd] in Hc. destruct o as [c'|];
        [|destruct Hc]. destruct Hc as [<-|[]]. exists id. exact Hin.
    - intros [id Hin]. exists (id, Some c). split; [exact Hin|].
      left. reflexivity. }
  split.
  - destruct values as [|c cs] eqn:E.
    + split; [intros _|reflexivity]. intros [id o] Hin. cbn [snd].
      destruct o as [c|]; [|reflexivity].
      exfalso. apply (proj2 (Hval c)). exists id. exact Hin.
    + split; [discriminate|]. intro Hnone. exfalso.
      destruct (proj1 (Hval c) (or_introl eq_refl)) as [id Hin].
      specialize (Hnone _ Hin). discriminate Hnone.
  - intros m Hm. destruct values as [|c cs] eqn:E; [discriminate Hm|].
    injection Hm as <-. destruct (py_max_spec cs c) as [Hin Hub]. split.
    + apply Hval. exact Hin.
    + intros id c' Hc'. apply Hub. apply Hval. exists id. exact Hc'.
Qed.

(** ** Order of the branches of an AND group *)

Lemma forallb_perm {A : Type} (f : A -> bool) (l l' : list A) :
  Permutation l l' -> forallb f l = forallb f l'.
Proof.
  induction 1; cbn [forallb].
  - reflexivity.
  - rewrite IHPermutation. reflexivity.
  - destruct (f x), (f y); reflexivity.
  - congruence.
Qed.

Lemma sum_perm (l l' : list Z) :
  Permutation l l' -> fold_right Z.add 0%Z l = fold_right Z.add 0%Z l'.
Proof. induction 1; cbn [fold_right]; lia. Qed.

Lemma group_hops (bs : list nested) (y : string) (rest : list nested) :
  forallb is_list bs = true ->
  snd (extract_hops (NList (NList bs :: Atom y :: rest)) None)
  = (flat_map (fun b => snd (extract_hops b None)) bs
     ++ flat_map (fun e => [(Atom e, y)])
                 (flat_map (fun b => ends_list (fst (extract_hops b None)))
                           bs))
    ++ snd (hops_loop (fun node => extract_hops node None)
                      (Atom y :: rest) (Some (Atom y))).
Proof.
  intro Hbs. cbn [extract_hops forallb is_list andb].
  rewrite hops_loop_list_cons. cbn [snd fst bridge_in app].
  cbn [extract_hops]. rewrite Hbs. cbn [fst snd bridge_out ends_list].
  rewrite !flat_map_concat_map, !map_map. reflexivity.
Qed.

(** The cost and the stealth of a path that starts with an AND group do
    not depend on the order of the branches of the group. *)
Theorem branch_order_irrelevant
        (bs bs' : list nested) (y : string) (rest : list nested)
        (node_dict : node_dict_t) (edge_dict : edge_dict_t)
        (parent : option nested) :
  Permutation bs bs' ->
  forallb is_list bs = true ->
  path_structure (NList (NList bs :: Atom y :: rest)) = true ->
  calc_path_cost (NList (NList bs :: Atom y :: rest))
                 node_dict edge_dict parent
  = calc_path_cost (NList (NList bs' :: Atom y :: rest))
                   node_dict edge_dict parent
  /\ calc_path_stealth (NList (NList bs :: Atom y :: rest))
                       node_dict edge_dict parent
     = calc_path_stealth (NList (NList bs' :: Atom y :: rest))
                         node_dict edge_dict parent.
Proof.
  intros Hperm Hbs Hps.
  assert (Hbs' : forallb is_list bs' = true)
    by (rewrite <- (forallb_perm is_list bs bs' Hperm); exact Hbs).
  assert (Hps' : path_structure (NList (NList bs' :: Atom y :: rest)) = true).
  { revert Hps. cbn [path_structure forallb is_list andb orb negb
                     no_adjacent_lists].
    rewrite Hbs, Hbs', (forallb_perm path_structure bs bs' Hperm).
    exact (fun H => H). }
  assert (Hhops : Permutation
                    (snd (extract_hops (NList (NList bs :: Atom y :: rest))
                                       None))
                    (snd (extract_hops (NList (NList bs' :: Atom y :: rest))
                                       None))).
  { rewrite (group_hops bs y rest Hbs), (group_hops bs' y rest Hbs').
    apply Permutation_app_tail. apply Permutation_app.
    - apply Permutation_flat_map. exact Hperm.
    - apply Permutation_flat_map. apply Permutation_flat_map. exact Hperm. }
  split.
  - rewrite (cost_is_sum_of_defined_costs _ node_dict edge_dict parent Hps).
    rewrite (cost_is_sum_of_defined_costs _ node_dict edge_dict parent Hps').
    f_equal. apply sum_perm. unfold defined_cost.
    apply Permutation_flat_map. exact Hhops.
  - unfold calc_path_stealth.
    rewrite (stealth_loop_collects edge_dict _ (extract_hops_hashable _ Hps)).
    rewrite (stealth_loop_collects edge_dict _ (extract_hops_hashable _ Hps')).
    cbn [app bind].
    assert (Hst : Permutation
                    (defined_stealth edge_dict
                       (snd (extract_hops
                               (NList (NList bs :: Atom y :: rest)) None)))
                    (defined_stealth edge_dict
                       (snd (extract_hops
                               (NList (NList bs' :: Atom y :: rest)) None))))
      by (unfold defined_stealth; apply Permutation_flat_map; exact Hhops).
    revert Hst.
    generalize (defined_stealth edge_dict
                  (snd (extract_hops (NList (NList bs :: Atom y :: rest))
                                     None))).
    generalize (defined_stealth edge_dict
                  (snd (extract_hops (NList (NList bs' :: Atom y :: rest))
                                     None))).
    intros v' v Hst.
    assert (Hsum : py_sum v = py_sum v').
    { unfold py_sum. rewrite !fold_left_add_right, !Z.add_0_l.
      apply sum_perm. exact Hst. }
    pose proof (Permutation_length Hst) as Hlen.
    destruct v as [|a v], v' as [|a' v'].
    + reflexivity.
    + apply Permutation_nil in Hst. discriminate Hst.
    + apply Permutation_sym, Permutation_nil in Hst. discriminate Hst.
    + rewrite Hsum, Hlen. reflexivity.
Qed.

Lemma branch_order_irrelevant_witness :
  calc_path_cost
    (NList [NList [NList [Atom "P2"; Atom "Q"]; NList [Atom "P1"]];
            Atom "G"; Atom "T"])
    [] (snd (load_graph_info (and_graph "G"))) None
  = calc_path_cost
      (NList [NList [NList [Atom "P1"]; NList [Atom "P2"; Atom "Q"]];
              Atom "G"; Atom "T"])
      [] (snd (load_graph_info (and_graph "G"))) None
  /\ calc_path_stealth
       (NList [NList [NList [Atom "P2"; Atom "Q"]; NList [Atom "P1"]];
               Atom "G"; Atom "T"])
       [] (snd (load_graph_info (and_graph "G"))) None
     = calc_path_stealth
         (NList [NList [NList [Atom "P1"]; NList [Atom "P2"; Atom "Q"]];
                 Atom "G"; Atom "T"])
         [] (snd (load_graph_info (and_graph "G"))) None.
Proof.
  apply branch_order_irrelevant.
  - apply perm_swap.
  - reflexivity.
  - vm_compute. reflexivity.
Defined.

(** ** The records that [parse_dot] builds *)

Lemma nonempty_neq (s : string) : nonempty s = true -> s <> EmptyString.
Proof. destruct s; [discriminate | discriminate]. Qed.

Lemma edge_pattern_nonempty (line src tgt : string) :
  edge_pattern line = Some (src, tgt) ->
  src <> EmptyString /\ tgt <> EmptyString.
Proof.
  unfold edge_pattern.
  destruct (span is_id_char (lstrip line)) as [s r1].
  destruct (nonempty s) eqn:Es; [|discriminate].
  destruct (drop_prefix "->" (lstrip r1)) as [r2|]; [|discriminate].
  destruct (span is_id_char (lstrip r2)) as [t r3].
  destruct (nonempty t) eqn:Et; [|discriminate].
  intro H. injection H as <- <-. split; apply nonempty_neq; assumption.
Qed.

Lemma read_lines_edges (P : edge -> Prop) :
  (forall ns src tgt, src <> EmptyString -> tgt <> EmptyString ->
                      P (make_edge ns src tgt)) ->
  forall lines st,
    Forall P (snd st) -> Forall P (snd (fold_left read_line lines st)).
Proof.
  intros Hmake. induction lines as [|raw lines IH]; intros st H; [exact H|].
  cbn [fold_left]. apply IH. destruct st as [ns es]. unfold read_line.
  destruct (negb _); [exact H|].
  destruct (contains "->" (strip raw)).
  - destruct (edge_pattern (strip raw)) as [[src tgt]|] eqn:E; [|exact H].
    cbn [snd] in *. apply Forall_app. split; [exact H|].
    destruct (edge_pattern_nonempty _ _ _ E).
    constructor; [apply Hmake; assumption | constructor].
  - destruct (match_node (strip raw)) as [[[i l] ty]|]; exact H.
Qed.

Lemma parse_dot_edges_fold
      (betweenness_centrality :
         list string -> list (string * string) -> pydict (K := string) (V := Q))
      (lines : list string) :
  edges (parse_dot betweenness_centrality lines)
  = snd (fold_left read_line lines ([], [])).
Proof.
  unfold parse_dot. destruct (fold_left read_line lines ([], [])).
  reflexivity.
Qed.

Lemma parsed_edges_recorded
      (betweenness_centrality :
         list string -> list (string * string) -> pydict (K := string) (V := Q))
      (lines : list string) :
  Forall (fun e => recorded e = true)
         (edges (parse_dot betweenness_centrality lines)).
Proof.
  rewrite parse_dot_edges_fold. apply read_lines_edges; [|constructor].
  intros ns src tgt Hs Ht. unfold recorded, make_edge.
  assert (Hts : truthy src = true) by (apply truthy_nonempty; exact Hs).
  assert (Htt : truthy tgt = true) by (apply truthy_nonempty; exact Ht).
  repeat match goal with
         | |- context [if ?b then _ else _] => destruct b
         end; cbn [source target]; rewrite Hts, Htt; reflexivity.
Qed.

(** The rule table of the edges. Every edge record of [parse_dot] has
    non-empty ends and one of four combinations of type, cost and
    stealth; the cost and the stealth are absent together, exactly on
    the edges into a LOGIC_ node from a node that is not one. *)
Theorem parsed_edge_table
        (betweenness_centrality :
           list string -> list (string * string) -> pydict (K := string) (V := Q))
        (lines : list string) (e : edge) :
  In e (edges (parse_dot betweenness_centrality lines)) ->
  source e <> EmptyString /\ target e <> EmptyString
  /\ In (type e, cost e, stealth e)
        [("explicit", Some 1%Z, Some 1%Z);
         ("explicit", None, None);
         ("physical_implicit", Some 5%Z, Some 3%Z);
         ("system_implicit", Some 3%Z, Some 2%Z)]
  /\ (cost e = None
      <-> startswith (source e) "LOGIC_" = false
          /\ startswith (target e) "LOGIC_" = true).
Proof.
  revert e. apply Forall_forall. rewrite parse_dot_edges_fold.
  apply read_lines_edges; [|constructor].
  intros ns src tgt Hs Ht. unfold make_edge.
  destruct (startswith src "LOGIC_") eqn:E1.
  { cbn [source target type cost stealth]. rewrite E1.
    repeat split; auto; try (simpl; tauto); try discriminate.
    intros [H _]. discriminate H. }
  destruct (startswith tgt "LOGIC_") eqn:E2.
  { cbn [source target type cost stealth]. rewrite E1, E2.
    repeat split; auto; simpl; tauto. }
  destruct (_ || _).
  { cbn [source target type cost stealth]. rewrite E1, E2.
    repeat split; auto; try (simpl; tauto); try discriminate.
    intros [_ H]. discriminate H. }
  destruct (_ || _);
    cbn [source target type cost stealth]; rewrite E1, E2;
    (repeat split; auto; try (simpl; tauto); try discriminate;
     intros [_ H]; discriminate H).
Qed.

Lemma parsed_edge_table_witness :
  let e := mk_edge "CH_temp" "LOGIC_AND_1" "explicit" None None in
  source e <> EmptyString /\ target e <> EmptyString
  /\ In (type e, cost e, stealth e)
        [("explicit", Some 1%Z, Some 1%Z);
         ("explicit", None, None);
         ("physical_implicit", Some 5%Z, Some 3%Z);
         ("system_implicit", Some 3%Z, Some 2%Z)]
  /\ (cost e = None
      <-> startswith (source e) "LOGIC_" = false
          /\ startswith (target e) "LOGIC_" = true).
Proof.
  apply (parsed_edge_table all_one gate_text).
  vm_compute. right. left. reflexivity.
Defined.

Lemma prefix_append (p s : string) : String.prefix p (p ++ s)%string = true.
Proof.
  induction p as [|a p IH]; [destruct s; reflexivity|].
  cbn [String.append String.prefix].
  destruct (ascii_dec a a) as [_|H]; [exact IH | contradiction H; reflexivity].
Qed.

Lemma quoted_pattern_prefix (pfx line id label : string) :
  quoted_pattern pfx line = Some (id, label) -> String.prefix pfx id = true.
Proof.
  unfold quoted_pattern.
  destruct (drop_prefix pfx line) as [r0|]; [|discriminate].
  destruct (span is_id_char r0) as [name r1].
  destruct (nonempty name); [|discriminate].
  destruct (after_label r1) as [[|q r2]|]; try discriminate.
  destruct (is_dquote q); [|discriminate].
  destruct (span (fun c => negb (is_dquote c)) r2) as [l r3].
  destruct r3; [discriminate|].
  destruct (nonempty l); [|discriminate].
  intro H. injection H as <- _. apply prefix_append.
Qed.

Lemma logic_pattern_prefix (line id label : string) :
  logic_pattern line = Some (id, label) -> String.prefix "LOGIC_" id = true.
Proof.
  unfold logic_pattern.
  destruct (drop_prefix "LOGIC_" line) as [r0|]; [|discriminate].
  destruct (span is_id_char r0) as [name r1].
  destruct (nonempty name); [|discriminate].
  destruct (after_label r1) as [r2|]; [|discriminate].
  destruct (span is_logic_label_char _) as [l r3].
  destruct (nonempty l); [|discriminate].
  intro H. injection H as <- _. apply (prefix_append "LOGIC_").
Qed.

Lemma match_node_kind (line id label ty : string) :
  match_node line = Some (id, label, ty) -> node_kind id ty.
Proof.
  unfold match_node, node_kind. intro H.
  destruct (startswith line "CH_").
  { destruct (ch_pattern line) as [[i l]|] eqn:E; [|discriminate H].
    injection H as <- _ <-. left.
    split; [exact (quoted_pattern_prefix _ _ _ _ E)|].
    destruct (contains "[Physical]" l); [simpl; tauto|].
    destruct (contains "[System]" l); simpl; tauto. }
  destruct (startswith line "A_").
  { destruct (a_pattern line) as [[i l]|] eqn:E; [|discriminate H].
    injection H as <- _ <-. right. left.
    split; [exact (quoted_pattern_prefix _ _ _ _ E) | reflexivity]. }
  destruct (startswith line "T_").
  { destruct (t_pattern line) as [[i l]|] eqn:E; [|discriminate H].
    injection H as <- _ <-. right. right. left.
    split; [exact (quoted_pattern_prefix _ _ _ _ E) | reflexivity]. }
  destruct (startswith line "LOGIC_"); [|discriminate H].
  destruct (logic_pattern line) as [[i l]|] eqn:E; [|discriminate H].
  injection H as <- _ <-. right. right. right.
  split; [exact (logic_pattern_prefix _ _ _ E)|].
  destruct (contains "AND" i); [left; auto|].
  destruct (contains "OR" i); [right; left; auto | right; right; auto].
Qed.

Lemma dict_set_Forall_key (P : string * node -> Prop) (d : nodes_t)
      (k : string) (v : node) :
  P (k, v) -> Forall P d -> Forall P (dict_set String.eqb d k v).
Proof.
  intros Hv. induction 1 as [|[k0 v0] d H0 Hd IH]; cbn [dict_set].
  - constructor; [exact Hv | constructor].
  - destruct (String.eqb k0 k) eqn:E.
    + apply String.eqb_eq in E. subst k0. constructor; assumption.
    + constructor; assumption.
Qed.

Lemma read_lines_nodes (P : string * node -> Prop) :
  (forall line id label ty,
      match_node line = Some (id, label, ty) ->
      P (id, mk_node id label ty [] [] (Some 0%Q))) ->
  forall lines st,
    Forall P (fst st) -> Forall P (fst (fold_left read_line lines st)).
Proof.
  intro Hnew. induction lines as [|raw lines IH]; intros st H; [exact H|].
  cbn [fold_left]. apply IH. destruct st as [ns es]. unfold read_line.
  destruct (negb _); [exact H|].
  destruct (contains "->" (strip raw)).
  - destruct (edge_pattern (strip raw)) as [[src tgt]|]; exact H.
  - destruct (match_node (strip raw)) as [[[i l] ty]|] eqn:E; [|exact H].
    cbn [fst] in *. apply dict_set_Forall_key; [|exact H].
    apply (Hnew _ _ _ _ E).
Qed.

Lemma read_lines_keys (lines : list string) :
  forall st,
    NoDup (dict_keys (fst st)) ->
    NoDup (dict_keys (fst (fold_left read_line lines st))).
Proof.
  induction lines as [|raw lines IH]; intros st H; [exact H|].
  cbn [fold_left]. apply IH. destruct st as [ns es]. unfold read_line.
  destruct (negb _); [exact H|].
  destruct (contains "->" (strip raw)).
  - destruct (edge_pattern (strip raw)) as [[src tgt]|]; exact H.
  - destruct (match_node (strip raw)) as [[[i l] ty]|]; [|exact H].
    cbn [fst] in *. apply (dict_set_NoDup String.eqb String.eqb_eq). exact H.
Qed.

Lemma dict_update_keys (d : nodes_t) (k : string) (f : node -> node) :
  map fst (dict_update d k f) = map fst d.
Proof.
  induction d as [|[k0 v0] d IH]; [reflexivity|].
  cbn [dict_update]. destruct (String.eqb k0 k); cbn [map fst];
    [reflexivity | rewrite IH; reflexivity].
Qed.

Lemma link_nodes_keys (es : list edge) :
  forall ns : nodes_t, map fst (link_nodes ns es) = map fst ns.
Proof.
  unfold link_nodes. induction es as [|e es IH]; intro ns; [reflexivity|].
  cbn [fold_left]. rewrite IH.
  destruct (dict_mem String.eqb ns (source e)).
  - destruct (dict_mem String.eqb _ (target e));
      rewrite ?dict_update_keys; reflexivity.
  - destruct (dict_mem String.eqb _ (target e));
      rewrite ?dict_update_keys; reflexivity.
Qed.

Lemma link_nodes_Forall (P : string * node -> Prop) (es : list edge) :
  (forall k v s, P (k, v) -> P (k, append_Target s v)) ->
  (forall k v s, P (k, v) -> P (k, append_Source s v)) ->
  forall ns : nodes_t, Forall P ns -> Forall P (link_nodes ns es).
Proof.
  intros HT HS. unfold link_nodes.
  induction es as [|e es IH]; intros ns H; [exact H|].
  cbn [fold_left]. apply IH.
  assert (H1 : Forall P (if dict_mem String.eqb ns (source e)
                         then dict_update ns (source e)
                                          (append_Target (target e))
                         else ns)).
  { destruct (dict_mem String.eqb ns (source e)); [|exact H].
    apply dict_update_Forall; [|exact H]. intros k v. apply HT. }
  destruct (dict_mem String.eqb _ (target e)); [|exact H1].
  apply dict_update_Forall; [|exact H1]. intros k v. apply HS.
Qed.

(** The entries behind the node list of [parse_dot]. *)
Lemma parse_dot_entries
      (betweenness_centrality :
         list string -> list (string * string) -> pydict (K := string) (V := Q))
      (lines : list string) (P : string * node -> Prop) :
  (forall line id label ty,
      match_node line = Some (id, label, ty) ->
      P (id, mk_node id label ty [] [] (Some 0%Q))) ->
  (forall k v s, P (k, v) -> P (k, append_Target s v)) ->
  (forall k v s, P (k, v) -> P (k, append_Source s v)) ->
  (forall k v c, P (k, v) -> P (k, set_centrality c v)) ->
  exists entries : nodes_t,
    nodes (parse_dot betweenness_centrality lines) = map snd entries
    /\ NoDup (map fst entries)
    /\ Forall P entries.
Proof.
  intros Hnew HT HS HC. unfold parse_dot.
  pose proof (read_lines_nodes P Hnew lines ([], []) (Forall_nil _)) as HP.
  pose proof (read_lines_keys lines ([], []) (NoDup_nil _)) as Hk.
  destruct (fold_left read_line lines ([], [])) as [nodes0 es].
  cbn [fst] in HP, Hk.
  apply (link_nodes_Forall P es HT HS) in HP.
  set (cen := subgraph_centrality betweenness_centrality
                                  (link_nodes nodes0 es) es).
  exists (map (assign_centrality cen) (link_nodes nodes0 es)).
  cbn [nodes]. split; [reflexivity|]. split.
  - rewrite map_map.
    replace (map (fun x => fst (assign_centrality cen x))
                 (link_nodes nodes0 es))
      with (map fst (link_nodes nodes0 es)).
    + rewrite link_nodes_keys. exact Hk.
    + apply map_ext. intros [k v]. unfold assign_centrality.
      destruct (_ && _); reflexivity.
  - apply Forall_forall. intros kv Hin. apply in_map_iff in Hin.
    destruct Hin as [[k v] [<- Hkv]]. rewrite Forall_forall in HP.
    specialize (HP _ Hkv). unfold assign_centrality.
    destruct (_ && _); apply HC; exact HP.
Qed.

(** No two node records of [parse_dot] have the same id: a node declared
    again replaces the earlier record. *)
Theorem parsed_node_ids_distinct
        (betweenness_centrality :
           list string -> list (string * string) -> pydict (K := string) (V := Q))
        (lines : list string) :
  NoDup (map ID (nodes (parse_dot betweenness_centrality lines))).
Proof.
  destruct (parse_dot_entries betweenness_centrality lines
              (fun kv => ID (snd kv) = fst kv))
    as [entries [Hn [Hk HP]]]; try (intros; assumption).
  - intros. reflexivity.
  - rewrite Hn, map_map.
    replace (map (fun x => ID (snd x)) entries) with (map fst entries);
      [exact Hk|].
    apply map_ext_Forall. eapply Forall_impl; [|exact HP].
    intros kv H. symmetry. exact H.
Qed.

(** The type of every node record of [parse_dot] goes with its id: CH_
    for the channel types, A_ for actions, T_ for triggers, LOGIC_ for
    AND, OR and logic; in particular every AND node has an id that starts
    with LOGIC_ and holds the letters AND. *)
Theorem parsed_node_kinds
        (betweenness_centrality :
           list string -> list (string * string) -> pydict (K := string) (V := Q))
        (lines : list string) (n : node) :
  In n (nodes (parse_dot betweenness_centrality lines)) ->
  node_kind (ID n) (Type' n).
Proof.
  destruct (parse_dot_entries betweenness_centrality lines
              (fun kv => node_kind (ID (snd kv)) (Type' (snd kv))))
    as [entries [Hn [_ HP]]]; try (intros; assumption).
  - intros line id label ty H. cbn [snd ID Type'].
    exact (match_node_kind _ _ _ _ H).
  - rewrite Hn. intro Hin. apply in_map_iff in Hin.
    destruct Hin as [kv [<- Hkv]]. rewrite Forall_forall in HP.
    exact (HP kv Hkv).
Qed.

Lemma parsed_node_kinds_witness :
  node_kind "LOGIC_AND_1" "AND".
Proof.
  apply (parsed_node_kinds all_one gate_text
           (mk_node "LOGIC_AND_1" "AND" "AND" ["A_Rule_1_0"]
                    ["T_Rule_1_0"; "CH_temp"] (Some 0%Q))).
  vm_compute. right. right. right. left. reflexivity.
Defined.

Lemma dict_update_entries (P R : string * node -> Prop) (d : nodes_t)
      (k : string) (f : node -> node) :
  NoDup (map fst d) ->
  (forall k' v, k' <> k -> P (k', v) -> R (k', v)) ->
  (forall v, P (k, v) -> R (k, f v)) ->
  Forall P d ->
  Forall R (if dict_mem String.eqb d k then dict_update d k f else d).
Proof.
  intros Hnd Hother Hk HP.
  assert (Hrest : forall d' : nodes_t,
             ~ In k (map fst d') -> Forall P d' -> Forall R d').
  { intros d' Hnot H. apply Forall_forall. intros [k' v] Hin.
    rewrite Forall_forall in H. apply Hother; [|apply H; exact Hin].
    intros ->. apply Hnot. apply (in_map fst) in Hin. exact Hin. }
  destruct (dict_mem String.eqb d k) eqn:Em.
  - clear Em. induction HP as [|[k0 v0] d H0 Hd IH]; [constructor|].
    cbn [map fst] in Hnd. inversion Hnd as [|? ? Hnotin Hnd']; subst.
    cbn [dict_update]. destruct (String.eqb k0 k) eqn:E.
    + apply String.eqb_eq in E. subst k0.
      constructor; [apply Hk; exact H0 | apply Hrest; assumption].
    + apply String.eqb_neq in E.
      constructor; [apply Hother; assumption | apply IH; exact Hnd'].
  - apply Hrest; [|exact HP]. intro Hin.
    apply (dict_mem_In String.eqb String.eqb_eq) in Hin.
    unfold dict_keys in Hin. congruence.
Qed.

Lemma link_nodes_adjacency (es : list edge) :
  forall (done : list edge) (ns : nodes_t),
    NoDup (map fst ns) ->
    Forall (fun kv =>
              Target (snd kv)
              = map target (filter (fun e => String.eqb (source e) (fst kv))
                                   done)
              /\ Source (snd kv)
                 = map source (filter (fun e => String.eqb (target e) (fst kv))
                                      done)) ns ->
    Forall (fun kv =>
              Target (snd kv)
              = map target (filter (fun e => String.eqb (source e) (fst kv))
                                   (done ++ es))
              /\ Source (snd kv)
                 = map source (filter (fun e => String.eqb (target e) (fst kv))
                                      (done ++ es)))
           (link_nodes ns es).
Proof.
  unfold link_nodes.
  induction es as [|e es IH]; intros done ns Hnd H.
  - rewrite app_nil_r. exact H.
  - cbn [fold_left].
    replace (done ++ e :: es) with ((done ++ [e]) ++ es)
      by (rewrite <- app_assoc; reflexivity).
    match goal with
    | |- Forall _ (fold_left _ es ?x) =>
      change x with
          (if dict_mem String.eqb
                (if dict_mem String.eqb ns (source e)
                 then dict_update ns (source e) (append_Target (target e))
                 else ns) (target e)
           then dict_update
                  (if dict_mem String.eqb ns (source e)
                   then dict_update ns (source e) (append_Target (target e))
                   else ns) (target e) (append_Source (source e))
           else if dict_mem String.eqb ns (source e)
                then dict_update ns (source e) (append_Target (target e))
                else ns)
    end.
    set (ns1 := if dict_mem String.eqb ns (source e)
                then dict_update ns (source e) (append_Target (target e))
                else ns).
    assert (Hk1 : map fst ns1 = map fst ns).
    { unfold ns1. destruct (dict_mem String.eqb ns (source e));
        [apply dict_update_keys | reflexivity]. }
    set (ns2 := if dict_mem String.eqb ns1 (target e)
                then dict_update ns1 (target e) (append_Source (source e))
                else ns1).
    assert (Hk2 : map fst ns2 = map fst ns).
    { unfold ns2. destruct (dict_mem String.eqb ns1 (target e));
        [rewrite dict_update_keys|]; exact Hk1. }
    apply (IH (done ++ [e]) ns2); [rewrite Hk2; exact Hnd|].
    unfold ns2.
    apply (dict_update_entries
             (fun kv =>
                Target (snd kv)
                = map target
                      (filter (fun e0 => String.eqb (source e0) (fst kv))
                              (done ++ [e]))
                /\ Source (snd kv)
                   = map source
                         (filter (fun e0 => String.eqb (target e0) (fst kv))
                                 done)));
      [rewrite Hk1; exact Hnd | | |].
    + intros k' v Hne [HT HS]. cbn [fst snd] in *. split; [exact HT|].
      rewrite filter_app. cbn [filter].
      replace (String.eqb (target e) k') with false
        by (symmetry; apply String.eqb_neq; congruence).
      rewrite app_nil_r. exact HS.
    + intros v [HT HS]. cbn [fst snd append_Source Target Source] in *.
      split; [exact HT|].
      rewrite filter_app, map_app. cbn [filter].
      rewrite String.eqb_refl. cbn [map]. rewrite HS. reflexivity.
    + unfold ns1.
      apply (dict_update_entries
               (fun kv =>
                  Target (snd kv)
                  = map target
                        (filter (fun e0 => String.eqb (source e0) (fst kv))
                                done)
                  /\ Source (snd kv)
                     = map source
                           (filter (fun e0 => String.eqb (target e0) (fst kv))
                                   done)));
        [exact Hnd | | |exact H].
      * intros k' v Hne [HT HS]. cbn [fst snd] in *. split; [|exact HS].
        rewrite filter_app. cbn [filter].
        replace (String.eqb (source e) k') with false
          by (symmetry; apply String.eqb_neq; congruence).
        rewrite app_nil_r. exact HT.
      * intros v [HT HS]. cbn [fst snd append_Target Target Source] in *.
        split; [|exact HS].
        rewrite filter_app, map_app. cbn [filter].
        rewrite String.eqb_refl. cbn [map]. rewrite HT. reflexivity.
Qed.

Lemma parsed_adjacency_lists
      (betweenness_centrality :
         list string -> list (string * string) -> pydict (K := string) (V := Q))
      (lines : list string) (n : node) :
  In n (nodes (parse_dot betweenness_centrality lines)) ->
  Target n
  = map target
        (filter (fun e => String.eqb (source e) (ID n))
                (edges (parse_dot betweenness_centrality lines)))
  /\ Source n
     = map source
           (filter (fun e => String.eqb (target e) (ID n))
                   (edges (parse_dot betweenness_centrality lines))).
Proof.
  rewrite parse_dot_edges_fold. unfold parse_dot.
  pose proof (read_lines_nodes
                (fun kv => ID (snd kv) = fst kv
                           /\ Target (snd kv) = [] /\ Source (snd kv) = [])
                ltac:(intros; cbn; auto) lines ([], []) (Forall_nil _)) as HP.
  pose proof (read_lines_keys lines ([], []) (NoDup_nil _)) as Hk.
  destruct (fold_left read_line lines ([], [])) as [nodes0 es].
  cbn [fst snd] in *.
  assert (Hid : Forall (fun kv => ID (snd kv) = fst kv)
                       (link_nodes nodes0 es)).
  { apply link_nodes_Forall; try (intros; assumption).
    eapply Forall_impl; [|exact HP]. cbv beta. tauto. }
  assert (Hadj := link_nodes_adjacency es [] nodes0 Hk).
  cbn [app filter map] in Hadj.
  assert (Hadj' := Hadj ltac:(eapply Forall_impl; [|exact HP];
                              cbv beta; tauto)).
  clear Hadj HP.
  set (cen := subgraph_centrality betweenness_centrality
                                  (link_nodes nodes0 es) es).
  cbn [nodes]. unfold dict_values. rewrite map_map. intro Hin.
  apply in_map_iff in Hin. destruct Hin as [[k v] [<- Hkv]].
  rewrite Forall_forall in Hid, Hadj'.
  specialize (Hid _ Hkv). specialize (Hadj' _ Hkv). cbn [fst snd] in *.
  unfold assign_centrality. destruct (_ && _);
    cbn [snd set_centrality Target Source ID]; rewrite Hid; exact Hadj'.
Qed.

(** The Target and Source lists of a node record of [parse_dot] are the
    lists of the far ends of the edges out of it and into it, in the
    order of the edge list. *)
Theorem parsed_adjacency
        (betweenness_centrality :
           list string -> list (string * string) -> pydict (K := string) (V := Q))
        (lines : list string) (n : node) :
  In n (nodes (parse_dot betweenness_centrality lines)) ->
  Target n
  = map target
        (filter (fun e => String.eqb (source e) (ID n))
                (edges (parse_dot betweenness_centrality lines)))
  /\ Source n
     = map source
           (filter (fun e => String.eqb (target e) (ID n))
                   (edges (parse_dot betweenness_centrality lines))).
Proof. exact (parsed_adjacency_lists betweenness_centrality lines n). Qed.

Lemma parsed_adjacency_witness :
  let n := mk_node "LOGIC_AND_1" "AND" "AND" ["A_Rule_1_0"]
                   ["T_Rule_1_0"; "CH_temp"] (Some 0%Q) in
  Target n
  = map target
        (filter (fun e => String.eqb (source e) (ID n))
                (edges (parse_dot all_one gate_text)))
  /\ Source n
     = map source
           (filter (fun e => String.eqb (target e) (ID n))
                   (edges (parse_dot all_one gate_text))).
Proof.
  apply (parsed_adjacency all_one gate_text).
  vm_compute. right. right. right. left. reflexivity.
Defined.

(** The path finder built on the graph of [parse_dot] sees, as the
    predecessors of a declared node, the Source list of its record. *)
Theorem parsed_sources_are_predecessors
        (betweenness_centrality :
           list string -> list (string * string) -> pydict (K := string) (V := Q))
        (lines : list string) (n : node) :
  In n (nodes (parse_dot betweenness_centrality lines)) ->
  predecessors_of (init (parse_dot betweenness_centrality lines)) (ID n)
  = Source n.
Proof.
  intro Hin.
  destruct (parsed_adjacency_lists betweenness_centrality lines n Hin)
    as [_ ->].
  unfold predecessors_of, init, _build_predecessor_map.
  cbn [predecessors_map]. rewrite pred_map_fold_get. cbn [dict_get_default
    dict_get app]. f_equal. apply filter_ext_in. intros e He.
  pose proof (parsed_edges_recorded betweenness_centrality lines) as Hrec.
  rewrite Forall_forall in Hrec. rewrite (Hrec e He). reflexivity.
Qed.

Lemma parsed_sources_are_predecessors_witness :
  predecessors_of (init (parse_dot all_one gate_text)) "LOGIC_AND_1"
  = ["T_Rule_1_0"; "CH_temp"].
Proof.
  apply (parsed_sources_are_predecessors all_one gate_text
           (mk_node "LOGIC_AND_1" "AND" "AND" ["A_Rule_1_0"]
                    ["T_Rule_1_0"; "CH_temp"] (Some 0%Q))).
  vm_compute. right. right. right. left. reflexivity.
Defined.

(** ** Known targets *)

Lemma split_nonempty (self : DirectedGraphPathFinder) (t : tree) :
  _split_tree_at_or_nodes self t <> [].
Proof.
  induction t as [id children IH] using tree_ind'.
  destruct children as [|c cs]; [discriminate|].
  cbn [_split_tree_at_or_nodes].
  destruct (type_is_AND self id); [discriminate|].
  inversion IH as [|? ? Hc _]; subst.
  cbn [flat_map]. destruct (_split_tree_at_or_nodes self c);
    [contradiction Hc; reflexivity | discriminate].
Qed.

(** A declared target always has a path: the search returns at least one
    sequence and [get_paths_as_lists] at least one structure. *)
Theorem known_target_has_path (data : graph_info) (target_id : string) :
  In target_id (map ID (nodes data)) ->
  find_all_paths_to_target (init data) target_id <> []
  /\ get_paths_as_lists (init data) target_id <> [].
Proof.
  intro Hin.
  assert (H : find_all_paths_to_target (init data) target_id <> []).
  { destruct (find_all_paths_to_target_search data target_id Hin)
      as [bp [Hbp ->]].
    apply find_paths_extends in Hbp. destruct Hbp as [p [e [-> _]]].
    discriminate. }
  split; [exact H|].
  unfold get_paths_as_lists.
  destruct (find_all_paths_to_target (init data) target_id) as [|p ps] eqn:E;
    [contradiction H; reflexivity|].
  rewrite <- E.
  assert (Hroot : exists t,
             In t (_build_forest_from_paths
                     (find_all_paths_to_target (init data) target_id))).
  { destruct (returned_paths_shape (init data) target_id p) as [[rest ->] _];
      [rewrite E; left; reflexivity|].
    pose proof (forest_holds_every_path_aux
                  (find_all_paths_to_target (init data) target_id)
                  (target_id :: rest)) as Hp.
    rewrite E in Hp |- *. specialize (Hp (or_introl eq_refl)).
    destruct Hp as [c [Hc _]]. exists c. exact Hc. }
  destruct Hroot as [t Ht].
  destruct (_build_forest_from_paths
              (find_all_paths_to_target (init data) target_id))
    as [|t0 ts]; [destruct Ht|].
  cbn [flat_map map]. pose proof (split_nonempty (init data) t0) as Hs.
  destruct (_split_tree_at_or_nodes (init data) t0);
    [contradiction Hs; reflexivity | discriminate].
Qed.

Lemma known_target_has_path_witness :
  find_all_paths_to_target (init chain_graph) "T" <> []
  /\ get_paths_as_lists (init chain_graph) "T" <> [].
Proof.
  apply (known_target_has_path chain_graph "T").
  simpl. tauto.
Defined.
